(** * The SourceMod minimal YAML parser (core/yaml-cpp)

    A shallow embedding of [yaml-cpp/yaml.h] and [src/yaml.cpp]: the
    document node with its accessors and builders, and the line-oriented
    parser with its cursor and indentation stack. *)

From Stdlib Require Import List Ascii String ZArith NArith Lia Bool Arith.
Import ListNotations.

Open Scope list_scope.

(** ** C strings and the libc routines the code calls *)

(** A [const char*] is read up to its first NUL byte.  A [cstring] is a
    list of bytes; [c_str] keeps what C sees of it. *)
Definition cstring := list ascii.

Definition NUL : ascii := "000"%char.
Definition NL : ascii := "010"%char.
Definition TAB : ascii := "009"%char.
Definition SP : ascii := " "%char.

Definition cs (s : string) : cstring := list_ascii_of_string s.

Fixpoint c_str (s : cstring) : cstring :=
  match s with
  | [] => []
  | c :: r => if Ascii.eqb c NUL then [] else c :: c_str r
  end.

Definition strlen (s : cstring) : nat := List.length (c_str s).

Definition strdup (s : cstring) : cstring := c_str s.

(** [strcmp(a, b) == 0] *)
Fixpoint cstring_eqb (a b : cstring) : bool :=
  match a, b with
  | [], [] => true
  | x :: a', y :: b' => Ascii.eqb x y && cstring_eqb a' b'
  | _, _ => false
  end.

Definition strcmp_eq (a b : cstring) : bool := cstring_eqb (c_str a) (c_str b).

(** [isspace] in the "C" locale: space, and the controls 9 to 13. *)
Definition isspace (c : ascii) : bool :=
  let n := N_of_ascii c in
  (N.eqb n 32 || (N.leb 9 n && N.leb n 13))%N.

Definition isdigit (c : ascii) : bool :=
  let n := N_of_ascii c in (N.leb 48 n && N.leb n 57)%N.

(** The value a [char] array holds at an index; past the last byte of the
    string it is the terminator. *)
Definition char_at (s : cstring) (i : nat) : ascii := nth i s NUL.

(** [int] is 32 bits wide. *)
Definition INT_MIN : Z := (- 2 ^ 31)%Z.
Definition INT_MAX : Z := (2 ^ 31 - 1)%Z.
Definition wrap_int (z : Z) : Z := ((z + 2 ^ 31) mod 2 ^ 32 - 2 ^ 31)%Z.

(** [long] is 64 bits wide. *)
Definition LONG_MIN : Z := (- 2 ^ 63)%Z.
Definition LONG_MAX : Z := (2 ^ 63 - 1)%Z.
Definition saturate_long (z : Z) : Z := Z.max LONG_MIN (Z.min LONG_MAX z).

(** [atoi]: leading white space, an optional sign, then decimal digits up
    to the first other byte.  A value outside [int] is undefined in C; the
    model does what the C library of the platform does, [(int) strtol(s,
    NULL, 10)]: [strtol] reads all the digits and answers [LONG_MIN] or
    [LONG_MAX] for a value outside [long], and the conversion to [int]
    keeps the low 32 bits. *)
Fixpoint atoi_digits (s : cstring) (acc : Z) : Z :=
  match s with
  | c :: r =>
      if isdigit c
      then atoi_digits r (acc * 10 + (Z.of_N (N_of_ascii c) - 48))%Z
      else acc
  | [] => acc
  end.

Fixpoint atoi_space (s : cstring) : cstring :=
  match s with
  | c :: r => if isspace c then atoi_space r else s
  | [] => []
  end.

Definition strtol (s : cstring) : Z :=
  match atoi_space (c_str s) with
  | c :: r =>
      if Ascii.eqb c "-"%char then saturate_long (- atoi_digits r 0)
      else if Ascii.eqb c "+"%char then saturate_long (atoi_digits r 0)
      else saturate_long (atoi_digits (c :: r) 0)
  | [] => 0%Z
  end.

Definition atoi (s : cstring) : Z := wrap_int (strtol s).

(** [snprintf(buffer, 32, "%d", value)]: the decimal digits, most
    significant first, after a minus sign for a negative value, cut to the
    31 bytes the buffer has room for. *)
Definition digit_char (d : Z) : ascii := ascii_of_N (Z.to_N (48 + d)).

Fixpoint decimal_digits (fuel : nat) (n : Z) (acc : cstring) : cstring :=
  match fuel with
  | O => acc
  | S f =>
      let acc' := digit_char (n mod 10) :: acc in
      if (n / 10 =? 0)%Z then acc' else decimal_digits f (n / 10) acc'
  end.

Definition format_d (value : Z) : cstring :=
  if (value <? 0)%Z
  then "-"%char :: decimal_digits (S (Z.to_nat (Z.log2 (- value)))) (- value) []
  else decimal_digits (S (Z.to_nat (Z.log2 value))) value [].

Definition snprintf_d (size : nat) (value : Z) : cstring :=
  firstn (size - 1) (format_d value).

(** ** Node *)

Inductive NodeType := Type_Null | Type_Scalar | Type_Sequence | Type_Map.

Definition NodeType_eqb (a b : NodeType) : bool :=
  match a, b with
  | Type_Null, Type_Null | Type_Scalar, Type_Scalar
  | Type_Sequence, Type_Sequence | Type_Map, Type_Map => true
  | _, _ => false
  end.

(** A node owns its children and nothing else points at them, so the
    chain [first_child_], [next_sibling_], ... up to [last_child_] is kept
    as the list [children], in chain order.  [map_key_] is the key
    side-node, [None] for the null pointer; [tag_] and [scalar_value_] are
    the two owned strings, [None] for the null pointer. *)
Unset Elimination Schemes.
Inductive Node : Type := mkNode {
  type_ : NodeType;
  tag_ : option cstring;
  scalar_value_ : option cstring;
  children : list Node;
  map_key_ : option Node
}.
Set Elimination Schemes.

Definition set_type (n : Node) (t : NodeType) : Node :=
  mkNode t (tag_ n) (scalar_value_ n) (children n) (map_key_ n).
Definition set_scalar_value (n : Node) (v : option cstring) : Node :=
  mkNode (type_ n) (tag_ n) v (children n) (map_key_ n).

(** [Node::Node(const char* tag)] *)
Definition Node_new (tag : option cstring) : Node :=
  mkNode Type_Null (option_map strdup tag) None [] None.

(** [Node::AddChild]: the child becomes the last of the chain. *)
Definition AddChild (this child : Node) : Node :=
  mkNode (type_ this) (tag_ this) (scalar_value_ this)
         (children this ++ [child]) (map_key_ this).

(** [Node::SetMapKey] *)
Definition SetMapKey (this : Node) (key : option Node) : Node :=
  mkNode (type_ this) (tag_ this) (scalar_value_ this) (children this) key.

(** [Node::Node(const Node& other)]: type, tag and scalar are duplicated,
    the children chain is walked and each child copied and appended;
    [map_key_] is initialised to the null pointer and not assigned. *)
Fixpoint Node_copy (other : Node) : Node :=
  fold_left (fun this child => AddChild this (Node_copy child))
            (children other)
            (mkNode (type_ other)
                    (option_map strdup (tag_ other))
                    (option_map strdup (scalar_value_ other))
                    [] None).

(** [Node::Clear].  It also resets [next_sibling_], the link of the chain
    this node would be in; the assignments below, its only callers, are
    applied to a node held by value, which is in no chain. *)
Definition Clear (this : Node) : Node :=
  mkNode (type_ this) None None [] None.

Definition GetType (n : Node) : NodeType := type_ n.
Definition IsScalar (n : Node) : bool := NodeType_eqb (type_ n) Type_Scalar.
Definition IsSequence (n : Node) : bool := NodeType_eqb (type_ n) Type_Sequence.
Definition IsMap (n : Node) : bool := NodeType_eqb (type_ n) Type_Map.
Definition IsNull (n : Node) : bool := NodeType_eqb (type_ n) Type_Null.

Definition as_string (n : Node) : cstring :=
  match scalar_value_ n with Some s => s | None => [] end.

Definition as_int (n : Node) : Z :=
  match scalar_value_ n with Some s => atoi s | None => 0%Z end.

Definition as_bool (n : Node) : bool :=
  match scalar_value_ n with
  | None => false
  | Some s =>
      strcmp_eq s (cs "true") || strcmp_eq s (cs "yes") || strcmp_eq s (cs "1")
  end.

(** [Node::size]: the loop over the chain, counting the children without a
    key.  A [size_t] counter cannot overflow on a chain that fits in
    memory; it is a [nat]. *)
Fixpoint size_loop (child : list Node) (count : nat) : nat :=
  match child with
  | [] => count
  | c :: next =>
      size_loop next (match map_key_ c with None => S count | Some _ => count end)
  end.

Definition size (this : Node) : nat := size_loop (children this) 0.

(** [Node::operator[](size_t index)] *)
Fixpoint index_loop (child : list Node) (current index : nat) : Node :=
  match child with
  | [] => Node_new None
  | c :: next =>
      match map_key_ c with
      | None =>
          if current =? index then Node_copy c
          else index_loop next (S current) index
      | Some _ => index_loop next current index
      end
  end.

Definition operator_index (this : Node) (index : nat) : Node :=
  index_loop (children this) 0 index.

(** The test both keyed loops make on a child:
    [child->map_key_ && child->map_key_->scalar_value_] and then
    [strcmp(child->map_key_->scalar_value_, key) == 0]. *)
Definition key_matches (child : Node) (key : cstring) : bool :=
  match map_key_ child with
  | Some k =>
      match scalar_value_ k with
      | Some s => strcmp_eq s key
      | None => false
      end
  | None => false
  end.

(** [Node::operator[]] on a [const char* key] *)
Fixpoint key_loop (child : list Node) (key : cstring) : Node :=
  match child with
  | [] => Node_new None
  | c :: next => if key_matches c key then Node_copy c else key_loop next key
  end.

Definition operator_key (this : Node) (key : cstring) : Node :=
  key_loop (children this) key.

(** [Node::HasKey] *)
Fixpoint HasKey_loop (child : list Node) (key : cstring) : bool :=
  match child with
  | [] => false
  | c :: next => if key_matches c key then true else HasKey_loop next key
  end.

Definition HasKey (this : Node) (key : cstring) : bool :=
  HasKey_loop (children this) key.

(** [Node::push_back] of a node, and of a [const char* value] *)
Definition push_back (this node : Node) : Node :=
  AddChild this (Node_copy node).

Definition push_back_str (this : Node) (value : cstring) : Node :=
  let child := Node_new None in
  let child := set_type child Type_Scalar in
  let child := set_scalar_value child (Some (strdup value)) in
  AddChild this child.

(** [Node::operator=] from an [int] and from a [bool] *)
Definition assign_int (this : Node) (value : Z) : Node :=
  let this := Clear this in
  let this := set_type this Type_Scalar in
  let buffer := snprintf_d 32 value in
  set_scalar_value this (Some (strdup buffer)).

Definition assign_bool (this : Node) (value : bool) : Node :=
  let this := Clear this in
  let this := set_type this Type_Scalar in
  set_scalar_value this (Some (strdup (if value then cs "true" else cs "false"))).

(** ** Faults

    What a step of the C++ code could do instead of returning: index an
    array outside its bounds, read an array slot that was never written,
    go through a null pointer, read memory that was freed, or keep
    looping. *)
Inductive fault :=
  OutOfBounds | UninitialisedRead | NullDereference | UseAfterFree | OutOfFuel.

Inductive result (A : Type) : Type :=
| Ok (a : A)
| Fault (f : fault).
Arguments Ok {A} a.
Arguments Fault {A} f.

Definition bind {A B : Type} (r : result A) (k : A -> result B) : result B :=
  match r with
  | Ok a => k a
  | Fault f => Fault f
  end.

Notation "x <- e ;; k" := (bind e (fun x => k))
  (at level 61, e at next level, right associativity).

(** ** Assignment from a string

    [Node::operator=] from a [const char* value] calls [Clear()] first,
    which frees the tag and the text of the node and deletes its children,
    and reads [value] after that, in [strdup].  So it matters where the
    pointer points: at a string stored outside the node, or into the text
    or the tag of the node itself, as a pointer obtained from
    [n.as_string()] or [n.GetTag()] does.  The children are handed out as
    copies only, so that no pointer into their storage is at hand. *)
Inductive char_pointer : Type :=
| outside (s : cstring)
| own_text (offset : nat)
| own_tag (offset : nat).

(** The pointer [n.as_string()] returns: the text of the node, or the
    literal of the empty string when the node has no text. *)
Definition as_string_pointer (n : Node) : char_pointer :=
  match scalar_value_ n with
  | Some _ => own_text 0
  | None => outside []
  end.

(** The pointer [n.GetTag()] returns, when the node has a tag. *)
Definition GetTag_pointer (n : Node) : option char_pointer :=
  match tag_ n with
  | Some _ => Some (own_tag 0)
  | None => None
  end.

Definition assign_str (this : Node) (value : char_pointer) : result Node :=
  let cleared := Clear this in
  let cleared := set_type cleared Type_Scalar in
  match value with
  | outside s => Ok (set_scalar_value cleared (Some (strdup s)))
  | own_text _ =>
      match scalar_value_ this with
      | Some _ => Fault UseAfterFree
      | None => Fault NullDereference
      end
  | own_tag _ =>
      match tag_ this with
      | Some _ => Fault UseAfterFree
      | None => Fault NullDereference
      end
  end.

(** ** Pointers into the document under construction

    Every node the parser allocates is linked at once into the tree under
    [state.root], as a child or as a key side-node, and is never unlinked.
    A [Node*] held by the parser is therefore kept as the access path of its
    target from the root. *)
Inductive step := KeyStep | ChildStep (i : nat).
Definition ptr := list step.

Fixpoint replace_nth {A : Type} (i : nat) (x : A) (l : list A) : list A :=
  match l, i with
  | [], _ => []
  | _ :: t, O => x :: t
  | h :: t, S j => h :: replace_nth j x t
  end.

Definition set_children (n : Node) (l : list Node) : Node :=
  mkNode (type_ n) (tag_ n) (scalar_value_ n) l (map_key_ n).

Fixpoint lookup (n : Node) (p : ptr) : option Node :=
  match p with
  | [] => Some n
  | KeyStep :: p' =>
      match map_key_ n with
      | Some k => lookup k p'
      | None => None
      end
  | ChildStep i :: p' =>
      match nth_error (children n) i with
      | Some c => lookup c p'
      | None => None
      end
  end.

Fixpoint modify (n : Node) (p : ptr) (f : Node -> Node) : option Node :=
  match p with
  | [] => Some (f n)
  | KeyStep :: p' =>
      match map_key_ n with
      | Some k => option_map (fun k' => SetMapKey n (Some k')) (modify k p' f)
      | None => None
      end
  | ChildStep i :: p' =>
      match nth_error (children n) i with
      | Some c =>
          option_map (fun c' => set_children n (replace_nth i c' (children n)))
                     (modify c p' f)
      | None => None
      end
  end.

(** ** Parser *)

Module Parser.

(** [struct ParseState].  [indent_stack] has 64 slots, [None] for a slot
    not yet written.  [line], [column], [indent_top] and the stack entries
    are [int]s.  The counters [line] and [column] are incremented without a
    check; past [INT_MAX] that is undefined in C, and the model keeps the
    low 32 bits, as the machine does ([incr]). *)
Record ParseState := mkState {
  content : cstring;
  length : nat;
  position : nat;
  line : Z;
  column : Z;
  indent_stack : list (option Z);
  indent_top : Z;
  root : Node;
  current : ptr;
  current_key : option ptr;
  in_sequence : bool
}.

Definition set_position (st : ParseState) (v : nat) : ParseState :=
  mkState (content st) (length st) v (line st) (column st) (indent_stack st)
          (indent_top st) (root st) (current st) (current_key st) (in_sequence st).
Definition set_line (st : ParseState) (v : Z) : ParseState :=
  mkState (content st) (length st) (position st) v (column st) (indent_stack st)
          (indent_top st) (root st) (current st) (current_key st) (in_sequence st).
Definition set_column (st : ParseState) (v : Z) : ParseState :=
  mkState (content st) (length st) (position st) (line st) v (indent_stack st)
          (indent_top st) (root st) (current st) (current_key st) (in_sequence st).
Definition set_indent_stack (st : ParseState) (v : list (option Z)) : ParseState :=
  mkState (content st) (length st) (position st) (line st) (column st) v
          (indent_top st) (root st) (current st) (current_key st) (in_sequence st).
Definition set_indent_top (st : ParseState) (v : Z) : ParseState :=
  mkState (content st) (length st) (position st) (line st) (column st)
          (indent_stack st) v (root st) (current st) (current_key st) (in_sequence st).
Definition set_root (st : ParseState) (v : Node) : ParseState :=
  mkState (content st) (length st) (position st) (line st) (column st)
          (indent_stack st) (indent_top st) v (current st) (current_key st)
          (in_sequence st).
Definition set_current (st : ParseState) (v : ptr) : ParseState :=
  mkState (content st) (length st) (position st) (line st) (column st)
          (indent_stack st) (indent_top st) (root st) v (current_key st)
          (in_sequence st).

(** [i++] on an [int] counter *)
Definition incr (i : Z) : Z := wrap_int (i + 1).

(** [state->content[state->position]] *)
Definition cur_char (st : ParseState) : ascii :=
  char_at (content st) (position st).

(** [*q] for a node pointer [q] of the parser *)
Definition deref (st : ParseState) (q : ptr) : result Node :=
  match lookup (root st) q with
  | Some n => Ok n
  | None => Fault NullDereference
  end.

(** An update of the node a pointer designates *)
Definition update (st : ParseState) (q : ptr) (f : Node -> Node)
  : result ParseState :=
  match modify (root st) q f with
  | Some r => Ok (set_root st r)
  | None => Fault NullDereference
  end.

(** [state->indent_stack[i]], read and written *)
Definition stack_read (st : ParseState) (i : Z) : result Z :=
  if (i <? 0)%Z then Fault OutOfBounds
  else match nth_error (indent_stack st) (Z.to_nat i) with
       | Some (Some v) => Ok v
       | Some None => Fault UninitialisedRead
       | None => Fault OutOfBounds
       end.

Definition stack_write (st : ParseState) (i : Z) (v : Z) : result ParseState :=
  if (i <? 0)%Z then Fault OutOfBounds
  else if Z.to_nat i <? List.length (indent_stack st)
       then Ok (set_indent_stack st
                  (replace_nth (Z.to_nat i) (Some v) (indent_stack st)))
       else Fault OutOfBounds.

(** [Parser::SkipWhitespace] *)
Fixpoint SkipWhitespace_loop (fuel : nat) (st : ParseState) {struct fuel}
  : result ParseState :=
  if (position st <? length st) && isspace (cur_char st) then
    match fuel with
    | O => Fault OutOfFuel
    | S fuel' =>
        let st :=
          if Ascii.eqb (cur_char st) NL
          then set_column (set_line st (incr (line st))) 0
          else st in
        let st := set_position st (S (position st)) in
        let st := set_column st (incr (column st)) in
        SkipWhitespace_loop fuel' st
    end
  else Ok st.

Definition SkipWhitespace (st : ParseState) : result ParseState :=
  SkipWhitespace_loop (length st - position st) st.

(** [Parser::AtEndOfLine] *)
Definition AtEndOfLine (st : ParseState) : bool :=
  (length st <=? position st) || Ascii.eqb (cur_char st) NL.

(** [Parser::ReadToEndOfLine]: [room] is what is left of [size - 1]; the
    result is the state and the string left in [buffer]. *)
Fixpoint ReadToEndOfLine_loop (room : nat) (st : ParseState) (buffer : cstring)
  : ParseState * cstring :=
  match room with
  | O => (st, buffer)
  | S room' =>
      if (position st <? length st) && negb (Ascii.eqb (cur_char st) NL)
      then ReadToEndOfLine_loop room' (set_position st (S (position st)))
                                (buffer ++ [cur_char st])
      else (st, buffer)
  end.

Definition ReadToEndOfLine (st : ParseState) (size : nat)
  : ParseState * cstring :=
  let '(st, buffer) := ReadToEndOfLine_loop (size - 1) st [] in
  let st :=
    if (position st <? length st) && Ascii.eqb (cur_char st) NL
    then set_column (set_line (set_position st (S (position st)))
                              (incr (line st))) 0
    else st in
  (st, buffer).

(** [Parser::GetIndent]: [p] walks [state->content] from
    [state->position]; a tab counts for 4. *)
Fixpoint GetIndent_loop (fuel : nat) (s : cstring) (p : nat) (indent : Z)
  {struct fuel} : result Z :=
  let c := char_at s p in
  if Ascii.eqb c SP || Ascii.eqb c TAB then
    match fuel with
    | O => Fault OutOfFuel
    | S fuel' =>
        GetIndent_loop fuel' s (S p) (indent + (if Ascii.eqb c SP then 1 else 4))
    end
  else Ok indent.

Definition GetIndent (st : ParseState) : result Z :=
  GetIndent_loop (length st - position st) (content st) (position st) 0.

(** [Parser::TrimTrailingWhitespace] *)
Fixpoint TrimTrailingWhitespace_loop (len : nat) (str : cstring) : nat :=
  match len with
  | O => O
  | S len' =>
      if isspace (char_at str len')
      then TrimTrailingWhitespace_loop len' str
      else len
  end.

Definition TrimTrailingWhitespace (str : cstring) : cstring :=
  firstn (TrimTrailingWhitespace_loop (strlen str) str) str.

(** A [const char*] walking a string is the rest of the string from where
    it points: [*p] is the head (the terminator at the end), [p + 1] the
    tail. *)
Definition star (p : cstring) : ascii := hd NUL p.

(** The first loop of [ProcessLine]:
    [while ( *p && *p != ':' && !isspace( *p)) p++]. *)
Fixpoint scan_key (p : cstring) : cstring :=
  match p with
  | c :: p' =>
      if negb (Ascii.eqb c NUL) && negb (Ascii.eqb c ":") && negb (isspace c)
      then scan_key p'
      else p
  | [] => []
  end.

(** [while ( *value_start && isspace( *value_start)) value_start++] *)
Fixpoint skip_value_space (v : cstring) : cstring :=
  match v with
  | c :: v' =>
      if negb (Ascii.eqb c NUL) && isspace c then skip_value_space v' else v
  | [] => []
  end.

(** One turn of the loop of [ProcessLine] that pops the indentation
    stack: [current] moves to its key side-node if it has one, and from
    there to the last child if that child has a key. *)
Definition pop_body (st : ParseState) : result ParseState :=
  let st := set_indent_top st (indent_top st - 1) in
  cur <- deref st (current st) ;;
  let st :=
    set_current st
      (match map_key_ cur with
       | Some _ => current st ++ [KeyStep]
       | None => current st
       end) in
  parent <- deref st (current st) ;;
  Ok (match children parent with
      | [] => st
      | _ :: _ =>
          let i := List.length (children parent) - 1 in
          match nth_error (children parent) i with
          | Some last =>
              match map_key_ last with
              | Some _ => set_current st (current st ++ [ChildStep i])
              | None => st
              end
          | None => st
          end
      end).

(** The popping loop.  Each turn decrements [indent_top], which stays
    positive, so [fuel] starts at [indent_top]. *)
Fixpoint pop_loop (fuel : nat) (st : ParseState) (indent : Z) {struct fuel}
  : result ParseState :=
  if (0 <? indent_top st)%Z then
    top <- stack_read st (indent_top st) ;;
    if (indent <=? top)%Z then
      match fuel with
      | O => Fault OutOfFuel
      | S fuel' =>
          st <- pop_body st ;;
          pop_loop fuel' st indent
      end
    else Ok st
  else Ok st.

(** The two scalar leaves and the mapping node [ProcessLine] allocates *)
Definition scalar_node (value : cstring) : Node :=
  let n := Node_new None in
  let n := set_type n Type_Scalar in
  set_scalar_value n (Some (strdup value)).

Definition map_node (key : cstring) : Node :=
  let n := Node_new None in
  let n := set_type n Type_Map in
  set_scalar_value n (Some (strdup key)).

(** [strncpy(value_buffer, value_start, sizeof(value_buffer) - 1)], the
    terminator stored in the last byte, then [TrimTrailingWhitespace]. *)
Definition value_of (value_start : cstring) : cstring :=
  TrimTrailingWhitespace (firstn 1023 (c_str value_start)).

(** [Parser::ProcessLine] *)
Definition ProcessLine (st : ParseState) (line : cstring) (indent : Z)
  : result ParseState :=
  let p := scan_key line in
  let has_colon := Ascii.eqb (star p) ":" in
  let key_len := List.length line - List.length p in
  let key_len := if 1024 <=? key_len then 1023 else key_len in
  let key_buffer := firstn key_len line in
  let value_start := if has_colon then skip_value_space (tl p) else p in
  st <- pop_loop (Z.to_nat (indent_top st)) st indent ;;
  opens <-
    (if has_colon then
       if Ascii.eqb (star value_start) NUL || Ascii.eqb (star value_start) "#"
       then Ok true
       else if (0 <=? indent_top st)%Z
            then top <- stack_read st (indent_top st) ;; Ok (top <? indent)%Z
            else Ok false
     else Ok false) ;;
  if opens : bool then
    let new_node := map_node key_buffer in
    parent <- deref st (current st) ;;
    st <- update st (current st) (fun this => AddChild this new_node) ;;
    let new_ptr := current st ++ [ChildStep (List.length (children parent))] in
    st <- update st new_ptr
            (fun n => SetMapKey n (Some (scalar_node key_buffer))) ;;
    let st := set_indent_top st (indent_top st + 1) in
    st <- stack_write st (indent_top st) indent ;;
    Ok (set_current st new_ptr)
  else if Ascii.eqb (star value_start) "-"
          && Ascii.eqb (star (tl value_start)) " " then
    let seq_node := scalar_node (value_of (skipn 2 value_start)) in
    update st (current st) (fun this => AddChild this seq_node)
  else
    let value_node := scalar_node (value_of value_start) in
    let key_node := scalar_node key_buffer in
    let value_node := SetMapKey value_node (Some key_node) in
    update st (current st) (fun this => AddChild this value_node).

(** One turn of the loop of [Parser::Load]; [continue] and the end of the
    body both hand the state to the next turn. *)
Definition Load_body (st : ParseState) : result ParseState :=
  let '(st, line_buffer) := ReadToEndOfLine st 4096 in
  st <- SkipWhitespace st ;;
  if (length st <=? position st)
     || Ascii.eqb (star line_buffer) NUL
     || Ascii.eqb (star line_buffer) "#"
  then Ok st
  else
    indent <- GetIndent st ;;
    ProcessLine st line_buffer indent.

(** The loop of [Parser::Load].  Every turn moves [position] forward, so
    [fuel] starts at [length]. *)
Fixpoint Load_loop (fuel : nat) (st : ParseState) {struct fuel}
  : result ParseState :=
  if position st <? length st then
    match fuel with
    | O => Fault OutOfFuel
    | S fuel' =>
        st <- Load_body st ;;
        Load_loop fuel' st
    end
  else Ok st.

Definition initial_state (content : cstring) : ParseState :=
  mkState content (strlen content) 0 0 0
          (Some (-1)%Z :: repeat None 63) 0
          (Node_new None) [] None false.

(** [Parser::Load]: the root is returned by value, that is, through the
    copy constructor. *)
Definition Load (content : cstring) : result Node :=
  let state := initial_state content in
  state <- Load_loop (length state) state ;;
  Ok (Node_copy (root state)).

(** [Parser::SkipComments]: from a comment mark, up to the newline, which
    is left in place. *)
Fixpoint SkipComments_loop (fuel : nat) (st : ParseState) {struct fuel}
  : result ParseState :=
  if (position st <? length st) && negb (Ascii.eqb (cur_char st) NL) then
    match fuel with
    | O => Fault OutOfFuel
    | S fuel' => SkipComments_loop fuel' (set_position st (S (position st)))
    end
  else Ok st.

Definition SkipComments (st : ParseState) : result ParseState :=
  if (position st <? length st) && Ascii.eqb (cur_char st) "#"
  then SkipComments_loop (length st - position st) st
  else Ok st.

(** [Parser::CreateNode] and [Parser::SetNodeValue] *)
Definition CreateNode (st : ParseState) (type : NodeType) : Node :=
  let node := Node_new None in
  set_type node type.

Definition SetNodeValue (node : Node) (value : cstring) : Node :=
  set_scalar_value node (Some (strdup value)).

(** The double quote *)
Definition DQUOTE : ascii := "034"%char.

(** [Parser::ExtractQuotedString].  [str] is [None] for the null pointer,
    and the result is [None] for the null pointer; [malloc_ok] tells
    whether [malloc] of that many bytes succeeds.  The first loop moves
    [end] to the closing quote or to the end of the string, two bytes at a
    time over a backslash and the byte after it. *)
Fixpoint quoted_end (quote : ascii) (e : cstring) : cstring :=
  match e with
  | [] => []
  | c :: e' =>
      if Ascii.eqb c quote then e
      else if Ascii.eqb c "\" then
             match e' with
             | [] => quoted_end quote e'
             | _ :: e'' => quoted_end quote e''
             end
           else quoted_end quote e'
  end.

(** The second loop: [left] is [len - i] and [s] is [start + i]. *)
Fixpoint unescape (left : nat) (s : cstring) : cstring :=
  match left, s with
  | O, _ => []
  | _, [] => []
  | S left', c :: s' =>
      if Ascii.eqb c "\" && negb (Ascii.eqb (star s') NUL)
      then star s' :: match left' with
                      | O => []
                      | S left'' => unescape left'' (tl s')
                      end
      else c :: unescape left' s'
  end.

Definition ExtractQuotedString (malloc_ok : nat -> bool) (str : option cstring)
  : option cstring :=
  match str with
  | None => None
  | Some str =>
      let str := c_str str in
      if negb (Ascii.eqb (star str) DQUOTE) && negb (Ascii.eqb (star str) "'")
      then None
      else
        let quote := star str in
        let start := tl str in
        let e := quoted_end quote start in
        let len := List.length start - List.length e in
        if negb (malloc_ok (len + 1)) then None
        else Some (unescape len start)
  end.

(** [Parser::ExtractUnquotedString] *)
Fixpoint unquoted_end (e : cstring) : cstring :=
  match e with
  | [] => []
  | c :: e' =>
      if negb (isspace c) && negb (Ascii.eqb c "#") then unquoted_end e' else e
  end.

Definition ExtractUnquotedString (malloc_ok : nat -> bool) (str : option cstring)
  : option cstring :=
  match str with
  | None => None
  | Some str =>
      let str := skip_value_space (c_str str) in
      if Ascii.eqb (star str) NUL then None
      else
        let e := unquoted_end str in
        let len := List.length str - List.length e in
        if negb (malloc_ok (len + 1)) then None
        else Some (firstn len str)
  end.

End Parser.

Import Parser.

(** ** LoadFile and the C library under it

    What [fopen], [malloc] and [fread] answer is not decided by the
    program: a [World] fixes it.  [fopen_rb] gives the file behind a name,
    or nothing when it cannot be opened; a file has its [bytes] and the
    number of them that [fread] hands over (all of them, or fewer on a
    short read); [malloc_ok] tells whether a request of that many bytes
    succeeds.  [fseek] and [ftell] report the number of bytes of the file. *)
Record File := mkFile {
  bytes : cstring;
  delivered : nat
}.

Record World := mkWorld {
  fopen_rb : cstring -> option File;
  malloc_ok : nat -> bool
}.

(** [fread(content, 1, size, fp)]: the number of bytes read, and the bytes *)
Definition fread (fp : File) (size : nat) : nat * cstring :=
  let n := Nat.min (Nat.min (delivered fp) size) (List.length (bytes fp)) in
  (n, firstn n (bytes fp)).

(** A call returns, throws a [YAML::Exception] carrying [what()], or
    faults. *)
Inductive outcome (A : Type) : Type :=
| Returns (a : A)
| Throws (what : cstring)
| Faults (f : fault).
Arguments Returns {A} a.
Arguments Throws {A} what.
Arguments Faults {A} f.

(** [Parser::LoadFile] *)
Definition LoadFile (w : World) (filename : cstring) : outcome Node :=
  match fopen_rb w filename with
  | None => Throws (cs "Failed to open file")
  | Some fp =>
      let size := List.length (bytes fp) in
      if negb (malloc_ok w (size + 1)) then
        Throws (cs "Failed to allocate memory")
      else
        let '(read, content) := fread fp size in
        let content := firstn read content ++ [NUL] in
        match Load content with
        | Ok result => Returns result
        | Fault f => Faults f
        end
  end.

(** ** Notions the statements use *)

(** The nodes of a document: a node, the nodes under its children, and the
    nodes under its key side-node. *)
Inductive in_tree (m : Node) : Node -> Prop :=
| in_tree_here : in_tree m m
| in_tree_child : forall n c, In c (children n) -> in_tree m c -> in_tree m n
| in_tree_key : forall n k, map_key_ n = Some k -> in_tree m k -> in_tree m n.

(** The children positional indexing sees: those without a key. *)
Definition has_no_key (c : Node) : bool :=
  match map_key_ c with None => true | Some _ => false end.

Definition unkeyed (l : list Node) : list Node := filter has_no_key l.

(** Every keyed child has a kind; the parser attaches a key to mapping and
    scalar nodes only, and no builder attaches one. *)
Definition keyed_children_typed (n : Node) : Prop :=
  forall c, In c (children n) -> map_key_ c <> None -> type_ c <> Type_Null.

(** A node that has a key has a kind, and so for every node of a tree. *)
Definition typed (n : Node) : Prop :=
  map_key_ n <> None -> type_ n <> Type_Null.

Definition well_typed (n : Node) : Prop :=
  forall m, in_tree m n -> typed m.

(** A string without a NUL byte, all of which C sees. *)
Definition nul_free (s : cstring) : Prop := Forall (fun c => c <> NUL) s.

(** The scalar text is one of the three spellings of true. *)
Definition text_is_true (s : cstring) : Prop :=
  c_str s = cs "true" \/ c_str s = cs "yes" \/ c_str s = cs "1".

(** What is left of the input: the bytes from [position] up to [length]. *)
Definition rem (st : ParseState) : cstring :=
  skipn (position st) (firstn (length st) (content st)).

(** The cursor stays inside the string. *)
Definition cursor_ok (st : ParseState) : Prop :=
  position st <= length st /\ length st <= List.length (content st).

(** The part of the state [ProcessLine] works on. *)
Definition tree_of (st : ParseState)
  : list (option Z) * Z * Node * ptr * option ptr * bool :=
  (indent_stack st, indent_top st, root st, current st,
   current_key st, in_sequence st).

(** What [Load] keeps true of the indentation stack and of [current]: the
    stack has its 64 slots, holds -1 at the bottom and at most one more
    level, of indentation 0, and [current] designates a node. *)
Definition tree_ok (st : ParseState) : Prop :=
  List.length (indent_stack st) = 64 /\
  nth_error (indent_stack st) 0 = Some (Some (-1)%Z) /\
  (indent_top st = 0%Z \/
   (indent_top st = 1%Z /\ nth_error (indent_stack st) 1 = Some (Some 0%Z))) /\
  (exists cur, lookup (root st) (current st) = Some cur).

(** The loop of [Load] as a relation: the state it stops in. *)
Inductive runs : ParseState -> ParseState -> Prop :=
| runs_done : forall st, length st <= position st -> runs st st
| runs_turn : forall st st' st'',
    position st < length st ->
    Load_body st = Ok st' ->
    runs st' st'' ->
    runs st st''.

(** The scanning of one turn, on what is left of the input: the line
    buffer and the rest, the newline dropped, the white space skipped. *)
Fixpoint read_line (room : nat) (r : cstring) : cstring * cstring :=
  match room, r with
  | S room', c :: r' =>
      if Ascii.eqb c NL then ([], r)
      else let '(b, rest) := read_line room' r' in (c :: b, rest)
  | _, _ => ([], r)
  end.

Definition drop_nl (r : cstring) : cstring :=
  match r with
  | c :: r' => if Ascii.eqb c NL then r' else r
  | [] => []
  end.

Fixpoint skip_ws (r : cstring) : cstring :=
  match r with
  | c :: r' => if isspace c then skip_ws r' else r
  | [] => []
  end.

(** A blank line and a comment line, newline included. *)
Definition blank_line (c : cstring) : Prop :=
  exists ws, c = ws ++ [NL] /\ Forall (fun x => isspace x = true) ws.

Definition comment_line (max : nat) (c : cstring) : Prop :=
  exists ws txt,
    c = ws ++ "#"%char :: txt ++ [NL] /\
    Forall (fun x => isspace x = true) ws /\
    Forall (fun x => x <> NL /\ x <> NUL) txt /\
    S (List.length txt) <= max.

Definition scan (r : cstring) : cstring * cstring :=
  let '(buf, r1) := read_line 4095 r in (buf, skip_ws (drop_nl r1)).

(** The test of [Load] that sends a line to [continue]. *)
Definition skipped (buf r2 : cstring) : bool :=
  match r2 with [] => true | _ :: _ => false end
  || Ascii.eqb (star buf) NUL
  || Ascii.eqb (star buf) "#".

(** The state with the cursor fields of [src] and the others of [st]. *)
Definition with_cursor (src st : ParseState) : ParseState :=
  mkState (content src) (length src) (position src) (line src) (column src)
          (indent_stack st) (indent_top st) (root st) (current st)
          (current_key st) (in_sequence st).

Definition rmap {A B : Type} (f : A -> B) (r : result A) : result B :=
  match r with
  | Ok a => Ok (f a)
  | Fault e => Fault e
  end.

(** A step that scans: the text and the tree are as before. *)
Definition keeps (st st' : ParseState) : Prop :=
  content st' = content st /\ length st' = length st
  /\ tree_of st' = tree_of st.

(** ** Inputs the statements are tried on *)

Definition flat_mapping_input : cstring :=
  cs "name: Test" ++ [NL] ++ cs "count: 5" ++ [NL].

Definition true_opener_input : cstring := cs "true:" ++ [NL] ++ cs "x".

Definition keyed_input : cstring := cs "a:" ++ [NL] ++ cs "b".

(** The root [Load] has built for [keyed_input] when its loop stops, before
    the copy: one mapping child with its key side-node. *)
Definition keyed_document : Node :=
  mkNode Type_Null None None
         [mkNode Type_Map None (Some (cs "a")) []
                 (Some (mkNode Type_Scalar None (Some (cs "a")) [] None))]
         None.

(** A node with a keyed child between two children without a key. *)
Definition mixed_node : Node :=
  mkNode Type_Sequence None None
         [mkNode Type_Scalar None (Some (cs "x")) [] None;
          mkNode Type_Scalar None (Some (cs "v")) []
                 (Some (mkNode Type_Scalar None (Some (cs "k")) [] None));
          mkNode Type_Scalar None (Some (cs "y")) [] None]
         None.

(** A comment line of 4096 bytes, one more than the line buffer takes. *)
Definition long_comment : cstring := "#"%char :: repeat "x"%char 4095 ++ [NL].

(** A file of five bytes of which [fread] hands over two. *)
Definition short_read_world : World :=
  mkWorld (fun _ => Some (mkFile (cs "a" ++ [NL] ++ cs "b" ++ [NL] ++ cs "c") 2))
          (fun _ => true).

(** Structural induction on a node: through its children and its key. *)
Section Node_induction.
Variable P : Node -> Prop.
Hypothesis step : forall ty tg sv ch mk,
    Forall P ch -> (forall k, mk = Some k -> P k) -> P (mkNode ty tg sv ch mk).

Fixpoint Node_ind (n : Node) : P n :=
  match n with
  | mkNode ty tg sv ch mk =>
      step ty tg sv ch mk
        ((fix all (l : list Node) : Forall P l :=
            match l with
            | [] => Forall_nil P
            | c :: l' => Forall_cons c (Node_ind c) (all l')
            end) ch)
        (match mk as o return forall k, o = Some k -> P k with
         | Some k0 =>
             fun k E =>
               match E in _ = o return
                     match o with Some x => P x | None => True end
               with eq_refl => Node_ind k0 end
         | None => fun k E => match E with eq_refl => I end
         end)
  end.
End Node_induction.

(** ** What [ProcessLine] makes of a line when [Load] calls it

    The key, the colon test and the value of a line, as [ProcessLine]
    computes them, and the node it appends: a mapping node with its key for
    a line with a colon, a scalar for a sequence item, a scalar with its key
    otherwise. *)
Definition line_has_colon (line : cstring) : bool :=
  Ascii.eqb (star (scan_key line)) ":".

Definition line_key (line : cstring) : cstring :=
  let key_len := List.length line - List.length (scan_key line) in
  firstn (if 1024 <=? key_len then 1023 else key_len) line.

Definition line_value_start (line : cstring) : cstring :=
  if line_has_colon line then skip_value_space (tl (scan_key line))
  else scan_key line.

Definition line_node (line : cstring) : Node :=
  if line_has_colon line then
    SetMapKey (map_node (line_key line)) (Some (scalar_node (line_key line)))
  else if Ascii.eqb (star (line_value_start line)) "-"
          && Ascii.eqb (star (tl (line_value_start line))) " " then
    scalar_node (value_of (skipn 2 (line_value_start line)))
  else
    SetMapKey (scalar_node (value_of (line_value_start line)))
              (Some (scalar_node (line_key line))).

(** What is left of that node in the tree [Load] returns: a leaf, of kind
    Map with the key as text for a line with a colon, of kind Scalar with
    the rest of the line from its first white space otherwise. *)
Definition line_leaf (line : cstring) : Node :=
  if line_has_colon line
  then mkNode Type_Map None (Some (c_str (line_key line))) [] None
  else mkNode Type_Scalar None (Some (c_str (value_of (scan_key line)))) [] None.

(** The line buffers the loop of [Load] hands to [ProcessLine], turn by
    turn, from what is left of the input. *)
Fixpoint lines_of (fuel : nat) (r : cstring) : list cstring :=
  match fuel with
  | O => []
  | S fuel' =>
      match r with
      | [] => []
      | _ :: _ =>
          if skipped (fst (scan r)) (snd (scan r))
          then lines_of fuel' (snd (scan r))
          else fst (scan r) :: lines_of fuel' (snd (scan r))
      end
  end.

(** The leaves of the lines up to the first one with a colon, included. *)
Fixpoint visible (ls : list cstring) : list Node :=
  match ls with
  | [] => []
  | l :: ls' => line_leaf l :: (if line_has_colon l then [] else visible ls')
  end.

(** Where [current] points: at the root, with the stack at its bottom; or
    at a child of the root that has a key, or below the key of one. *)
Definition at_root (st : ParseState) : Prop :=
  current st = [] /\ indent_top st = 0%Z.

Definition under_key (st : ParseState) : Prop :=
  exists i,
    (current st = [ChildStep i] /\ indent_top st = 1%Z
     /\ exists c k, nth_error (children (root st)) i = Some c
                    /\ map_key_ c = Some k)
    \/ (exists q, current st = ChildStep i :: KeyStep :: q).


(** The text between quotes that [ExtractQuotedString] reads back as [t]:
    a backslash before every quote and every backslash. *)
Fixpoint escape (quote : ascii) (t : cstring) : cstring :=
  match t with
  | [] => []
  | c :: t' =>
      if Ascii.eqb c quote || Ascii.eqb c "\"
      then "\"%char :: c :: escape quote t'
      else c :: escape quote t'
  end.

(** The nodes a program can get hold of through the public interface:
    from the constructor, from [Load] and [LoadFile], and from the public
    operations of [Node] applied to such nodes. *)
Inductive built : Node -> Prop :=
| built_new : forall tag, built (Node_new tag)
| built_Load : forall content d, Load content = Ok d -> built d
| built_LoadFile : forall w filename d,
    LoadFile w filename = Returns d -> built d
| built_copy : forall n, built n -> built (Node_copy n)
| built_index : forall n i, built n -> built (operator_index n i)
| built_key : forall n key, built n -> built (operator_key n key)
| built_push_back : forall n x, built n -> built x -> built (push_back n x)
| built_push_back_str : forall n value,
    built n -> built (push_back_str n value)
| built_assign_str : forall n value m,
    built n -> assign_str n value = Ok m -> built m
| built_assign_int : forall n value, built n -> built (assign_int n value)
| built_assign_bool : forall n value, built n -> built (assign_bool n value).

(** No node of the tree is of kind Sequence or has a key. *)
Definition plain (n : Node) : Prop :=
  forall m, in_tree m n -> IsSequence m = false /\ map_key_ m = None.

(** A state with the indentation stack full: 63 levels above the bottom,
    of indentations 0 to 62. *)
Definition full_stack_state : ParseState :=
  mkState (cs "a:") 2 2 0 0
          (Some (-1)%Z :: map (fun i => Some (Z.of_nat i)) (seq 0 63)) 63
          (Node_new None) [] None false.

(** A world in which the file opens, memory is granted and the read is
    complete. *)
Definition full_read_world : World :=
  mkWorld (fun _ => Some (mkFile (cs "a" ++ [NL] ++ cs "b" ++ [NL] ++ cs "c") 5))
          (fun _ => true).

(** No node of kind Null in the tree has a text. *)
Definition null_textless (n : Node) : Prop :=
  forall m, in_tree m n -> IsNull m = true -> scalar_value_ m = None.

(** The tree [Load] returns for [true_opener_input]. *)
Definition true_opener_document : Node :=
  mkNode Type_Null None None
         [mkNode Type_Map None (Some (cs "true")) [] None] None.

(** * Facts *)

(** ** Strings *)

Lemma cstring_eqb_eq (a b : cstring) : cstring_eqb a b = true <-> a = b.
Proof.
  revert b; induction a as [|x a IH]; intros [|y b]; simpl; split;
    try congruence; try reflexivity.
  - intros H. apply andb_true_iff in H as [H1 H2].
    apply Ascii.eqb_eq in H1. apply IH in H2. congruence.
  - intros H. injection H as -> ->.
    rewrite Ascii.eqb_refl. simpl. now apply IH.
Qed.

Lemma c_str_nul_free (s : cstring) : nul_free (c_str s).
Proof.
  induction s as [|c s IH]; simpl; [constructor|].
  destruct (Ascii.eqb c NUL) eqn:E; [constructor|].
  constructor; [|exact IH]. now apply Ascii.eqb_neq.
Qed.

Lemma c_str_id (s : cstring) : nul_free s -> c_str s = s.
Proof.
  induction 1 as [|c s Hc _ IH]; simpl; [reflexivity|].
  apply Ascii.eqb_neq in Hc. now rewrite Hc, IH.
Qed.

Lemma c_str_idem (s : cstring) : c_str (c_str s) = c_str s.
Proof. apply c_str_id, c_str_nul_free. Qed.

Lemma c_str_app (a b : cstring) : nul_free a -> c_str (a ++ b) = a ++ c_str b.
Proof.
  induction 1 as [|c a Hc _ IH]; simpl; [reflexivity|].
  apply Ascii.eqb_neq in Hc. now rewrite Hc, IH.
Qed.

Lemma isspace_not_nul (c : ascii) : isspace c = true -> c <> NUL.
Proof. intros H ->. discriminate H. Qed.

(** ** Node *)


Lemma fold_AddChild (f : Node -> Node) (l : list Node) (base : Node) :
  fold_left (fun this child => AddChild this (f child)) l base
  = set_children base (children base ++ map f l).
Proof.
  revert base; induction l as [|c l IH]; intros base; simpl.
  - rewrite app_nil_r. now destruct base.
  - rewrite IH. unfold set_children, AddChild; simpl.
    now rewrite <- app_assoc.
Qed.

(** The copy constructor, field by field. *)
Lemma Node_copy_eq (n : Node) :
  Node_copy n
  = mkNode (type_ n) (option_map strdup (tag_ n))
           (option_map strdup (scalar_value_ n))
           (map Node_copy (children n)) None.
Proof.
  destruct n as [ty tg sv ch mk]. simpl.
  now rewrite fold_AddChild.
Qed.

Lemma Node_copy_type (n : Node) : type_ (Node_copy n) = type_ n.
Proof. now rewrite Node_copy_eq. Qed.

Lemma Node_copy_key (n : Node) : map_key_ (Node_copy n) = None.
Proof. now rewrite Node_copy_eq. Qed.

Lemma Node_copy_children (n : Node) :
  children (Node_copy n) = map Node_copy (children n).
Proof. now rewrite Node_copy_eq. Qed.

(** No node of a copy has a key side-node. *)
Lemma Node_copy_keyless (n m : Node) :
  in_tree m (Node_copy n) -> map_key_ m = None.
Proof.
  revert m. induction n as [ty tg sv ch mk IHch _] using Node_ind.
  intros m H.
  remember (Node_copy (mkNode ty tg sv ch mk)) as d eqn:Ed.
  destruct H as [|n c Hin Hc|n k Hk _].
  - subst. apply Node_copy_key.
  - subst n. rewrite Node_copy_children in Hin. simpl in Hin.
    apply in_map_iff in Hin as [c0 [<- Hin0]].
    rewrite Forall_forall in IHch. now apply (IHch c0 Hin0).
  - subst n. now rewrite Node_copy_key in Hk.
Qed.

Lemma unkeyed_keyless (l : list Node) :
  (forall c, In c l -> map_key_ c = None) -> unkeyed l = l.
Proof.
  induction l as [|c l IH]; intros H; simpl; [reflexivity|].
  unfold has_no_key. rewrite (H c (or_introl eq_refl)).
  f_equal. apply IH. intros c' Hc'. apply H. now right.
Qed.

Lemma size_loop_unkeyed (l : list Node) (count : nat) :
  size_loop l count = count + List.length (unkeyed l).
Proof.
  revert count; induction l as [|c l IH]; intros count; simpl; [lia|].
  rewrite IH. unfold has_no_key. destruct (map_key_ c); simpl; lia.
Qed.

Lemma size_unkeyed (n : Node) : size n = List.length (unkeyed (children n)).
Proof. unfold size. now rewrite size_loop_unkeyed. Qed.

Lemma index_loop_unkeyed (l : list Node) (current index : nat) :
  current <= index ->
  index_loop l current index
  = match nth_error (unkeyed l) (index - current) with
    | Some c => Node_copy c
    | None => Node_new None
    end.
Proof.
  revert current; induction l as [|c l IH]; intros current Hle; simpl.
  - now destruct (index - current).
  - unfold has_no_key. destruct (map_key_ c) eqn:Ek.
    + now apply IH.
    + destruct (Nat.eqb_spec current index) as [->|Hne].
      * now rewrite Nat.sub_diag.
      * rewrite IH by lia.
        replace (index - current) with (S (index - S current)) by lia.
        reflexivity.
Qed.

Lemma HasKey_loop_key_loop (l : list Node) (key : cstring) :
  (HasKey_loop l key = true /\
   exists c, In c l /\ map_key_ c <> None /\ key_loop l key = Node_copy c)
  \/ (HasKey_loop l key = false /\ key_loop l key = Node_new None).
Proof.
  induction l as [|c l IH]; simpl; [now right|].
  destruct (key_matches c key) eqn:E.
  - left. split; [reflexivity|]. exists c. split; [now left|]. split; [|reflexivity].
    unfold key_matches in E. now destruct (map_key_ c).
  - destruct IH as [[H [c' [Hin [Hk Hc']]]]|[H H']].
    + left. split; [exact H|]. exists c'. auto.
    + now right.
Qed.

Lemma HasKey_keyless (n : Node) (key : cstring) :
  (forall c, In c (children n) -> map_key_ c = None) ->
  HasKey n key = false /\ operator_key n key = Node_new None.
Proof.
  unfold HasKey, operator_key. intros H.
  induction (children n) as [|c l IH]; simpl; [now split|].
  unfold key_matches. rewrite (H c (or_introl eq_refl)).
  apply IH. intros c' Hc'. apply H. now right.
Qed.

(** ** Decimal text of an [int] *)

Lemma digit_char_spec (d : Z) :
  (0 <= d <= 9)%Z ->
  isdigit (digit_char d) = true
  /\ (Z.of_N (N_of_ascii (digit_char d)) - 48 = d)%Z
  /\ digit_char d <> NUL
  /\ isspace (digit_char d) = false
  /\ Ascii.eqb (digit_char d) "-" = false
  /\ Ascii.eqb (digit_char d) "+" = false.
Proof.
  intros H.
  assert (d = 0 \/ d = 1 \/ d = 2 \/ d = 3 \/ d = 4 \/ d = 5 \/ d = 6
          \/ d = 7 \/ d = 8 \/ d = 9)%Z as Hd by lia.
  repeat (destruct Hd as [->|Hd]); try subst d;
    (repeat split; try reflexivity; discriminate).
Qed.

Lemma atoi_digits_decimal (fuel : nat) :
  forall (n : Z) (acc : cstring),
    (0 <= n < 10 ^ Z.of_nat fuel)%Z ->
    exists k : nat,
      forall a, atoi_digits (decimal_digits fuel n acc) a
                = atoi_digits acc (a * 10 ^ Z.of_nat k + n)%Z.
Proof.
  induction fuel as [|fuel IH]; intros n acc Hn.
  - exists 0%nat. intros a. simpl in *. f_equal. lia.
  - cbn [decimal_digits].
    assert (0 <= n mod 10 <= 9)%Z as Hm by (pose proof (Z.mod_pos_bound n 10); lia).
    destruct (digit_char_spec _ Hm) as [Hd [Hv _]].
    destruct (Z.eqb_spec (n / 10) 0) as [Hz|Hz].
    + exists 1%nat. intros a. cbn [atoi_digits]. rewrite Hd, Hv.
      f_equal. pose proof (Z.div_mod n 10). lia.
    + destruct (IH (n / 10)%Z (digit_char (n mod 10) :: acc)) as [k Hk].
      { split; [apply Z.div_pos; lia|].
        apply Z.div_lt_upper_bound; [lia|].
        rewrite Nat2Z.inj_succ, Z.pow_succ_r in Hn by lia. lia. }
      exists (S k). intros a. rewrite Hk. cbn [atoi_digits]. rewrite Hd, Hv.
      f_equal. rewrite Nat2Z.inj_succ, Z.pow_succ_r by lia.
      pose proof (Z.div_mod n 10). lia.
Qed.

Lemma decimal_digits_length (fuel : nat) :
  forall (n : Z) (m : nat) (acc : cstring),
    (0 <= n < 10 ^ Z.of_nat m)%Z -> 1 <= m ->
    List.length (decimal_digits fuel n acc) <= m + List.length acc.
Proof.
  induction fuel as [|fuel IH]; intros n m acc Hn Hm; simpl; [lia|].
  destruct (Z.eqb_spec (n / 10) 0) as [Hz|Hz]; simpl; [lia|].
  destruct m as [|[|m]]; [lia| |].
  - exfalso. apply Hz. apply Z.div_small. simpl in Hn. lia.
  - specialize (IH (n / 10)%Z (S m) (digit_char (n mod 10) :: acc)).
    simpl List.length in IH. 
    assert (List.length (decimal_digits fuel (n / 10) (digit_char (n mod 10) :: acc))
            <= S m + S (List.length acc)); [|lia].
    apply IH; [|lia]. split; [apply Z.div_pos; lia|].
    apply Z.div_lt_upper_bound; [lia|].
    replace (Z.of_nat (S (S m))) with (Z.succ (Z.of_nat (S m))) in Hn by lia.
    rewrite Z.pow_succ_r in Hn by lia. lia.
Qed.

Lemma decimal_digits_nul_free (fuel : nat) :
  forall (n : Z) (acc : cstring),
    (0 <= n)%Z -> nul_free acc -> nul_free (decimal_digits fuel n acc).
Proof.
  induction fuel as [|fuel IH]; intros n acc Hn Hacc; simpl; [exact Hacc|].
  assert (0 <= n mod 10 <= 9)%Z as Hm by (pose proof (Z.mod_pos_bound n 10); lia).
  destruct (digit_char_spec _ Hm) as [_ [_ [Hnul _]]].
  destruct (n / 10 =? 0)%Z.
  - now constructor.
  - apply IH; [apply Z.div_pos; lia|now constructor].
Qed.

Lemma decimal_digits_head (fuel : nat) :
  forall (n : Z) (acc : cstring),
    (0 <= n)%Z ->
    exists d rest, decimal_digits (S fuel) n acc = digit_char d :: rest
                   /\ (0 <= d <= 9)%Z.
Proof.
  induction fuel as [|fuel IH]; intros n acc Hn.
  - assert (0 <= n mod 10 <= 9)%Z as Hm by (pose proof (Z.mod_pos_bound n 10); lia).
    simpl. destruct (n / 10 =? 0)%Z; eauto.
  - assert (0 <= n mod 10 <= 9)%Z as Hm by (pose proof (Z.mod_pos_bound n 10); lia).
    change (decimal_digits (S (S fuel)) n acc)
      with (if (n / 10 =? 0)%Z then digit_char (n mod 10) :: acc
            else decimal_digits (S fuel) (n / 10) (digit_char (n mod 10) :: acc)).
    destruct (n / 10 =? 0)%Z; [eauto|].
    apply IH. apply Z.div_pos; lia.
Qed.

Lemma log2_fuel (n : Z) : (0 <= n)%Z -> (n < 10 ^ Z.of_nat (S (Z.to_nat (Z.log2 n))))%Z.
Proof.
  intros Hn.
  destruct (Z.eq_dec n 0) as [->|Hne]; [reflexivity|].
  pose proof (Z.log2_nonneg n) as Hl.
  rewrite Nat2Z.inj_succ, Z2Nat.id by lia.
  destruct (Z.log2_spec n) as [_ Hub]; [lia|].
  apply Z.lt_le_trans with (1 := Hub).
  apply Z.pow_le_mono_l. lia.
Qed.

Lemma wrap_int_id (v : Z) : (INT_MIN <= v <= INT_MAX)%Z -> wrap_int v = v.
Proof.
  unfold INT_MIN, INT_MAX, wrap_int. intros H.
  rewrite Z.mod_small; lia.
Qed.

Lemma saturate_long_id (v : Z) :
  (LONG_MIN <= v <= LONG_MAX)%Z -> saturate_long v = v.
Proof. unfold saturate_long. lia. Qed.

(** [atoi] reads back what ["%d"] printed. *)
Lemma atoi_snprintf_d (v : Z) :
  (INT_MIN <= v <= INT_MAX)%Z -> atoi (strdup (snprintf_d 32 v)) = v.
Proof.
  intros Hv. unfold snprintf_d, strdup, atoi, strtol.
  assert (forall n, 0 <= n <= 2 ^ 31 -> n < 10 ^ Z.of_nat 10)%Z as Hten
    by (intros n Hn; change (10 ^ Z.of_nat 10)%Z with 10000000000%Z; lia).
  unfold INT_MIN, INT_MAX in Hv.
  unfold format_d. destruct (Z.ltb_spec v 0) as [Hneg|Hpos].
  - set (f := S (Z.to_nat (Z.log2 (- v)))).
    assert (0 <= - v)%Z as H0 by lia.
    assert (List.length (decimal_digits f (- v) []) <= 10 + 0) as Hlen
      by (apply decimal_digits_length; [split; [lia|apply Hten; lia]|lia]).
    pose proof (decimal_digits_nul_free f (- v) [] H0 (Forall_nil _)) as Hnf.
    rewrite firstn_all2 by (cbn [List.length]; lia).
    rewrite c_str_idem. rewrite c_str_id.
    2:{ constructor; [discriminate|exact Hnf]. }
    cbn [atoi_space].
    change (isspace "-") with false. cbv iota.
    rewrite Ascii.eqb_refl.
    destruct (atoi_digits_decimal f (- v) []) as [k Hk].
    { split; [lia|]. apply log2_fuel. lia. }
    rewrite Hk. simpl atoi_digits.
    rewrite saturate_long_id by (unfold LONG_MIN, LONG_MAX; lia).
    rewrite wrap_int_id; unfold INT_MIN, INT_MAX; lia.
  - set (f := Z.to_nat (Z.log2 v)).
    assert (List.length (decimal_digits (S f) v []) <= 10 + 0) as Hlen
      by (apply decimal_digits_length; [split; [lia|apply Hten; lia]|lia]).
    pose proof (decimal_digits_nul_free (S f) v [] Hpos (Forall_nil _)) as Hnf.
    rewrite firstn_all2 by lia.
    rewrite c_str_idem. rewrite c_str_id by exact Hnf.
    destruct (atoi_digits_decimal (S f) v []) as [k Hk].
    { split; [lia|]. apply log2_fuel. lia. }
    destruct (decimal_digits_head f v [] Hpos) as [d [rest [Hd Hr]]].
    destruct (digit_char_spec d Hr) as [_ [_ [_ [Hsp [Hm Hp]]]]].
    rewrite Hd in Hk |- *.
    cbn [atoi_space]. rewrite Hsp, Hm, Hp.
    rewrite Hk. simpl atoi_digits.
    rewrite saturate_long_id by (unfold LONG_MIN, LONG_MAX; lia).
    rewrite wrap_int_id; unfold INT_MIN, INT_MAX; lia.
Qed.

(** ** The parser does not look at the cursor while it builds the tree *)

Lemma update_with_cursor (src st : ParseState) (q : ptr) (f : Node -> Node) :
  update (with_cursor src st) q f = rmap (with_cursor src) (update st q f).
Proof. unfold update. simpl. now destruct (modify (root st) q f). Qed.

Lemma stack_write_with_cursor (src st : ParseState) (i v : Z) :
  stack_write (with_cursor src st) i v
  = rmap (with_cursor src) (stack_write st i v).
Proof.
  unfold stack_write. simpl. destruct (i <? 0)%Z; [reflexivity|].
  now destruct (Z.to_nat i <? List.length (indent_stack st)).
Qed.

Lemma pop_body_with_cursor (src st : ParseState) :
  pop_body (with_cursor src st) = rmap (with_cursor src) (pop_body st).
Proof.
  unfold pop_body, deref.
  cbn [root current indent_top set_indent_top set_current with_cursor].
  destruct (lookup (root st) (current st)) as [cur|]; [|reflexivity].
  cbn [bind].
  destruct (lookup (root st) _) as [parent|]; [|reflexivity].
  cbn [bind rmap]. f_equal.
  destruct (children parent) as [|c0 l0]; [reflexivity|].
  destruct (nth_error _ _) as [last|]; [|reflexivity].
  destruct (map_key_ last); reflexivity.
Qed.

Lemma pop_loop_with_cursor (src : ParseState) (indent : Z) (fuel : nat) :
  forall st,
    pop_loop fuel (with_cursor src st) indent
    = rmap (with_cursor src) (pop_loop fuel st indent).
Proof.
  induction fuel as [|fuel IH]; intros st; cbn [pop_loop];
    cbn [indent_top with_cursor];
    (destruct (0 <? indent_top st)%Z; [|reflexivity]);
    change (stack_read (with_cursor src st) (indent_top st))
      with (stack_read st (indent_top st));
    (destruct (stack_read st (indent_top st)) as [top|e]; [|reflexivity]);
    cbn [bind]; (destruct (indent <=? top)%Z; [|reflexivity]).
  - reflexivity.
  - rewrite pop_body_with_cursor.
    destruct (pop_body st) as [st1|e]; [|reflexivity].
    cbn [bind rmap]. apply IH.
Qed.

Lemma ProcessLine_with_cursor (src st : ParseState) (line : cstring) (indent : Z) :
  ProcessLine (with_cursor src st) line indent
  = rmap (with_cursor src) (ProcessLine st line indent).
Proof.
  unfold ProcessLine.
  cbn [indent_top with_cursor].
  rewrite pop_loop_with_cursor.
  destruct (pop_loop (Z.to_nat (indent_top st)) st indent) as [st1|e];
    [|reflexivity].
  cbn [rmap bind].
  set (p := scan_key line).
  set (value_start := if Ascii.eqb (star p) ":" then skip_value_space (tl p) else p).
  set (key_buffer := firstn _ line).
  cbn [indent_top with_cursor].
  change (stack_read (with_cursor src st1) (indent_top st1))
    with (stack_read st1 (indent_top st1)).
  match goal with
  | |- bind ?o _ = rmap _ (bind ?o _) => destruct o as [opens|e]
  end; [|reflexivity].
  cbn [bind]. destruct opens.
  - unfold deref. cbn [root current with_cursor].
    destruct (lookup (root st1) (current st1)) as [parent|]; [|reflexivity].
    cbn [bind]. rewrite update_with_cursor.
    destruct (update st1 (current st1) _) as [st2|e]; [|reflexivity].
    cbn [rmap bind current with_cursor]. rewrite update_with_cursor.
    destruct (update st2 _ _) as [st3|e]; [|reflexivity].
    cbn [rmap bind].
    change (set_indent_top (with_cursor src st3) (indent_top (with_cursor src st3) + 1))
      with (with_cursor src (set_indent_top st3 (indent_top st3 + 1))).
    rewrite stack_write_with_cursor.
    cbn [indent_top set_indent_top].
    destruct (stack_write _ _ _) as [st4|e]; reflexivity.
  - destruct (Ascii.eqb (star value_start) "-" && Ascii.eqb (star (tl value_start)) " ");
      cbn [current with_cursor]; apply update_with_cursor.
Qed.

(** [ProcessLine] moves nothing of the cursor. *)
Lemma with_cursor_self (st : ParseState) : with_cursor st st = st.
Proof. now destruct st. Qed.

Lemma with_cursor_tree (src st : ParseState) :
  tree_of (with_cursor src st) = tree_of st.
Proof. reflexivity. Qed.

Lemma with_cursor_eq (st1 st2 : ParseState) :
  tree_of st1 = tree_of st2 -> st1 = with_cursor st1 st2.
Proof.
  destruct st1, st2. unfold tree_of, with_cursor. simpl.
  intros H. injection H as -> -> -> -> -> ->. reflexivity.
Qed.

Lemma ProcessLine_cursor (st st' : ParseState) (line : cstring) (indent : Z) :
  ProcessLine st line indent = Ok st' -> st' = with_cursor st st'.
Proof.
  intros H. pose proof (ProcessLine_with_cursor st st line indent) as E.
  rewrite with_cursor_self, H in E. simpl in E. congruence.
Qed.

Lemma ProcessLine_tree (st1 st2 st1' : ParseState) (line : cstring) (indent : Z) :
  tree_of st1 = tree_of st2 ->
  ProcessLine st1 line indent = Ok st1' ->
  exists st2', ProcessLine st2 line indent = Ok st2'
               /\ tree_of st2' = tree_of st1'.
Proof.
  intros Ht H.
  apply eq_sym in Ht. apply with_cursor_eq in Ht.
  rewrite Ht, ProcessLine_with_cursor, H. simpl.
  eexists. split; [reflexivity|]. apply with_cursor_tree.
Qed.

(** ** Pointers *)

Lemma lookup_app (p q : ptr) : forall n,
  lookup n (p ++ q)
  = match lookup n p with Some m => lookup m q | None => None end.
Proof.
  induction p as [|s p IH]; intros n; simpl; [reflexivity|].
  destruct s as [|i].
  - destruct (map_key_ n); [apply IH|reflexivity].
  - destruct (nth_error (children n) i); [apply IH|reflexivity].
Qed.

Lemma nth_error_replace_nth {A : Type} (l : list A) : forall (i : nat) (x y : A),
  nth_error l i = Some y -> nth_error (replace_nth i x l) i = Some x.
Proof.
  induction l as [|h t IH]; intros [|i] x y H; simpl in *; try discriminate.
  - reflexivity.
  - eapply IH; eauto.
Qed.

(** An update through a valid pointer succeeds, and the pointer then
    designates the updated node. *)
Lemma modify_lookup (p : ptr) (f : Node -> Node) : forall n m,
  lookup n p = Some m ->
  exists n', modify n p f = Some n' /\ lookup n' p = Some (f m).
Proof.
  induction p as [|s p IH]; intros n m H; simpl in *.
  - injection H as <-. eauto.
  - destruct s as [|i].
    + destruct (map_key_ n) as [k|] eqn:Ek; [|discriminate].
      destruct (IH k m H) as [k' [Hm Hl]]. rewrite Hm. simpl.
      eexists. split; [reflexivity|]. simpl. exact Hl.
    + destruct (nth_error (children n) i) as [c|] eqn:Ec; [|discriminate].
      destruct (IH c m H) as [c' [Hm Hl]]. rewrite Hm. simpl.
      eexists. split; [reflexivity|]. simpl.
      now rewrite (nth_error_replace_nth _ _ _ _ Ec).
Qed.

Lemma nth_error_snoc {A : Type} (l : list A) (x : A) :
  nth_error (l ++ [x]) (List.length l) = Some x.
Proof. rewrite nth_error_app2, Nat.sub_diag by lia. reflexivity. Qed.

(** ** [ProcessLine] at indentation 0 *)

Lemma stack_write_ok (st : ParseState) (i : nat) (v : Z) :
  i < List.length (indent_stack st) ->
  stack_write st (Z.of_nat i) v
  = Ok (set_indent_stack st (replace_nth i (Some v) (indent_stack st))).
Proof.
  intros H. unfold stack_write.
  destruct (Z.ltb_spec (Z.of_nat i) 0); [lia|].
  rewrite Nat2Z.id. destruct (Nat.ltb_spec i (List.length (indent_stack st))); [reflexivity|lia].
Qed.

Lemma length_replace_nth {A : Type} (l : list A) : forall (i : nat) (x : A),
  List.length (replace_nth i x l) = List.length l.
Proof.
  induction l as [|h t IH]; intros [|i] x; simpl; auto.
Qed.

Lemma nth_error_replace_nth_other {A : Type} (l : list A) :
  forall (i j : nat) (x : A),
    i <> j -> nth_error (replace_nth i x l) j = nth_error l j.
Proof.
  induction l as [|h t IH]; intros [|i] [|j] x H; simpl; auto; try lia.
Qed.

Lemma pop_body_ok (st : ParseState) (cur : Node) :
  lookup (root st) (current st) = Some cur ->
  exists st',
    pop_body st = Ok st'
    /\ indent_top st' = (indent_top st - 1)%Z
    /\ indent_stack st' = indent_stack st
    /\ root st' = root st
    /\ (exists c, lookup (root st') (current st') = Some c).
Proof.
  intros Hcur. unfold pop_body, deref.
  cbn [root current indent_top set_indent_top set_current].
  rewrite Hcur. cbn [bind].
  assert (exists k, lookup (root st)
                      match map_key_ cur with
                      | Some _ => current st ++ [KeyStep]
                      | None => current st
                      end = Some k) as [k Hk].
  { destruct (map_key_ cur) as [k|] eqn:Ek; [|eauto].
    exists k. rewrite lookup_app, Hcur. simpl. now rewrite Ek. }
  rewrite Hk. cbn [bind]. eexists. split; [reflexivity|].
  destruct (children k) as [|c0 l0] eqn:Ech; [simpl; eauto 6|].
  destruct (nth_error (c0 :: l0) _) as [last|] eqn:El; [|simpl; eauto 6].
  destruct (map_key_ last); [|simpl; eauto 6].
  repeat split. exists last.
  cbn [root current set_current set_indent_top].
  rewrite lookup_app, Hk. cbn [lookup]. rewrite Ech, El. reflexivity.
Qed.

(** After the popping loop the stack is back at its bottom. *)
Lemma pop_loop_zero (st : ParseState) :
  tree_ok st ->
  exists st',
    pop_loop (Z.to_nat (indent_top st)) st 0 = Ok st'
    /\ indent_top st' = 0%Z
    /\ indent_stack st' = indent_stack st
    /\ root st' = root st
    /\ (exists cur, lookup (root st') (current st') = Some cur).
Proof.
  intros [Hlen [H0 [[Htop|[Htop H1]] [cur Hcur]]]].
  - rewrite Htop. cbn [Z.to_nat pop_loop]. rewrite Htop. simpl. eauto 7.
  - rewrite Htop. change (Z.to_nat 1) with 1.
    cbn [pop_loop]. rewrite Htop. cbn [Z.ltb Z.compare].
    unfold stack_read. cbn [Z.ltb Z.compare]. change (Z.to_nat 1) with 1.
    rewrite H1. cbn [bind Z.leb Z.compare].
    destruct (pop_body_ok st cur Hcur) as [st' [Hb [Ht [Hs [Hroot Hc]]]]].
    rewrite Hb. cbn [bind].
    assert (indent_top st' = 0%Z) as Hz by (rewrite Ht, Htop; reflexivity).
    rewrite Hz. cbn [Z.ltb Z.compare]. exists st'. auto.
Qed.

Lemma in_tree_trans (a b c : Node) : in_tree a b -> in_tree b c -> in_tree a c.
Proof.
  intros Hab Hbc. induction Hbc as [|n c' Hin _ IH|n k Hk _ IH].
  - exact Hab.
  - eapply in_tree_child; eauto.
  - eapply in_tree_key; eauto.
Qed.

Lemma in_tree_inv (m n : Node) :
  in_tree m n ->
  m = n
  \/ (exists c, In c (children n) /\ in_tree m c)
  \/ (exists k, map_key_ n = Some k /\ in_tree m k).
Proof. intros H. destruct H; eauto 6. Qed.

Lemma In_replace_nth {A : Type} (x y : A) (l : list A) : forall i,
  In x (replace_nth i y l) -> x = y \/ In x l.
Proof.
  induction l as [|h t IH]; intros [|i] H; simpl in *; try tauto.
  - destruct H as [<-|H]; auto.
  - destruct H as [<-|H]; auto. destruct (IH i H); auto.
Qed.

Lemma well_typed_child (n c : Node) :
  well_typed n -> In c (children n) -> well_typed c.
Proof.
  intros H Hin m Hm. apply H. eapply in_tree_child; eauto.
Qed.

Lemma well_typed_key (n k : Node) :
  well_typed n -> map_key_ n = Some k -> well_typed k.
Proof.
  intros H Hk m Hm. apply H. eapply in_tree_key; eauto.
Qed.

(** In a well typed tree every keyed child has a kind. *)
Lemma well_typed_keyed_children (n m : Node) :
  well_typed n -> in_tree m n -> keyed_children_typed m.
Proof.
  intros H Hm c Hc. apply H.
  eapply in_tree_trans; [|exact Hm]. eapply in_tree_child; [exact Hc|constructor].
Qed.

(** An update with a well typed node keeps the tree well typed. *)
Lemma modify_well_typed (f : Node -> Node) (p : ptr) : forall n n' m,
  lookup n p = Some m -> modify n p f = Some n' ->
  well_typed n -> well_typed (f m) -> well_typed n'.
Proof.
  induction p as [|s p IH]; intros n n' m Hl Hm Hn Hf; simpl in *.
  - injection Hl as <-. injection Hm as <-. exact Hf.
  - destruct s as [|i].
    + destruct (map_key_ n) as [k|] eqn:Ek; [|discriminate].
      destruct (modify k p f) as [k'|] eqn:Emod; [|discriminate].
      injection Hm as <-.
      pose proof (IH k k' m Hl Emod (well_typed_key _ _ Hn Ek) Hf) as Hk'.
      intros x Hx. apply in_tree_inv in Hx as [->|[[c [Hc Hx]]|[k0 [Ek0 Hx]]]].
      * intros _. apply (Hn n (in_tree_here n)). rewrite Ek. discriminate.
      * apply (well_typed_child n c Hn Hc x Hx).
      * simpl in Ek0. injection Ek0 as <-. apply (Hk' x Hx).
    + destruct (nth_error (children n) i) as [c|] eqn:Ec; [|discriminate].
      destruct (modify c p f) as [c'|] eqn:Emod; [|discriminate].
      injection Hm as <-.
      pose proof (IH c c' m Hl Emod
                     (well_typed_child _ _ Hn (nth_error_In _ _ Ec)) Hf) as Hc'.
      intros x Hx. apply in_tree_inv in Hx as [->|[[c0 [Hc0 Hx]]|[k0 [Ek0 Hx]]]].
      * apply (Hn n (in_tree_here n)).
      * simpl in Hc0. apply In_replace_nth in Hc0 as [->|Hc0].
        -- apply (Hc' x Hx).
        -- apply (well_typed_child n c0 Hn Hc0 x Hx).
      * simpl in Ek0. apply (well_typed_key n k0 Hn Ek0 x Hx).
Qed.

Lemma update_ok (st : ParseState) (q : ptr) (f : Node -> Node) (m : Node) :
  lookup (root st) q = Some m ->
  exists r, update st q f = Ok (set_root st r) /\ lookup r q = Some (f m)
            /\ (well_typed (root st) -> well_typed (f m) -> well_typed r).
Proof.
  intros H. unfold update.
  destruct (modify_lookup q f _ _ H) as [r [Hm Hl]]. rewrite Hm.
  exists r. split; [reflexivity|]. split; [exact Hl|].
  intros Hn Hf. exact (modify_well_typed f q _ _ m H Hm Hn Hf).
Qed.

Lemma well_typed_leaf (ty : NodeType) (tg sv : option cstring) :
  well_typed (mkNode ty tg sv [] None).
Proof.
  intros x Hx. apply in_tree_inv in Hx as [->|[[c [[] _]]|[k [Ek _]]]].
  - intros H. now contradiction H.
  - discriminate.
Qed.

Lemma well_typed_AddChild (n c : Node) :
  well_typed n -> well_typed c -> typed c -> well_typed (AddChild n c).
Proof.
  intros Hn Hc Htc x Hx.
  apply in_tree_inv in Hx as [->|[[c0 [Hc0 Hx]]|[k0 [Ek0 Hx]]]].
  - apply (Hn n (in_tree_here n)).
  - simpl in Hc0. apply in_app_or in Hc0 as [Hc0|[<-|[]]].
    + apply (well_typed_child n c0 Hn Hc0 x Hx).
    + apply (Hc x Hx).
  - simpl in Ek0. apply (well_typed_key n k0 Hn Ek0 x Hx).
Qed.

Lemma well_typed_keyed_leaf (ty : NodeType) (sv : option cstring) (k : cstring) :
  ty <> Type_Null ->
  well_typed (SetMapKey (mkNode ty None sv [] None) (Some (scalar_node k))).
Proof.
  intros Hty x Hx. apply in_tree_inv in Hx as [->|[[c [[] _]]|[k0 [Ek0 Hx]]]].
  - intros _. exact Hty.
  - simpl in Ek0. injection Ek0 as <-. apply (well_typed_leaf _ _ _ x Hx).
Qed.

(** From a state [Load] can be in, [ProcessLine] at indentation 0 returns,
    in a state [Load] can be in; and it keeps the tree well typed. *)
Lemma ProcessLine_ok (st : ParseState) (line : cstring) :
  tree_ok st ->
  exists st', ProcessLine st line 0 = Ok st' /\ tree_ok st'
              /\ (well_typed (root st) -> well_typed (root st')).
Proof.
  intros Hok. pose proof Hok as [Hlen [H0 _]].
  destruct (pop_loop_zero st Hok) as [st1 [Hpop [Htop [Hstk [Hroot [cur Hcur]]]]]].
  unfold ProcessLine. rewrite Hpop. cbn [bind].
  set (p := scan_key line).
  set (value_start := if Ascii.eqb (star p) ":" then skip_value_space (tl p) else p).
  set (key_buffer := firstn _ line).
  assert ((if Ascii.eqb (star p) ":"
           then if Ascii.eqb (star value_start) NUL || Ascii.eqb (star value_start) "#"
                then Ok true
                else if (0 <=? indent_top st1)%Z
                     then top <- stack_read st1 (indent_top st1) ;; Ok (top <? 0)%Z
                     else Ok false
           else Ok false) = Ok (Ascii.eqb (star p) ":")) as Hopens.
  { destruct (Ascii.eqb (star p) ":"); [|reflexivity].
    destruct (_ || _); [reflexivity|].
    rewrite Htop. cbn [Z.leb Z.compare]. unfold stack_read.
    cbn [Z.ltb Z.compare]. change (Z.to_nat 0) with 0.
    rewrite Hstk, H0. reflexivity. }
  rewrite Hopens. cbn [bind].
  assert (tree_ok_after : forall r c,
             lookup r (current st1) = Some c ->
             tree_ok (set_root st1 r)).
  { intros r c Hc. unfold tree_ok. cbn [indent_stack indent_top root current set_root].
    rewrite Hstk. repeat split; auto. eauto. }
  assert (well_typed (root st) -> well_typed cur) as Hwcur.
  { intros Hw x Hx. rewrite <- Hroot in Hw. clear - Hw Hx Hcur.
    revert Hw Hcur. generalize (root st1) as n. generalize (current st1) as q.
    induction q as [|s q IH]; intros n Hw Hl; simpl in Hl.
    - injection Hl as <-. now apply Hw.
    - destruct s as [|i].
      + destruct (map_key_ n) as [k|] eqn:Ek; [|discriminate].
        apply (IH k); [eapply well_typed_key; eauto|exact Hl].
      + destruct (nth_error (children n) i) as [c|] eqn:Ec; [|discriminate].
        apply (IH c); [|exact Hl].
        eapply well_typed_child; eauto using nth_error_In. }
  destruct (Ascii.eqb (star p) ":").
  - unfold deref. rewrite Hcur. cbn [bind].
    destruct (update_ok st1 (current st1) (fun this => AddChild this (map_node key_buffer)) cur Hcur)
      as [r2 [Hu2 [Hl2 Hw2]]].
    rewrite Hu2. cbn [bind current set_root].
    set (new_ptr := current st1 ++ [ChildStep (List.length (children cur))]).
    assert (lookup (root (set_root st1 r2)) new_ptr = Some (map_node key_buffer)) as Hnew.
    { unfold new_ptr. cbn [root set_root]. rewrite lookup_app, Hl2.
      cbn [lookup AddChild children]. now rewrite nth_error_snoc. }
    destruct (update_ok _ new_ptr (fun n => SetMapKey n (Some (scalar_node key_buffer))) _ Hnew)
      as [r3 [Hu3 [Hl3 Hw3]]].
    rewrite Hu3. cbn [bind indent_top set_root set_indent_top].
    rewrite Htop. change (0 + 1)%Z with (Z.of_nat 1).
    rewrite stack_write_ok
      by (cbn [indent_stack set_indent_top set_root]; rewrite Hstk; lia).
    cbn [bind]. eexists. split; [reflexivity|]. split.
    + unfold tree_ok.
      cbn [indent_stack indent_top root current set_root set_current
           set_indent_top set_indent_stack].
      rewrite length_replace_nth, Hstk.
      rewrite nth_error_replace_nth_other by lia.
      split; [exact Hlen|]. split; [exact H0|]. split.
      * right. split; [reflexivity|].
        destruct (nth_error (indent_stack st) 1) as [y|] eqn:Ey.
        -- eapply nth_error_replace_nth; eauto.
        -- apply nth_error_None in Ey. lia.
      * eauto.
    + cbn [root set_root set_current set_indent_top set_indent_stack].
      intros Hw. apply Hw3.
      * cbn [root set_root]. apply Hw2; [now rewrite Hroot|].
        apply well_typed_AddChild; [auto|apply well_typed_leaf|].
        intros H. now contradiction H.
      * apply well_typed_keyed_leaf. discriminate.
  - destruct (Ascii.eqb (star value_start) "-" && Ascii.eqb (star (tl value_start)) " ").
    + destruct (update_ok st1 (current st1)
                  (fun this => AddChild this (scalar_node (value_of (skipn 2 value_start))))
                  cur Hcur) as [r2 [Hu2 [Hl2 Hw2]]].
      rewrite Hu2. eexists. split; [reflexivity|].
      split; [eapply tree_ok_after; eauto|].
      cbn [root set_root]. intros Hw. apply Hw2; [now rewrite Hroot|].
      apply well_typed_AddChild; [auto|apply well_typed_leaf|].
      intros H. now contradiction H.
    + destruct (update_ok st1 (current st1)
                  (fun this => AddChild this
                     (SetMapKey (scalar_node (value_of value_start))
                                (Some (scalar_node key_buffer))))
                  cur Hcur) as [r2 [Hu2 [Hl2 Hw2]]].
      rewrite Hu2. eexists. split; [reflexivity|].
      split; [eapply tree_ok_after; eauto|].
      cbn [root set_root]. intros Hw. apply Hw2; [now rewrite Hroot|].
      apply well_typed_AddChild; [auto| |intros _; discriminate].
      apply well_typed_keyed_leaf. discriminate.
Qed.

(** ** Scanning, on what is left of the input *)

Lemma skipn_nth_cons {A : Type} (d : A) (l : list A) : forall i,
  i < List.length l -> skipn i l = nth i l d :: skipn (S i) l.
Proof.
  induction l as [|h t IH]; intros [|i] H; simpl in *; try lia.
  - reflexivity.
  - apply IH. lia.
Qed.

Lemma c_str_length (s : cstring) : List.length (c_str s) <= List.length s.
Proof.
  induction s as [|c s IH]; simpl; [lia|].
  destruct (Ascii.eqb c NUL); simpl; lia.
Qed.

Lemma c_str_firstn (s : cstring) : firstn (strlen s) s = c_str s.
Proof.
  unfold strlen. induction s as [|c s IH]; simpl; [reflexivity|].
  destruct (Ascii.eqb c NUL); simpl; [reflexivity|]. now rewrite IH.
Qed.

Lemma rem_length (st : ParseState) :
  cursor_ok st -> List.length (rem st) = length st - position st.
Proof.
  intros [H1 H2]. unfold rem. rewrite length_skipn, length_firstn. lia.
Qed.

Lemma rem_nil (st : ParseState) :
  cursor_ok st -> length st <= position st -> rem st = [].
Proof.
  intros Hc H. apply length_zero_iff_nil. rewrite rem_length by exact Hc. lia.
Qed.

Lemma rem_cons (st : ParseState) :
  cursor_ok st -> position st < length st ->
  rem st = cur_char st :: rem (set_position st (S (position st))).
Proof.
  intros [H1 H2] H. unfold rem, cur_char, char_at.
  cbn [position length content set_position].
  rewrite (skipn_nth_cons NUL) by (rewrite length_firstn; lia).
  rewrite nth_firstn. destruct (Nat.ltb_spec (position st) (length st)); [reflexivity|lia].
Qed.

Lemma rem_position (st : ParseState) :
  cursor_ok st -> (position st < length st <-> rem st <> []).
Proof.
  intros Hc. split.
  - intros H. rewrite rem_cons by assumption. discriminate.
  - intros H. destruct (Nat.lt_ge_cases (position st) (length st)) as [|Hge];
      [assumption|]. now rewrite rem_nil in H.
Qed.

Lemma keeps_refl (st : ParseState) : keeps st st.
Proof. now repeat split. Qed.

Lemma keeps_trans (a b c : ParseState) : keeps a b -> keeps b c -> keeps a c.
Proof. unfold keeps. intros [? [? ?]] [? [? ?]]. repeat split; congruence. Qed.

Lemma ReadToEndOfLine_loop_spec (room : nat) : forall st buffer,
  cursor_ok st ->
  exists st',
    ReadToEndOfLine_loop room st buffer
    = (st', buffer ++ fst (read_line room (rem st)))
    /\ rem st' = snd (read_line room (rem st))
    /\ cursor_ok st' /\ keeps st st'.
Proof.
  induction room as [|room IH]; intros st buffer Hc.
  - exists st. simpl. rewrite app_nil_r. auto using keeps_refl.
  - cbn [ReadToEndOfLine_loop].
    destruct (Nat.ltb_spec (position st) (length st)) as [Hlt|Hge].
    + rewrite (rem_cons st Hc Hlt). cbn [read_line andb].
      destruct (Ascii.eqb (cur_char st) NL) eqn:Enl; cbn [negb].
      * exists st. simpl. rewrite app_nil_r.
        rewrite <- (rem_cons st Hc Hlt). auto using keeps_refl.
      * assert (cursor_ok (set_position st (S (position st)))) as Hc'
            by (destruct Hc; split; simpl; lia).
        destruct (IH (set_position st (S (position st))) (buffer ++ [cur_char st]) Hc')
          as [st' [E [Hr [Hc'' Hk]]]].
        exists st'. rewrite E.
        destruct (read_line room (rem (set_position st (S (position st)))))
          as [b rest] eqn:Erl.
        simpl in *. rewrite <- app_assoc. simpl.
        split; [reflexivity|]. split; [exact Hr|]. split; [exact Hc''|exact Hk].
    + exists st. rewrite (rem_nil st Hc Hge). simpl. rewrite app_nil_r.
      auto using keeps_refl.
Qed.

Lemma ReadToEndOfLine_spec (st : ParseState) :
  cursor_ok st ->
  exists st',
    ReadToEndOfLine st 4096 = (st', fst (read_line 4095 (rem st)))
    /\ rem st' = drop_nl (snd (read_line 4095 (rem st)))
    /\ cursor_ok st' /\ keeps st st'.
Proof.
  intros Hc. unfold ReadToEndOfLine. change (4096 - 1) with 4095.
  destruct (ReadToEndOfLine_loop_spec 4095 st [] Hc) as [st1 [E [Hr [Hc1 Hk]]]].
  rewrite E. cbn [app]. rewrite <- Hr.
  destruct (Nat.ltb_spec (position st1) (length st1)) as [Hlt|Hge].
  - rewrite (rem_cons st1 Hc1 Hlt). cbn [drop_nl andb].
    destruct (Ascii.eqb (cur_char st1) NL).
    + eexists. split; [reflexivity|]. split; [reflexivity|]. split.
      * destruct Hc1. split; simpl; lia.
      * apply Hk.
    + exists st1. rewrite <- (rem_cons st1 Hc1 Hlt). auto.
  - exists st1. rewrite (rem_nil st1 Hc1 Hge). simpl. auto.
Qed.

Lemma SkipWhitespace_loop_spec (fuel : nat) : forall st,
  cursor_ok st -> length st - position st <= fuel ->
  exists st',
    SkipWhitespace_loop fuel st = Ok st'
    /\ rem st' = skip_ws (rem st)
    /\ cursor_ok st' /\ keeps st st'.
Proof.
  induction fuel as [|fuel IH]; intros st Hc Hf.
  - simpl. destruct (Nat.ltb_spec (position st) (length st)) as [Hlt|Hge]; [lia|].
    exists st. rewrite (rem_nil st Hc Hge). simpl. auto using keeps_refl.
  - cbn [SkipWhitespace_loop].
    destruct (Nat.ltb_spec (position st) (length st)) as [Hlt|Hge].
    + rewrite (rem_cons st Hc Hlt). cbn [skip_ws andb].
      destruct (isspace (cur_char st)).
      * match goal with
        | |- exists st', SkipWhitespace_loop fuel ?s = _ /\ _ =>
            destruct (IH s) as [st' [E [Hr [Hc' Hk]]]]
        end.
        { destruct Hc. destruct (Ascii.eqb (cur_char st) NL); split; simpl; lia. }
        { destruct (Ascii.eqb (cur_char st) NL); simpl; lia. }
        exists st'. split; [exact E|]. split.
        { rewrite Hr. destruct (Ascii.eqb (cur_char st) NL); reflexivity. }
        split; [exact Hc'|].
        eapply keeps_trans; [|exact Hk].
        destruct (Ascii.eqb (cur_char st) NL); now repeat split.
      * exists st. rewrite <- (rem_cons st Hc Hlt). auto using keeps_refl.
    + exists st. rewrite (rem_nil st Hc Hge). simpl. auto using keeps_refl.
Qed.

Lemma skip_ws_head (r : cstring) (c : ascii) (r' : cstring) :
  skip_ws r = c :: r' -> isspace c = false.
Proof.
  induction r as [|x r IH]; simpl; [discriminate|].
  destruct (isspace x) eqn:E; [exact IH|]. intros H. now injection H as <- _.
Qed.

(** Past the white space [GetIndent] finds none to count. *)
Lemma GetIndent_zero (st : ParseState) (c : ascii) (r : cstring) :
  cursor_ok st -> rem st = c :: r -> isspace c = false -> GetIndent st = Ok 0%Z.
Proof.
  intros Hc Hr Hs.
  assert (position st < length st) as Hlt
      by (apply rem_position; [assumption|rewrite Hr; discriminate]).
  rewrite (rem_cons st Hc Hlt) in Hr. injection Hr as Hch _.
  unfold GetIndent. unfold cur_char in Hch.
  assert (Ascii.eqb c SP || Ascii.eqb c TAB = false) as Hno.
  { destruct (Ascii.eqb_spec c SP) as [->|_]; [discriminate Hs|].
    destruct (Ascii.eqb_spec c TAB) as [->|_]; [discriminate Hs|]. reflexivity. }
  destruct (length st - position st); simpl; rewrite Hch, Hno; reflexivity.
Qed.

Lemma scan_fst (r : cstring) : fst (scan r) = fst (read_line 4095 r).
Proof. unfold scan. now destruct (read_line 4095 r). Qed.

Lemma scan_snd (r : cstring) :
  snd (scan r) = skip_ws (drop_nl (snd (read_line 4095 r))).
Proof. unfold scan. now destruct (read_line 4095 r). Qed.

Lemma tree_ok_tree_of (st st' : ParseState) :
  tree_of st' = tree_of st -> tree_ok st -> tree_ok st'.
Proof.
  unfold tree_of, tree_ok. intros H. injection H as -> -> -> -> _ _. auto.
Qed.

Lemma with_cursor_rem (src st : ParseState) : rem (with_cursor src st) = rem src.
Proof. reflexivity. Qed.

(** ** One turn of the loop of [Load] *)

Lemma Load_body_spec (st : ParseState) :
  cursor_ok st -> tree_ok st ->
  exists st',
    Load_body st = Ok st'
    /\ cursor_ok st' /\ tree_ok st'
    /\ content st' = content st /\ length st' = length st
    /\ rem st' = snd (scan (rem st))
    /\ (if skipped (fst (scan (rem st))) (snd (scan (rem st)))
        then tree_of st' = tree_of st
        else exists stp,
            ProcessLine st (fst (scan (rem st))) 0 = Ok stp
            /\ tree_of st' = tree_of stp).
Proof.
  intros Hc Hok. unfold Load_body.
  destruct (ReadToEndOfLine_spec st Hc) as [st1 [E1 [Hr1 [Hc1 Hk1]]]].
  rewrite E1.
  destruct (SkipWhitespace_loop_spec (length st1 - position st1) st1 Hc1 (le_n _))
    as [st2 [E2 [Hr2 [Hc2 Hk2]]]].
  unfold SkipWhitespace. rewrite E2. cbn [bind].
  pose proof (keeps_trans _ _ _ Hk1 Hk2) as [Hcont [Hlen Htree]].
  rewrite scan_fst, scan_snd. rewrite <- Hr1, <- Hr2.
  set (buf := fst (read_line 4095 (rem st))).
  assert ((length st2 <=? position st2)
          = match rem st2 with [] => true | _ :: _ => false end) as Hend.
  { destruct (Nat.leb_spec (length st2) (position st2)) as [Hge|Hlt].
    - now rewrite (rem_nil st2 Hc2 Hge).
    - now rewrite (rem_cons st2 Hc2 Hlt). }
  unfold skipped. rewrite <- Hend.
  destruct ((length st2 <=? position st2) || Ascii.eqb (star buf) NUL
            || Ascii.eqb (star buf) "#") eqn:Eskip.
  - exists st2. split; [reflexivity|]. split; [exact Hc2|].
    split; [eapply tree_ok_tree_of; eauto|]. auto.
  - apply orb_false_iff in Eskip as [Eskip _].
    apply orb_false_iff in Eskip as [Eskip _].
    rewrite Hend in Eskip.
    destruct (rem st2) as [|c r] eqn:Er2; [discriminate|].
    rewrite (GetIndent_zero st2 c r Hc2 Er2 (skip_ws_head _ _ _ (eq_sym Hr2))).
    cbn [bind].
    assert (tree_ok st2) as Hok2 by (eapply tree_ok_tree_of; eauto).
    destruct (ProcessLine_ok st2 buf Hok2) as [st3 [E3 [Hok3 _]]].
    pose proof (ProcessLine_cursor _ _ _ _ E3) as Hcur3.
    exists st3. split; [exact E3|].
    assert (content st3 = content st2 /\ length st3 = length st2
            /\ position st3 = position st2) as [Hc3 [Hl3 Hp3]]
        by (rewrite Hcur3; now repeat split).
    split; [unfold cursor_ok; rewrite Hc3, Hl3, Hp3; exact Hc2|].
    split; [exact Hok3|].
    split; [congruence|]. split; [congruence|].
    split; [rewrite Hcur3, with_cursor_rem; congruence|].
    destruct (ProcessLine_tree st2 st st3 buf 0%Z Htree E3) as [stp [Ep Htp]].
    exists stp. split; [exact Ep|]. now symmetry.
Qed.

(** ** Every turn consumes input *)

Lemma read_line_length (room : nat) : forall r,
  List.length (snd (read_line room r)) <= List.length r.
Proof.
  induction room as [|room IH]; intros [|c r]; simpl; try lia.
  destruct (Ascii.eqb c NL); simpl; [lia|].
  specialize (IH r). destruct (read_line room r). simpl in *. lia.
Qed.

Lemma drop_nl_length (r : cstring) : List.length (drop_nl r) <= List.length r.
Proof. destruct r as [|c r]; simpl; [lia|]. destruct (Ascii.eqb c NL); simpl; lia. Qed.

Lemma skip_ws_length (r : cstring) : List.length (skip_ws r) <= List.length r.
Proof.
  induction r as [|c r IH]; simpl; [lia|]. destruct (isspace c); simpl; lia.
Qed.

Lemma read_line_S (room : nat) (c : ascii) (r : cstring) :
  read_line (S room) (c :: r)
  = if Ascii.eqb c NL then ([], c :: r)
    else (c :: fst (read_line room r), snd (read_line room r)).
Proof. cbn [read_line]. now destruct (Ascii.eqb c NL), (read_line room r). Qed.

Lemma read_line_shrinks (room : nat) (r : cstring) :
  r <> [] ->
  List.length (skip_ws (drop_nl (snd (read_line (S room) r)))) < List.length r.
Proof.
  intros Hr. destruct r as [|c r]; [congruence|].
  rewrite read_line_S.
  change (List.length (c :: r)) with (S (List.length r)).
  destruct (Ascii.eqb c NL) eqn:E; cbn [snd].
  - cbn [drop_nl]. rewrite E. pose proof (skip_ws_length r). lia.
  - pose proof (read_line_length room r) as H.
    pose proof (drop_nl_length (snd (read_line room r))).
    pose proof (skip_ws_length (drop_nl (snd (read_line room r)))).
    lia.
Qed.

Lemma scan_shrinks (r : cstring) :
  r <> [] -> List.length (snd (scan r)) < List.length r.
Proof.
  intros Hr. rewrite scan_snd. change 4095 with (S 4094).
  now apply read_line_shrinks.
Qed.

(** With fuel for what is left of the input, the loop of [Load] stops, in
    the state the turns lead to. *)
Lemma Load_loop_runs (fuel : nat) : forall st,
  cursor_ok st -> tree_ok st -> List.length (rem st) <= fuel ->
  exists st', Load_loop fuel st = Ok st' /\ runs st st' /\ tree_ok st'.
Proof.
  induction fuel as [|fuel IH]; intros st Hc Hok Hf.
  - assert (length st <= position st) as Hge
        by (rewrite rem_length in Hf by assumption; lia).
    simpl. destruct (Nat.ltb_spec (position st) (length st)); [lia|].
    exists st. auto using runs_done.
  - cbn [Load_loop].
    destruct (Nat.ltb_spec (position st) (length st)) as [Hlt|Hge].
    + destruct (Load_body_spec st Hc Hok)
        as [st1 [E [Hc1 [Hok1 [_ [_ [Hr _]]]]]]].
      rewrite E. cbn [bind].
      assert (rem st <> []) as Hne by (now apply rem_position).
      pose proof (scan_shrinks _ Hne) as Hs. rewrite <- Hr in Hs.
      destruct (IH st1 Hc1 Hok1 ltac:(lia)) as [st' [E' [Hruns Hok']]].
      exists st'. split; [exact E'|]. split; [|exact Hok'].
      eapply runs_turn; eauto.
    + exists st. auto using runs_done.
Qed.

Lemma runs_deterministic (st a : ParseState) :
  runs st a -> forall b, runs st b -> a = b.
Proof.
  induction 1 as [st Hge|st st1 st2 Hlt E _ IH]; intros b Hb.
  - destruct Hb as [|? ? ? Hlt]; [reflexivity|lia].
  - destruct Hb as [? Hge|? st1' ? _ E' Hb]; [lia|].
    rewrite E in E'. injection E' as <-. now apply IH.
Qed.

Lemma initial_cursor_ok (content : cstring) : cursor_ok (initial_state content).
Proof. split; simpl; [lia|apply c_str_length]. Qed.

Lemma initial_tree_ok (content : cstring) : tree_ok (initial_state content).
Proof. unfold tree_ok. simpl. repeat split; eauto. Qed.

Lemma initial_rem (content : cstring) : rem (initial_state content) = c_str content.
Proof. unfold rem. simpl. apply c_str_firstn. Qed.

(** [Load] returns the copy of the root the turns built. *)
Lemma Load_runs (content : cstring) :
  exists st,
    runs (initial_state content) st
    /\ Load content = Ok (Node_copy (root st)).
Proof.
  unfold Load.
  destruct (Load_loop_runs (length (initial_state content)) (initial_state content))
    as [st [E [Hruns _]]].
  - apply initial_cursor_ok.
  - apply initial_tree_ok.
  - rewrite rem_length by apply initial_cursor_ok. simpl. lia.
  - exists st. rewrite E. auto.
Qed.

(** ** Two runs of the loop of [Load] side by side *)

(** One turn from two states with the same tree, the same line buffer
    and input left or not alike. *)
Lemma turn_sim (st1 st2 sta stb : ParseState) :
  cursor_ok st1 -> cursor_ok st2 -> tree_ok st1 ->
  tree_of st1 = tree_of st2 ->
  Load_body st1 = Ok sta -> Load_body st2 = Ok stb ->
  fst (scan (rem st1)) = fst (scan (rem st2)) ->
  (snd (scan (rem st1)) = [] <-> snd (scan (rem st2)) = []) ->
  tree_of sta = tree_of stb
  /\ cursor_ok sta /\ cursor_ok stb /\ tree_ok sta
  /\ rem sta = snd (scan (rem st1)) /\ rem stb = snd (scan (rem st2)).
Proof.
  intros Hc1 Hc2 Hok1 Ht Ea Eb Hbuf Hemp.
  assert (tree_ok st2) as Hok2 by (eapply tree_ok_tree_of; [symmetry|]; eauto).
  destruct (Load_body_spec st1 Hc1 Hok1) as [sta' [Ea' [Hca [Hoka [_ [_ [Hra Hta]]]]]]].
  destruct (Load_body_spec st2 Hc2 Hok2) as [stb' [Eb' [Hcb [Hokb [_ [_ [Hrb Htb]]]]]]].
  rewrite Ea in Ea'. injection Ea' as <-.
  rewrite Eb in Eb'. injection Eb' as <-.
  repeat (split; [|solve [auto]]).
  assert (skipped (fst (scan (rem st1))) (snd (scan (rem st1)))
          = skipped (fst (scan (rem st2))) (snd (scan (rem st2)))) as Hsk.
  { unfold skipped. rewrite Hbuf. f_equal. f_equal.
    destruct (snd (scan (rem st1))), (snd (scan (rem st2))); try reflexivity.
    - destruct Hemp as [H _]. specialize (H eq_refl). discriminate.
    - destruct Hemp as [_ H]. specialize (H eq_refl). discriminate. }
  rewrite <- Hsk, <- Hbuf in Htb.
  destruct (skipped _ _).
  - congruence.
  - destruct Hta as [stp1 [Ep1 Hp1]]. destruct Htb as [stp2 [Ep2 Hp2]].
    destruct (ProcessLine_tree st1 st2 stp1 _ _ Ht Ep1) as [stp2' [Ep2' Hp2']].
    rewrite Ep2 in Ep2'. injection Ep2' as <-. congruence.
Qed.

(** One turn on a line that starts with the comment mark. *)
Lemma turn_skip (st sta : ParseState) :
  cursor_ok st -> tree_ok st ->
  Load_body st = Ok sta ->
  star (fst (scan (rem st))) = "#"%char ->
  tree_of sta = tree_of st /\ cursor_ok sta /\ rem sta = snd (scan (rem st)).
Proof.
  intros Hc Hok E Hstar.
  destruct (Load_body_spec st Hc Hok) as [sta' [E' [Hca [_ [_ [_ [Hra Hta]]]]]]].
  rewrite E in E'. injection E' as <-.
  unfold skipped in Hta. rewrite Hstar in Hta.
  rewrite Ascii.eqb_refl, orb_true_r in Hta. auto.
Qed.

(** Same tree and same input left: same root at the end. *)
Lemma runs_same (st1 st1' : ParseState) :
  runs st1 st1' ->
  forall st2 st2',
    runs st2 st2' ->
    cursor_ok st1 -> cursor_ok st2 -> tree_ok st1 ->
    tree_of st1 = tree_of st2 -> rem st1 = rem st2 ->
    root st1' = root st2'.
Proof.
  induction 1 as [st1 Hge|st1 sta st1' Hlt Ea Hrun IH];
    intros st2 st2' Hrun2 Hc1 Hc2 Hok1 Ht Hr.
  - assert (length st2 <= position st2) as Hge2.
    { destruct (Nat.lt_ge_cases (position st2) (length st2)) as [Hlt|]; [|assumption].
      apply (rem_position st2 Hc2) in Hlt. rewrite <- Hr, (rem_nil st1 Hc1 Hge) in Hlt.
      congruence. }
    destruct Hrun2 as [|? ? ? Hlt2]; [|lia].
    unfold tree_of in Ht. congruence.
  - assert (position st2 < length st2) as Hlt2.
    { apply (rem_position st2 Hc2). rewrite <- Hr. now apply rem_position. }
    destruct Hrun2 as [? Hge2|st2 stb st2' _ Eb Hrun2]; [lia|].
    destruct (turn_sim st1 st2 sta stb Hc1 Hc2 Hok1 Ht Ea Eb)
      as [Hta [Hca [Hcb [Hoka [Hra Hrb]]]]].
    + now rewrite Hr.
    + now rewrite Hr.
    + eapply IH; eauto. congruence.
Qed.

(** ** Scanning a text that goes on after a newline *)

Lemma read_line_prefix (room : nat) : forall p,
  exists buf q, forall X, read_line room (p ++ NL :: X) = (buf, q ++ NL :: X).
Proof.
  induction room as [|room IH]; intros p.
  - exists [], p. intros X. now destruct (p ++ NL :: X).
  - destruct p as [|c p].
    + exists [], []. intros X. cbn [app]. now rewrite read_line_S.
    + destruct (Ascii.eqb c NL) eqn:E.
      * exists [], (c :: p). intros X. cbn [app]. now rewrite read_line_S, E.
      * destruct (IH p) as [buf [q Hq]].
        exists (c :: buf), q. intros X. cbn [app].
        now rewrite read_line_S, E, Hq.
Qed.

Lemma drop_nl_prefix (q : cstring) :
  (exists q', forall X, drop_nl (q ++ NL :: X) = q' ++ NL :: X)
  \/ (forall X, drop_nl (q ++ NL :: X) = X).
Proof.
  destruct q as [|c q].
  - right. intros X. reflexivity.
  - left. destruct (Ascii.eqb c NL) eqn:E.
    + exists q. intros X. simpl. now rewrite E.
    + exists (c :: q). intros X. simpl. now rewrite E.
Qed.

Lemma skip_ws_prefix (q : cstring) :
  (exists q', forall X, skip_ws (q ++ NL :: X) = q' ++ NL :: X)
  \/ (forall X, skip_ws (q ++ NL :: X) = skip_ws X).
Proof.
  induction q as [|c q IH].
  - right. intros X. reflexivity.
  - destruct (isspace c) eqn:E.
    + destruct IH as [[q' H]|H].
      * left. exists q'. intros X. simpl. now rewrite E.
      * right. intros X. simpl. now rewrite E.
    + left. exists (c :: q). intros X. simpl. now rewrite E.
Qed.

(** A turn that starts before a newline either stops before it too, or
    goes on into the text after it, skipping white space there. *)
Lemma scan_prefix (p : cstring) :
  exists buf,
    (exists q, forall X, scan (p ++ NL :: X) = (buf, q ++ NL :: X))
    \/ (forall X, scan (p ++ NL :: X) = (buf, skip_ws X)).
Proof.
  destruct (read_line_prefix 4095 p) as [buf [q Hq]]. exists buf.
  destruct (drop_nl_prefix q) as [[q1 H1]|H1].
  - destruct (skip_ws_prefix q1) as [[q2 H2]|H2].
    + left. exists q2. intros X. unfold scan. now rewrite Hq, H1, H2.
    + right. intros X. unfold scan. now rewrite Hq, H1, H2.
  - right. intros X. unfold scan. now rewrite Hq, H1.
Qed.

Lemma skip_ws_space_app (ws X : cstring) :
  Forall (fun x => isspace x = true) ws -> skip_ws (ws ++ X) = skip_ws X.
Proof. induction 1 as [|c ws Hc _ IH]; simpl; [reflexivity|]. now rewrite Hc. Qed.

Lemma skip_ws_app_nonempty (X Y : cstring) :
  skip_ws Y <> [] -> skip_ws (X ++ Y) <> [].
Proof.
  intros H. induction X as [|c X IH]; simpl; [exact H|].
  destruct (isspace c); [exact IH|discriminate].
Qed.

Lemma skip_ws_nonempty (s : cstring) :
  (exists x, In x s /\ isspace x = false) -> skip_ws s <> [].
Proof.
  intros [x [Hin Hx]]. induction s as [|c s IH]; simpl in *; [contradiction|].
  destruct (isspace c) eqn:E; [|discriminate].
  destruct Hin as [->|Hin]; [congruence|auto].
Qed.

Lemma read_line_line (l : cstring) : forall room X,
  Forall (fun x => x <> NL) l -> List.length l <= room ->
  read_line room (l ++ NL :: X) = (l, NL :: X).
Proof.
  induction l as [|c l IH]; intros room X Hl Hroom.
  - destruct room; reflexivity.
  - destruct room as [|room]; [simpl in Hroom; lia|].
    inversion Hl as [|? ? Hc Hl']; subst.
    apply Ascii.eqb_neq in Hc. cbn [app]. rewrite read_line_S, Hc.
    rewrite IH; [reflexivity|assumption|simpl in Hroom; lia].
Qed.

(** A comment line that fits the line buffer is read whole. *)
Lemma scan_comment (txt s : cstring) :
  Forall (fun x => x <> NL /\ x <> NUL) txt -> S (List.length txt) <= 4095 ->
  scan ("#"%char :: txt ++ NL :: s) = ("#"%char :: txt, skip_ws s).
Proof.
  intros Htxt Hlen. unfold scan.
  change ("#"%char :: txt ++ NL :: s) with (("#"%char :: txt) ++ NL :: s).
  rewrite read_line_line.
  - reflexivity.
  - constructor; [discriminate|]. eapply Forall_impl; [|exact Htxt]. now intros a [? _].
  - exact Hlen.
Qed.

(** ** A blank or comment line between two lines *)

Lemma runs_insert (c s : cstring) :
  blank_line c \/ comment_line 4095 c ->
  skip_ws s <> [] ->
  forall st1 st1',
    runs st1 st1' ->
    forall st2 st2' p,
      runs st2 st2' ->
      cursor_ok st1 -> cursor_ok st2 -> tree_ok st1 ->
      tree_of st1 = tree_of st2 ->
      rem st1 = p ++ NL :: c ++ s ->
      rem st2 = p ++ NL :: s ->
      root st1' = root st2'.
Proof.
  intros Hline Hs.
  induction 1 as [st1 Hge|st1 sta st1' Hlt Ea Hrun IH];
    intros st2 st2' p Hrun2 Hc1 Hc2 Hok1 Ht Hr1 Hr2.
  - rewrite (rem_nil st1 Hc1 Hge) in Hr1. now destruct p.
  - assert (position st2 < length st2) as Hlt2.
    { apply (rem_position st2 Hc2). rewrite Hr2. now destruct p. }
    destruct Hrun2 as [? Hge2|st2 stb st2' _ Eb Hrun2]; [lia|].
    destruct (scan_prefix p) as [buf [[q Hq]|Hq]].
    + destruct (turn_sim st1 st2 sta stb Hc1 Hc2 Hok1 Ht Ea Eb)
        as [Hta [Hca [Hcb [Hoka [Hra Hrb]]]]].
      * now rewrite Hr1, Hr2, !Hq.
      * rewrite Hr1, Hr2, !Hq. simpl. split; intros H; now destruct q.
      * rewrite Hr1, Hq in Hra. rewrite Hr2, Hq in Hrb. simpl in Hra, Hrb.
        eapply (IH stb st2' q); eauto.
    + destruct Hline as [[ws [-> Hws]]|[ws [txt [-> [Hws [Htxt Hlen]]]]]].
      * assert (skip_ws ((ws ++ [NL]) ++ s) = skip_ws s) as Esk.
        { apply skip_ws_space_app. apply Forall_app. split; [exact Hws|].
          now constructor. }
        destruct (turn_sim st1 st2 sta stb Hc1 Hc2 Hok1 Ht Ea Eb)
          as [Hta [Hca [Hcb [Hoka [Hra Hrb]]]]].
        -- now rewrite Hr1, Hr2, !Hq.
        -- rewrite Hr1, Hr2, !Hq. simpl. now rewrite Esk.
        -- rewrite Hr1, Hq in Hra. rewrite Hr2, Hq in Hrb. simpl in Hra, Hrb.
           eapply (runs_same sta st1' Hrun stb st2'); eauto. congruence.
      * assert (skip_ws ((ws ++ "#"%char :: txt ++ [NL]) ++ s)
                = "#"%char :: txt ++ NL :: s) as Esk.
        { rewrite <- app_assoc. rewrite skip_ws_space_app by exact Hws.
          cbn [app]. rewrite <- app_assoc. reflexivity. }
        destruct (turn_sim st1 st2 sta stb Hc1 Hc2 Hok1 Ht Ea Eb)
          as [Hta [Hca [Hcb [Hoka [Hra Hrb]]]]].
        -- now rewrite Hr1, Hr2, !Hq.
        -- rewrite Hr1, Hr2, !Hq. simpl. rewrite Esk. split; intros H;
             [discriminate|contradiction].
        -- rewrite Hr1, Hq in Hra. rewrite Hr2, Hq in Hrb. simpl in Hra, Hrb.
           rewrite Esk in Hra.
           assert (position sta < length sta) as Hlta
               by (apply (rem_position sta Hca); rewrite Hra; discriminate).
           destruct Hrun as [? Hgea|sta sta2 st1' _ Ea2 Hrun]; [lia|].
           destruct (turn_skip sta sta2 Hca Hoka Ea2) as [Hta2 [Hca2 Hra2]].
           { rewrite Hra, scan_comment by assumption. reflexivity. }
           rewrite Hra, scan_comment in Hra2 by assumption. simpl in Hra2.
           eapply (runs_same sta2 st1' Hrun stb st2'); eauto.
           ++ eapply tree_ok_tree_of; eauto.
           ++ congruence.
           ++ congruence.
Qed.

Lemma blank_line_nul_free (c : cstring) : blank_line c -> nul_free c.
Proof.
  intros [ws [-> Hws]]. apply Forall_app. split.
  - eapply Forall_impl; [|exact Hws]. intros a. apply isspace_not_nul.
  - constructor; [discriminate|constructor].
Qed.

Lemma comment_line_nul_free (max : nat) (c : cstring) :
  comment_line max c -> nul_free c.
Proof.
  intros [ws [txt [-> [Hws [Htxt _]]]]]. apply Forall_app. split.
  - eapply Forall_impl; [|exact Hws]. intros a. apply isspace_not_nul.
  - constructor; [discriminate|]. apply Forall_app. split.
    + eapply Forall_impl; [|exact Htxt]. now intros a [_ ?].
    + constructor; [discriminate|constructor].
Qed.

Lemma Load_insert_line (p c s : cstring) :
  nul_free p ->
  blank_line c \/ comment_line 4095 c ->
  skip_ws (c_str s) <> [] ->
  Load (p ++ NL :: c ++ s) = Load (p ++ NL :: s).
Proof.
  intros Hp Hline Hs.
  assert (nul_free c) as Hc
      by (destruct Hline; eauto using blank_line_nul_free, comment_line_nul_free).
  destruct (Load_runs (p ++ NL :: c ++ s)) as [st1 [Hrun1 E1]].
  destruct (Load_runs (p ++ NL :: s)) as [st2 [Hrun2 E2]].
  rewrite E1, E2. do 2 f_equal.
  eapply (runs_insert c (c_str s) Hline Hs _ _ Hrun1 _ _ p Hrun2).
  - apply initial_cursor_ok.
  - apply initial_cursor_ok.
  - apply initial_tree_ok.
  - reflexivity.
  - rewrite initial_rem.
    change (p ++ NL :: c ++ s) with (p ++ [NL] ++ c ++ s).
    rewrite !app_assoc. rewrite c_str_app; [now rewrite <- !app_assoc|].
    apply Forall_app. split; [|exact Hc].
    apply Forall_app. split; [exact Hp|]. constructor; [discriminate|constructor].
  - rewrite initial_rem.
    change (p ++ NL :: s) with (p ++ [NL] ++ s).
    rewrite !app_assoc. rewrite c_str_app; [now rewrite <- !app_assoc|].
    apply Forall_app. split; [exact Hp|]. constructor; [discriminate|constructor].
Qed.

(** ** The trees the parser builds are well typed *)

Lemma Load_body_typed (st st' : ParseState) :
  cursor_ok st -> tree_ok st -> well_typed (root st) ->
  Load_body st = Ok st' -> well_typed (root st').
Proof.
  intros Hc Hok Hw E.
  destruct (Load_body_spec st Hc Hok) as [st1 [E1 [_ [_ [_ [_ [_ Ht]]]]]]].
  rewrite E in E1. injection E1 as <-.
  destruct (skipped _ _).
  - unfold tree_of in Ht. injection Ht as _ _ -> _ _ _. exact Hw.
  - destruct Ht as [stp [Ep Ht]].
    destruct (ProcessLine_ok st (fst (scan (rem st))) Hok) as [stp' [Ep' [_ Hw']]].
    rewrite Ep in Ep'. injection Ep' as <-.
    unfold tree_of in Ht. injection Ht as _ _ -> _ _ _. auto.
Qed.

Lemma runs_typed (st st' : ParseState) :
  runs st st' ->
  cursor_ok st -> tree_ok st -> well_typed (root st) -> well_typed (root st').
Proof.
  induction 1 as [st Hge|st st1 st' Hlt E _ IH]; intros Hc Hok Hw; [exact Hw|].
  destruct (Load_body_spec st Hc Hok) as [st1' [E1 [Hc1 [Hok1 _]]]].
  rewrite E in E1. injection E1 as <-.
  apply IH; [exact Hc1|exact Hok1|].
  exact (Load_body_typed st st1 Hc Hok Hw E).
Qed.

(** Every keyed child in the tree [Load] has built when its loop stops has
    a kind, and a copy has no keyed child at all. *)
Lemma Load_builds_typed (content : cstring) (st : ParseState) (m : Node) :
  runs (initial_state content) st ->
  in_tree m (root st) -> keyed_children_typed m.
Proof.
  intros Hrun Hm. eapply well_typed_keyed_children; [|exact Hm].
  eapply runs_typed; [exact Hrun| | |].
  - apply initial_cursor_ok.
  - apply initial_tree_ok.
  - apply well_typed_leaf.
Qed.

Lemma Node_copy_typed (n : Node) : keyed_children_typed (Node_copy n).
Proof.
  intros c Hc Hk. contradiction Hk. apply (Node_copy_keyless n).
  eapply in_tree_child; [exact Hc|constructor].
Qed.

(** * The claims *)

(** C1: parsing the two lines ["name: Test\ncount: 5\n"] should give a
    root Mapping with two entries, [root["name"].as_string()] equal to
    ["Test"], [root["count"].as_int()] equal to 5 and
    [root["count"].as_bool()] false.  The code gives something else: the
    root is of kind Null and has one child, the Mapping node of the first
    line, whose value ["Test"] is lost; the second line is not processed;
    no key survives the copy made on return, so both keyed lookups answer
    the Null node, whose string is empty and whose integer is 0. *)
Theorem Load_flat_mapping :
  exists root : Node,
    Load flat_mapping_input = Ok root
    /\ root = mkNode Type_Null None None
                     [mkNode Type_Map None (Some (cs "name")) [] None] None
    /\ IsMap root = false
    /\ size root = 1
    /\ IsNull (operator_key root (cs "name")) = true
    /\ as_string (operator_key root (cs "name")) = []
    /\ as_int (operator_key root (cs "count")) = 0%Z
    /\ as_bool (operator_key root (cs "count")) = false.
Proof. eexists. split; [vm_compute; reflexivity|]. repeat split. Qed.

(** C2: for every input string, [Load] terminates and returns a document
    tree; it reports no error and runs into no fault, whatever the
    indentation, the nesting and the length of the lines. *)
Theorem Load_never_fails :
  forall content : cstring, exists tree : Node, Load content = Ok tree.
Proof.
  intros content. destruct (Load_runs content) as [st [_ E]]. eauto.
Qed.

(** C3: a copy should be structurally equal to the node copied, keys
    included.  The root [Load] has built for ["a:\nb"] when its loop stops
    is [keyed_document]; the copy constructor, which [Load] then applies to
    it, gives a different node, in which the key is gone: [HasKey] finds
    ["a"] in the original and not in the copy. *)
Theorem Node_copy_drops_keys :
  (exists st, Load_loop (length (initial_state keyed_input))
                        (initial_state keyed_input) = Ok st
              /\ root st = keyed_document)
  /\ Node_copy keyed_document <> keyed_document
  /\ HasKey keyed_document (cs "a") = true
  /\ HasKey (Node_copy keyed_document) (cs "a") = false
  /\ IsNull (operator_key keyed_document (cs "a")) = false
  /\ IsNull (operator_key (Node_copy keyed_document) (cs "a")) = true.
Proof.
  split; [eexists; split; vm_compute; reflexivity|].
  split; [discriminate|]. repeat split.
Qed.

(** C4: for every input, no node of the tree [Load] returns has a key
    side-node; so on the returned root [HasKey] is false for every key,
    keyed [operator[]] answers a Null node for every key, and [size] counts
    all the children. *)
Theorem Load_result_keyless :
  forall content : cstring,
  exists d : Node,
    Load content = Ok d
    /\ (forall m, in_tree m d -> map_key_ m = None)
    /\ (forall key, HasKey d key = false)
    /\ (forall key, IsNull (operator_key d key) = true)
    /\ size d = List.length (children d).
Proof.
  intros content. destruct (Load_runs content) as [st [_ E]].
  exists (Node_copy (root st)). split; [exact E|].
  assert (forall c, In c (children (Node_copy (root st))) -> map_key_ c = None)
    as Hch.
  { intros c Hc. apply (Node_copy_keyless (root st)).
    eapply in_tree_child; [exact Hc|constructor]. }
  split; [apply Node_copy_keyless|].
  split; [intros key; now apply HasKey_keyless|].
  split.
  - intros key. destruct (HasKey_keyless _ key Hch) as [_ ->]. reflexivity.
  - rewrite size_unkeyed. now rewrite unkeyed_keyless.
Qed.

(** C5: a comment line between two lines should not change the tree
    [Load] returns.  The code does otherwise for a long one: between the
    lines [a] and [b] of an input of three lines, a comment line of 4096
    bytes changes the tree, which gets three children instead of two.
    [ReadToEndOfLine] stops when the line buffer is full, before the
    newline: the buffer takes 4095 bytes of the comment, which are skipped
    as a comment, and the byte left over is read as a line of its own and
    becomes a node. *)
Lemma long_comment_line_changes_tree :
  let before := cs "a" ++ [NL] in
  let after := cs "b" ++ [NL] ++ cs "c" ++ [NL] in
  comment_line 4096 long_comment
  /\ rmap size (Load (before ++ after)) = Ok 2
  /\ rmap size (Load (before ++ long_comment ++ after)) = Ok 3
  /\ Load (before ++ long_comment ++ after) <> Load (before ++ after).
Proof.
  cbv zeta.
  assert (rmap size (Load ((cs "a" ++ [NL]) ++ cs "b" ++ [NL] ++ cs "c" ++ [NL]))
          = Ok 2) as H2 by (vm_compute; reflexivity).
  assert (rmap size (Load ((cs "a" ++ [NL]) ++ long_comment
                             ++ cs "b" ++ [NL] ++ cs "c" ++ [NL]))
          = Ok 3) as H3 by (vm_compute; reflexivity).
  split; [|split; [exact H2|split; [exact H3|]]].
  - exists [], (repeat "x"%char 4095). split; [reflexivity|].
    split; [constructor|]. split.
    + apply Forall_forall. intros x Hx. apply repeat_spec in Hx. subst x.
      split; discriminate.
    + rewrite repeat_length. apply le_n.
  - intros E. rewrite E, H2 in H3. discriminate H3.
Qed.

(** X26: between two lines, that is, after a newline and before text
    that is not all white space, blank lines and comment lines whose text
    from the comment mark on is at most 4095 bytes long do not change the
    tree [Load] returns. *)
Theorem comment_blank_transparency :
  forall (before : cstring) (lines : list cstring) (after : cstring),
    nul_free before ->
    Forall (fun c => blank_line c \/ comment_line 4095 c) lines ->
    (exists x, In x (c_str after) /\ isspace x = false) ->
    Load (before ++ NL :: List.concat lines ++ after)
    = Load (before ++ NL :: after).
Proof.
  intros before lines after Hb Hlines Ha.
  apply skip_ws_nonempty in Ha.
  induction Hlines as [|c lines Hc Hlines IH]; [reflexivity|].
  cbn [List.concat]. rewrite <- app_assoc. rewrite <- IH.
  apply Load_insert_line; [exact Hb|exact Hc|].
  rewrite c_str_app.
  - now apply skip_ws_app_nonempty.
  - clear IH. induction Hlines as [|c' lines' Hc' _ IH']; [constructor|].
    cbn [List.concat]. apply Forall_app. split; [|exact IH'].
    destruct Hc' as [H|H];
      [exact (blank_line_nul_free _ H)|exact (comment_line_nul_free _ _ H)].
Qed.

Lemma comment_blank_transparency_witness :
  Load (cs "a" ++ NL :: List.concat [cs "  # note" ++ [NL]; [SP; NL]]
           ++ cs "b" ++ [NL] ++ cs "c")
  = Load (cs "a" ++ NL :: cs "b" ++ [NL] ++ cs "c").
Proof.
  apply (comment_blank_transparency (cs "a")
           [cs "  # note" ++ [NL]; [SP; NL]] (cs "b" ++ [NL] ++ cs "c")).
  - repeat constructor; discriminate.
  - constructor; [|constructor; [|constructor]].
    + right. exists [SP; SP], (cs " note").
      split; [reflexivity|]. split; [repeat constructor|].
      split; [repeat constructor; discriminate|simpl; lia].
    + left. exists [SP]. split; [reflexivity|repeat constructor].
  - exists "b"%char. split; [simpl; auto|reflexivity].
Defined.

(** C6, as stated, fails: the first child of the tree [Load] returns for
    ["true:\nx"] is a Mapping node, not a Scalar one, and its [as_bool] is
    true, for the parser stores the key text of a mapping node as its scalar
    text. *)
Lemma as_bool_true_on_mapping :
  exists d : Node,
    Load true_opener_input = Ok d
    /\ IsMap (operator_index d 0) = true
    /\ IsScalar (operator_index d 0) = false
    /\ as_bool (operator_index d 0) = true
    /\ ~ (as_bool (operator_index d 0) = true ->
          IsScalar (operator_index d 0) = true).
Proof.
  eexists. split; [vm_compute; reflexivity|].
  repeat split. intros H. specialize (H eq_refl). discriminate H.
Qed.

(** C7: for every node [n] and index [i], positional [n[i]] is a Null
    node when [i >= n.size()], and when [i < n.size()] it is (a copy of)
    the [i]-th of the children without a key, the keyed ones being
    skipped. *)
Theorem operator_index_spec :
  forall (n : Node) (i : nat),
    (size n <= i ->
     operator_index n i = Node_new None
     /\ IsNull (operator_index n i) = true)
    /\ (i < size n ->
        exists c, nth_error (unkeyed (children n)) i = Some c
                  /\ operator_index n i = Node_copy c).
Proof.
  intros n i. unfold operator_index.
  rewrite index_loop_unkeyed by lia. rewrite Nat.sub_0_r, size_unkeyed.
  split; intros H.
  - apply nth_error_None in H. now rewrite H.
  - apply nth_error_Some in H.
    destruct (nth_error (unkeyed (children n)) i) as [c|]; [eauto|congruence].
Qed.

Lemma operator_index_spec_witness :
  (operator_index mixed_node 2 = Node_new None
   /\ IsNull (operator_index mixed_node 2) = true)
  /\ (exists c, nth_error (unkeyed (children mixed_node)) 1 = Some c
                /\ operator_index mixed_node 1 = Node_copy c).
Proof.
  split.
  - apply (proj1 (operator_index_spec mixed_node 2)). vm_compute. lia.
  - apply (proj2 (operator_index_spec mixed_node 1)). vm_compute. lia.
Defined.

(** C8: for every node [n] whose keyed children have a kind, and every
    key [k], [n.HasKey(k)] is true iff keyed [n[k]] is not a Null node; for
    every parsed document [d] and every key [k], present in the text or
    not, [d[k]] is Null and [d.HasKey(k)] is false.  The nodes of the
    program are as the first part wants them: every keyed child in the tree
    [Load] builds has a kind, and a copy, so every node [Load] or an
    [operator[]] returns, has no keyed child. *)
Theorem HasKey_iff_operator_key :
  (forall (n : Node) (k : cstring),
      keyed_children_typed n ->
      (HasKey n k = true <-> IsNull (operator_key n k) = false))
  /\ (forall (content k : cstring),
        exists d, Load content = Ok d
                  /\ IsNull (operator_key d k) = true
                  /\ HasKey d k = false)
  /\ (forall (content : cstring) (st : ParseState) (m : Node),
        runs (initial_state content) st ->
        in_tree m (root st) -> keyed_children_typed m)
  /\ (forall n : Node, keyed_children_typed (Node_copy n)).
Proof.
  split; [|split; [|split; [exact Load_builds_typed|exact Node_copy_typed]]].
  - intros n k Hn. unfold HasKey, operator_key.
    destruct (HasKey_loop_key_loop (children n) k)
      as [[-> [c [Hin [Hk ->]]]]|[-> ->]].
    + split; [|reflexivity]. intros _. unfold IsNull.
      rewrite Node_copy_type. specialize (Hn c Hin Hk).
      now destruct (type_ c).
    + split; discriminate.
  - intros content k. destruct (Load_runs content) as [st [_ E]].
    exists (Node_copy (root st)). split; [exact E|].
    destruct (HasKey_keyless (Node_copy (root st)) k) as [-> ->].
    + intros c Hc. apply (Node_copy_keyless (root st)).
      eapply in_tree_child; [exact Hc|constructor].
    + now split.
Qed.

Lemma HasKey_iff_operator_key_witness :
  keyed_children_typed keyed_document
  /\ (HasKey keyed_document (cs "a") = true
      <-> IsNull (operator_key keyed_document (cs "a")) = false)
  /\ (HasKey keyed_document (cs "b") = true
      <-> IsNull (operator_key keyed_document (cs "b")) = false).
Proof.
  assert (keyed_children_typed keyed_document) as H.
  { destruct (Load_loop_runs (length (initial_state keyed_input))
                (initial_state keyed_input)
                (initial_cursor_ok keyed_input) (initial_tree_ok keyed_input))
      as [st [E [Hrun _]]].
    - vm_compute. apply le_n.
    - vm_compute in E. injection E as <-.
      apply (proj1 (proj2 (proj2 HasKey_iff_operator_key)) keyed_input _
                   keyed_document Hrun).
      apply in_tree_here. }
  split; [exact H|].
  split; apply (proj1 HasKey_iff_operator_key); exact H.
Defined.

(** C9, as stated, fails: when [fread] hands over two of the five bytes
    of a file that opens, with the buffer allocated, [LoadFile] raises
    nothing; it parses the two bytes and returns the tree. *)
Lemma LoadFile_short_read_returns :
  fread (mkFile (cs "a" ++ [NL] ++ cs "b" ++ [NL] ++ cs "c") 2) 5
  = (2, cs "a" ++ [NL])
  /\ LoadFile short_read_world (cs "modegroup.yaml")
     = Returns (mkNode Type_Null None None [] None)
  /\ forall what, LoadFile short_read_world (cs "modegroup.yaml") <> Throws what.
Proof.
  split; [reflexivity|]. split; [vm_compute; reflexivity|].
  intros what. vm_compute. discriminate.
Qed.

(** C9, amended: [LoadFile] raises the I/O error exactly when the file
    cannot be opened, raises the allocation error exactly when the file
    opens and the buffer for its bytes cannot be allocated, and raises
    nothing else; otherwise, on a short read too, it returns what [Load]
    returns on the bytes that were read. *)
Theorem LoadFile_errors :
  forall (w : World) (filename : cstring),
    (LoadFile w filename = Throws (cs "Failed to open file")
     <-> fopen_rb w filename = None)
    /\ (LoadFile w filename = Throws (cs "Failed to allocate memory")
        <-> exists fp, fopen_rb w filename = Some fp
                       /\ malloc_ok w (List.length (bytes fp) + 1) = false)
    /\ (forall what, LoadFile w filename = Throws what ->
                     what = cs "Failed to open file"
                     \/ what = cs "Failed to allocate memory")
    /\ (forall fp, fopen_rb w filename = Some fp ->
                   malloc_ok w (List.length (bytes fp) + 1) = true ->
                   exists d,
                     Load (snd (fread fp (List.length (bytes fp))) ++ [NUL]) = Ok d
                     /\ LoadFile w filename = Returns d).
Proof.
  intros w filename. unfold LoadFile.
  destruct (fopen_rb w filename) as [fp|].
  - destruct (malloc_ok w (List.length (bytes fp) + 1)) eqn:Em; cbn [negb].
    + destruct (fread fp (List.length (bytes fp))) as [read content] eqn:Ef.
      assert (firstn read content = content) as Efirst.
      { unfold fread in Ef. injection Ef as <- <-.
        apply firstn_all2. rewrite length_firstn. lia. }
      rewrite Efirst.
      destruct (Load_runs (content ++ [NUL])) as [st [_ E]]. rewrite E.
      split; [split; discriminate|].
      split; [split; [discriminate|]|].
      { intros [fp' [Efp Hm]]. injection Efp as <-. congruence. }
      split; [discriminate|].
      intros fp' Efp _. injection Efp as <-. rewrite Ef. cbn [snd]. eauto.
    + split; [split; discriminate|].
      split; [split; eauto|].
      split; [intros what E; injection E as <-; now right|].
      intros fp' Efp Hm. injection Efp as <-. congruence.
  - split; [split; reflexivity|].
    split; [split; [discriminate|intros [fp [E _]]; discriminate]|].
    split; [intros what E; injection E as <-; now left|].
    discriminate.
Qed.

Lemma LoadFile_errors_witness :
  exists d,
    Load (snd (fread (mkFile (cs "a" ++ [NL] ++ cs "b" ++ [NL] ++ cs "c") 2) 5)
            ++ [NUL]) = Ok d
    /\ LoadFile short_read_world (cs "modegroup.yaml") = Returns d.
Proof.
  apply (proj2 (proj2 (proj2
           (LoadFile_errors short_read_world (cs "modegroup.yaml"))))
           (mkFile (cs "a" ++ [NL] ++ cs "b" ++ [NL] ++ cs "c") 2));
    reflexivity.
Defined.

(** C10: after any scalar assignment the node should be a Scalar holding
    the value assigned.  The code does otherwise for an assignment from a
    string that is stored in the node itself: [operator=] calls [Clear()],
    which frees the text and the tag of the node, before it duplicates its
    argument.  So [n = n.as_string()], on a node that has a text, and an
    assignment from any pointer into that text or into the tag, read freed
    memory. *)
Theorem assign_str_reads_freed_text :
  forall (n : Node) (s : cstring),
    scalar_value_ n = Some s ->
    as_string n = s
    /\ as_string_pointer n = own_text 0
    /\ assign_str n (as_string_pointer n) = Fault UseAfterFree
    /\ (forall offset, assign_str n (own_text offset) = Fault UseAfterFree)
    /\ (forall offset, tag_ n <> None ->
                       assign_str n (own_tag offset) = Fault UseAfterFree).
Proof.
  intros n s Hs. unfold as_string, as_string_pointer, assign_str. rewrite Hs.
  repeat (split; [reflexivity|]).
  intros offset Ht. destruct (tag_ n); [reflexivity|congruence].
Qed.

Lemma assign_str_reads_freed_text_witness :
  as_string (assign_int (Node_new None) 5) = cs "5"
  /\ as_string_pointer (assign_int (Node_new None) 5) = own_text 0
  /\ assign_str (assign_int (Node_new None) 5)
                (as_string_pointer (assign_int (Node_new None) 5))
     = Fault UseAfterFree.
Proof.
  destruct (assign_str_reads_freed_text (assign_int (Node_new None) 5) (cs "5")
              eq_refl) as [H1 [H2 [H3 _]]].
  split; [exact H1|]. split; [exact H2|exact H3].
Defined.

(** X27: assignment of a scalar round-trips through the accessors and
    replaces the node: after [n = v] for an [int] [v], [n.as_int()] is [v];
    after [n = b] for a [bool] [b], [n.as_bool()] is [b]; after [n = s]
    for a string [s] stored outside the node, [n.as_string()] is [s], up to
    its terminator.  After each of them the node is of kind Scalar, with a
    text, no children, no tag and no key, and nothing of the old node is
    left: the result is the same for every node assigned to. *)
Theorem assign_round_trip :
  forall (n : Node),
    (forall v : Z, (INT_MIN <= v <= INT_MAX)%Z -> as_int (assign_int n v) = v)
    /\ (forall b : bool, as_bool (assign_bool n b) = b)
    /\ (forall s : cstring,
           exists m, assign_str n (outside s) = Ok m /\ as_string m = c_str s)
    /\ (forall (v : Z) (b : bool) (s : cstring) (m : Node),
           m = assign_int n v \/ m = assign_bool n b
           \/ assign_str n (outside s) = Ok m ->
           IsScalar m = true /\ scalar_value_ m <> None
           /\ children m = [] /\ tag_ m = None /\ map_key_ m = None)
    /\ (forall (v : Z) (b : bool) (s : cstring) (n' : Node),
           assign_int n v = assign_int n' v
           /\ assign_bool n b = assign_bool n' b
           /\ assign_str n (outside s) = assign_str n' (outside s)).
Proof.
  intros n. split; [|split; [|split; [|split]]].
  - intros v Hv. unfold as_int, assign_int. cbn [scalar_value_ set_scalar_value].
    now apply atoi_snprintf_d.
  - intros []; reflexivity.
  - intros s. eexists. split; [reflexivity|]. reflexivity.
  - intros v b s m [->|[->|E]]; [repeat split; discriminate ..|].
    cbn [assign_str] in E. injection E as <-. repeat split; discriminate.
  - intros v b s n'. repeat split.
Qed.

Lemma assign_round_trip_witness :
  as_int (assign_int mixed_node (-2147483648)) = (-2147483648)%Z
  /\ as_int (assign_int mixed_node 2024) = 2024%Z
  /\ children (assign_int mixed_node 2024) = [].
Proof.
  split; [|split].
  - apply (proj1 (assign_round_trip mixed_node)). unfold INT_MIN, INT_MAX. lia.
  - apply (proj1 (assign_round_trip mixed_node)). unfold INT_MIN, INT_MAX. lia.
  - apply (proj1 (proj2 (proj2 (proj2 (assign_round_trip mixed_node))))
             2024%Z true [] _ (or_introl eq_refl)).
Defined.

(** * More of the code *)

(** ** [ProcessLine], as [Load] calls it *)

Lemma update_inv (st st' : ParseState) (q : ptr) (f : Node -> Node) :
  update st q f = Ok st' ->
  exists r, modify (root st) q f = Some r /\ st' = set_root st r.
Proof.
  unfold update. destruct (modify (root st) q f) as [r|]; [|discriminate].
  intros H. injection H as <-. eauto.
Qed.

(** The body of [ProcessLine] after its popping loop, from a state [Load]
    can be in: a line with a colon always opens a mapping. *)
Lemma ProcessLine_unfold (st : ParseState) (line : cstring) :
  tree_ok st ->
  exists st1 cur,
    pop_loop (Z.to_nat (indent_top st)) st 0 = Ok st1
    /\ indent_top st1 = 0%Z
    /\ indent_stack st1 = indent_stack st
    /\ root st1 = root st
    /\ lookup (root st1) (current st1) = Some cur
    /\ ProcessLine st line 0 =
       if line_has_colon line then
         st2 <- update st1 (current st1)
                  (fun this => AddChild this (map_node (line_key line))) ;;
         st3 <- update st2 (current st2 ++ [ChildStep (List.length (children cur))])
                  (fun n => SetMapKey n (Some (scalar_node (line_key line)))) ;;
         st4 <- stack_write (set_indent_top st3 1) 1 0 ;;
         Ok (set_current st4
               (current st2 ++ [ChildStep (List.length (children cur))]))
       else
         update st1 (current st1) (fun this => AddChild this (line_node line)).
Proof.
  intros Hok. pose proof Hok as [Hlen [H0 _]].
  destruct (pop_loop_zero st Hok) as [st1 [Hpop [Htop [Hstk [Hroot [cur Hcur]]]]]].
  exists st1, cur. repeat (split; [assumption|]).
  unfold ProcessLine. rewrite Hpop. cbn [bind].
  unfold line_node, line_value_start, line_has_colon, line_key.
  set (p := scan_key line).
  set (value_start := if Ascii.eqb (star p) ":" then skip_value_space (tl p) else p).
  set (key_buffer := firstn _ line).
  assert ((if Ascii.eqb (star p) ":"
           then if Ascii.eqb (star value_start) NUL || Ascii.eqb (star value_start) "#"
                then Ok true
                else if (0 <=? indent_top st1)%Z
                     then top <- stack_read st1 (indent_top st1) ;; Ok (top <? 0)%Z
                     else Ok false
           else Ok false) = Ok (Ascii.eqb (star p) ":")) as Hopens.
  { destruct (Ascii.eqb (star p) ":"); [|reflexivity].
    destruct (_ || _); [reflexivity|].
    rewrite Htop. cbn [Z.leb Z.compare]. unfold stack_read.
    cbn [Z.ltb Z.compare]. change (Z.to_nat 0) with 0.
    rewrite Hstk, H0. reflexivity. }
  rewrite Hopens. cbn [bind].
  destruct (Ascii.eqb (star p) ":").
  - unfold deref. rewrite Hcur. cbn [bind].
    destruct (update st1 (current st1) _) as [st2|e] eqn:E2; [|reflexivity].
    cbn [bind]. pose proof E2 as E2'. apply update_inv in E2' as [r2 [_ ->]].
    destruct (update (set_root st1 r2) _ _) as [st3|e] eqn:E3; [|reflexivity].
    cbn [bind]. apply update_inv in E3 as [r3 [_ ->]].
    cbn [indent_top set_root set_indent_top]. rewrite Htop.
    reflexivity.
  - destruct (Ascii.eqb (star value_start) "-" && Ascii.eqb (star (tl value_start)) " ");
      reflexivity.
Qed.

Lemma pop_body_path (st st' : ParseState) (cur : Node) :
  lookup (root st) (current st) = Some cur ->
  pop_body st = Ok st' ->
  exists ext,
    current st' = current st ++ ext
    /\ (map_key_ cur <> None -> exists e, ext = KeyStep :: e).
Proof.
  intros Hcur. unfold pop_body, deref.
  cbn [root current indent_top set_indent_top set_current].
  rewrite Hcur. cbn [bind].
  destruct (map_key_ cur) as [k|] eqn:Ek.
  - destruct (lookup (root st) (current st ++ [KeyStep])) as [parent|];
      [|discriminate].
    cbn [bind]. intros H. injection H as <-.
    destruct (children parent) as [|c0 l0].
    + exists [KeyStep]. split; [reflexivity|eauto].
    + destruct (nth_error (c0 :: l0) _) as [last|].
      * destruct (map_key_ last).
        -- eexists. cbn [current set_current]. rewrite <- app_assoc.
           split; [reflexivity|]. cbn [app]. eauto.
        -- exists [KeyStep]. split; [reflexivity|eauto].
      * exists [KeyStep]. split; [reflexivity|eauto].
  - rewrite Hcur. cbn [bind]. intros H. injection H as <-.
    destruct (children cur) as [|c0 l0].
    + exists []. rewrite app_nil_r. split; [reflexivity|congruence].
    + destruct (nth_error (c0 :: l0) _) as [last|].
      * destruct (map_key_ last).
        -- eexists. split; [reflexivity|congruence].
        -- exists []. rewrite app_nil_r. split; [reflexivity|congruence].
      * exists []. rewrite app_nil_r. split; [reflexivity|congruence].
Qed.

Lemma pop_loop_path (st st1 : ParseState) :
  tree_ok st ->
  pop_loop (Z.to_nat (indent_top st)) st 0 = Ok st1 ->
  exists ext,
    current st1 = current st ++ ext
    /\ (indent_top st = 0%Z -> ext = [])
    /\ (indent_top st = 1%Z ->
        forall cur, lookup (root st) (current st) = Some cur ->
                    map_key_ cur <> None -> exists e, ext = KeyStep :: e).
Proof.
  intros [Hlen [H0 [[Htop|[Htop H1]] [cur Hcur]]]].
  - rewrite Htop. cbn [Z.to_nat pop_loop]. rewrite Htop. simpl.
    intros H. injection H as <-. exists []. rewrite app_nil_r.
    split; [reflexivity|]. split; [reflexivity|]. intros; discriminate.
  - rewrite Htop. change (Z.to_nat 1) with 1.
    cbn [pop_loop]. rewrite Htop. cbn [Z.ltb Z.compare].
    unfold stack_read. cbn [Z.ltb Z.compare]. change (Z.to_nat 1) with 1.
    rewrite H1. cbn [bind Z.leb Z.compare].
    destruct (pop_body_ok st cur Hcur) as [st' [Hb [Ht [Hs [Hroot Hc]]]]].
    rewrite Hb. cbn [bind].
    assert (indent_top st' = 0%Z) as Hz by (rewrite Ht, Htop; reflexivity).
    rewrite Hz. cbn [Z.ltb Z.compare]. intros H. injection H as <-.
    destruct (pop_body_path st st' cur Hcur Hb) as [ext [Hext Hkey]].
    exists ext. split; [exact Hext|]. split; [discriminate|].
    intros _ cur' Hcur' Hk. rewrite Hcur in Hcur'. injection Hcur' as <-. auto.
Qed.

Lemma replace_nth_snoc {A : Type} (l : list A) (x y : A) :
  replace_nth (List.length l) y (l ++ [x]) = l ++ [y].
Proof. induction l as [|h t IH]; simpl; [reflexivity|]. now rewrite IH. Qed.

Lemma stack_write_root (st st' : ParseState) (i v : Z) :
  stack_write st i v = Ok st' ->
  root st' = root st /\ current st' = current st /\ indent_top st' = indent_top st.
Proof.
  unfold stack_write. destruct (i <? 0)%Z; [discriminate|].
  destruct (_ <? _); [|discriminate]. intros H. injection H as <-. auto.
Qed.

(** At the root, [ProcessLine] appends the node of the line to the root;
    a line with a colon moves [current] to that node. *)
Lemma ProcessLine_at_root (st : ParseState) (line : cstring) :
  tree_ok st -> at_root st ->
  exists st',
    ProcessLine st line 0 = Ok st'
    /\ root st' = AddChild (root st) (line_node line)
    /\ (if line_has_colon line then under_key st' else at_root st').
Proof.
  intros Hok [Hcur Htop].
  destruct (ProcessLine_unfold st line Hok)
    as [st1 [cur [Hpop [Htop1 [Hstk [Hroot [Hl E]]]]]]].
  destruct (pop_loop_path st st1 Hok Hpop) as [ext [Hext [Hnil _]]].
  rewrite (Hnil Htop), app_nil_r, Hcur in Hext.
  rewrite Hext in Hl, E. cbn [lookup] in Hl. injection Hl as <-.
  destruct (ProcessLine_ok st line Hok) as [st' [E' [Hok' _]]].
  exists st'. split; [exact E'|]. rewrite E' in E.
  destruct (line_has_colon line) eqn:Ecol.
  - unfold line_node. rewrite Ecol. unfold update at 1 in E. cbn [modify] in E. cbn [bind] in E.
    cbn [current set_root app] in E. rewrite Hext in E. cbn [app] in E.
    unfold update at 1 in E. cbn [modify root set_root AddChild children] in E.
    rewrite nth_error_snoc in E. cbn [modify option_map] in E.
    rewrite replace_nth_snoc in E. cbn [bind] in E.
    destruct (stack_write _ 1 0) as [st4|e] eqn:E4; [|discriminate].
    cbn [bind] in E. injection E as ->.
    apply stack_write_root in E4 as [Hr4 [Hc4 Ht4]].
    cbn [root set_current]. rewrite Hr4. cbn [root set_indent_top set_root].
    split.
    + rewrite Hroot. reflexivity.
    + exists (List.length (children (root st1))). left.
      cbn [current set_current indent_top root]. rewrite Ht4, Hr4.
      cbn [indent_top root set_indent_top set_root set_children children].
      split; [reflexivity|]. split; [reflexivity|].
      rewrite nth_error_snoc. eexists. eexists. split; reflexivity.
  - unfold update in E. cbn [modify] in E. injection E as ->.
    cbn [root set_root]. split; [now rewrite Hroot|].
    split; cbn [current indent_top set_root]; congruence.
Qed.

Lemma map_replace_nth_same {A B : Type} (f : A -> B) (l : list A) :
  forall (i : nat) (c c' : A),
    nth_error l i = Some c -> f c' = f c ->
    map f (replace_nth i c' l) = map f l.
Proof.
  induction l as [|h t IH]; intros [|i] c c' Hn Hf; simpl in *; try discriminate.
  - injection Hn as ->. now rewrite Hf.
  - f_equal. eapply IH; eauto.
Qed.

(** The copy constructor does not see what is below a key side-node. *)
Lemma modify_under_copy (n n' : Node) (i : nat) (q : ptr) (f : Node -> Node) :
  modify n (ChildStep i :: KeyStep :: q) f = Some n' ->
  Node_copy n' = Node_copy n.
Proof.
  cbn [modify].
  destruct (nth_error (children n) i) as [c|] eqn:Ec; [|discriminate].
  destruct (map_key_ c) as [k|]; [|discriminate].
  destruct (modify k q f) as [k'|]; [|discriminate].
  cbn [option_map]. intros H. injection H as <-.
  rewrite !Node_copy_eq. cbn [type_ tag_ scalar_value_ children set_children].
  f_equal. eapply map_replace_nth_same; [exact Ec|].
  now rewrite !Node_copy_eq.
Qed.

Lemma update_under_copy (st st' : ParseState) (i : nat) (q : ptr)
      (f : Node -> Node) :
  update st (ChildStep i :: KeyStep :: q) f = Ok st' ->
  Node_copy (root st') = Node_copy (root st)
  /\ current st' = current st /\ indent_top st' = indent_top st.
Proof.
  intros H. apply update_inv in H as [r [Hm ->]].
  split; [|now split]. cbn [root set_root]. eapply modify_under_copy; eauto.
Qed.

(** Once [current] is at or below a keyed child of the root it stays
    there, and nothing [ProcessLine] adds shows in a copy of the root. *)
Lemma ProcessLine_under_key (st : ParseState) (line : cstring) :
  tree_ok st -> under_key st ->
  exists st',
    ProcessLine st line 0 = Ok st'
    /\ under_key st'
    /\ Node_copy (root st') = Node_copy (root st).
Proof.
  intros Hok Hunder.
  destruct (ProcessLine_unfold st line Hok)
    as [st1 [cur [Hpop [Htop1 [Hstk [Hroot [Hl E]]]]]]].
  destruct (pop_loop_path st st1 Hok Hpop) as [ext [Hext [_ Hkey]]].
  assert (exists i q1, current st1 = ChildStep i :: KeyStep :: q1) as [i [q1 Hq1]].
  { destruct Hunder as [i [[Hc [Ht [c [k [Hn Hk]]]]]|[q Hc]]].
    - destruct (Hkey Ht c) as [e He].
      + rewrite Hc. cbn [lookup]. now rewrite Hn.
      + rewrite Hk. discriminate.
      + exists i, e. rewrite Hext, Hc, He. reflexivity.
    - exists i, (q ++ ext). rewrite Hext, Hc. reflexivity. }
  destruct (ProcessLine_ok st line Hok) as [st' [E' _]].
  exists st'. split; [exact E'|]. rewrite E' in E. rewrite Hq1 in E.
  destruct (line_has_colon line).
  - destruct (update st1 _ _) as [st2|] eqn:E2; [|discriminate].
    cbn [bind] in E.
    destruct (update_under_copy _ _ _ _ _ E2) as [Hr2 [Hc2 Ht2]].
    rewrite Hc2, Hq1 in E. cbn [app] in E.
    destruct (update st2 _ _) as [st3|] eqn:E3; [|discriminate].
    cbn [bind] in E.
    destruct (update_under_copy _ _ _ _ _ E3) as [Hr3 [Hc3 Ht3]].
    destruct (stack_write _ 1 0) as [st4|] eqn:E4; [|discriminate].
    cbn [bind] in E. injection E as ->.
    apply stack_write_root in E4 as [Hr4 [Hc4 Ht4]].
    split.
    + exists i. right. eexists. reflexivity.
    + cbn [root set_current]. rewrite Hr4. cbn [root set_indent_top].
      now rewrite Hr3, Hr2, Hroot.
  - destruct (update_under_copy _ _ _ _ _ (eq_sym E)) as [Hr [Hc Ht]].
    split.
    + exists i. right. exists q1. now rewrite Hc.
    + now rewrite Hr, Hroot.
Qed.

Lemma tree_of_fields (a b : ParseState) :
  tree_of a = tree_of b ->
  root a = root b /\ current a = current b /\ indent_top a = indent_top b.
Proof. unfold tree_of. intros H. injection H as _ -> -> -> _ _. auto. Qed.

Lemma at_root_tree_of (a b : ParseState) :
  tree_of a = tree_of b -> at_root b -> at_root a.
Proof.
  intros H [Hc Ht]. apply tree_of_fields in H as [_ [Hc' Ht']].
  split; congruence.
Qed.

Lemma under_key_tree_of (a b : ParseState) :
  tree_of a = tree_of b -> under_key b -> under_key a.
Proof.
  intros H. apply tree_of_fields in H as [Hr [Hc Ht]].
  intros [i Hi]. exists i. rewrite Hr, Hc, Ht. exact Hi.
Qed.

(** One turn of the loop, by where [current] is. *)
Lemma Load_body_under_key (st st' : ParseState) :
  cursor_ok st -> tree_ok st -> under_key st ->
  Load_body st = Ok st' ->
  under_key st' /\ Node_copy (root st') = Node_copy (root st).
Proof.
  intros Hc Hok Hu E.
  destruct (Load_body_spec st Hc Hok) as [st1 [E1 [_ [_ [_ [_ [_ Ht]]]]]]].
  rewrite E in E1. injection E1 as <-.
  destruct (skipped _ _).
  - split; [eapply under_key_tree_of; eauto|].
    apply tree_of_fields in Ht as [-> _]. reflexivity.
  - destruct Ht as [stp [Ep Ht]].
    destruct (ProcessLine_under_key st (fst (scan (rem st))) Hok Hu)
      as [stp' [Ep' [Hu' Hcopy]]].
    rewrite Ep in Ep'. injection Ep' as <-.
    split; [eapply under_key_tree_of; eauto|].
    apply tree_of_fields in Ht as [-> _]. exact Hcopy.
Qed.

Lemma Load_body_at_root (st st' : ParseState) :
  cursor_ok st -> tree_ok st -> at_root st ->
  Load_body st = Ok st' ->
  if skipped (fst (scan (rem st))) (snd (scan (rem st)))
  then root st' = root st /\ at_root st'
  else root st' = AddChild (root st) (line_node (fst (scan (rem st))))
       /\ (if line_has_colon (fst (scan (rem st)))
           then under_key st' else at_root st').
Proof.
  intros Hc Hok Ha E.
  destruct (Load_body_spec st Hc Hok) as [st1 [E1 [_ [_ [_ [_ [_ Ht]]]]]]].
  rewrite E in E1. injection E1 as <-.
  destruct (skipped _ _).
  - split; [now apply tree_of_fields in Ht|eapply at_root_tree_of; eauto].
  - destruct Ht as [stp [Ep Ht]].
    destruct (ProcessLine_at_root st (fst (scan (rem st))) Hok Ha)
      as [stp' [Ep' [Hr Hp]]].
    rewrite Ep in Ep'. injection Ep' as <-.
    split; [apply tree_of_fields in Ht as [-> _]; exact Hr|].
    destruct (line_has_colon _);
      [eapply under_key_tree_of|eapply at_root_tree_of]; eauto.
Qed.

(** ** The tree [Load] returns, from the lines of the input *)

Lemma runs_under_key (st st' : ParseState) :
  runs st st' ->
  cursor_ok st -> tree_ok st -> under_key st ->
  Node_copy (root st') = Node_copy (root st).
Proof.
  induction 1 as [st Hge|st st1 st' Hlt E _ IH]; intros Hc Hok Hu; [reflexivity|].
  destruct (Load_body_spec st Hc Hok) as [st1' [E1 [Hc1 [Hok1 _]]]].
  rewrite E in E1. injection E1 as <-.
  destruct (Load_body_under_key st st1 Hc Hok Hu E) as [Hu1 Hcopy].
  rewrite IH by assumption. exact Hcopy.
Qed.

Lemma scan_key_head (l : cstring) :
  star (scan_key l) = NUL \/ star (scan_key l) = ":"%char
  \/ isspace (star (scan_key l)) = true.
Proof.
  induction l as [|c l IH]; cbn [scan_key]; [now left|].
  destruct (Ascii.eqb_spec c NUL) as [->|Hn]; [now left|].
  destruct (Ascii.eqb_spec c ":") as [->|Hc]; [right; now left|].
  destruct (isspace c) eqn:Es; [right; right; exact Es|].
  exact IH.
Qed.

Lemma Node_copy_line_node (l : cstring) : Node_copy (line_node l) = line_leaf l.
Proof.
  unfold line_node, line_leaf, line_value_start.
  destruct (line_has_colon l) eqn:Ecol.
  - rewrite Node_copy_eq. cbn. unfold strdup. now rewrite c_str_idem.
  - assert (Ascii.eqb (star (scan_key l)) "-" = false) as Hd.
    { unfold line_has_colon in Ecol.
      destruct (scan_key_head l) as [H|[H|H]].
      - now rewrite H.
      - rewrite H in Ecol. discriminate.
      - destruct (Ascii.eqb_spec (star (scan_key l)) "-") as [E|]; [|reflexivity].
        rewrite E in H. discriminate. }
    rewrite Hd. cbn [andb]. rewrite Node_copy_eq. cbn.
    unfold strdup. now rewrite c_str_idem.
Qed.

Lemma Node_copy_AddChild (n x : Node) :
  Node_copy (AddChild n x) = AddChild (Node_copy n) (Node_copy x).
Proof.
  rewrite (Node_copy_eq (AddChild n x)), (Node_copy_eq n).
  unfold AddChild. cbn. now rewrite map_app.
Qed.

Lemma lines_of_nil (fuel : nat) : lines_of fuel [] = [].
Proof. now destruct fuel. Qed.

Lemma runs_at_root (st st' : ParseState) :
  runs st st' ->
  cursor_ok st -> tree_ok st -> at_root st ->
  forall fuel,
    List.length (rem st) <= fuel ->
    Node_copy (root st')
    = set_children (Node_copy (root st))
        (children (Node_copy (root st)) ++ visible (lines_of fuel (rem st))).
Proof.
  induction 1 as [st Hge|st st1 st' Hlt E Hrun IH]; intros Hc Hok Ha fuel Hf.
  - rewrite (rem_nil st Hc Hge), lines_of_nil. cbn [visible].
    rewrite app_nil_r. now destruct (Node_copy (root st)).
  - destruct (Load_body_spec st Hc Hok) as [st1' [E1 [Hc1 [Hok1 [_ [_ [Hr1 _]]]]]]].
    rewrite E in E1. injection E1 as <-.
    assert (rem st <> []) as Hne by (now apply rem_position).
    pose proof (scan_shrinks _ Hne) as Hs. rewrite <- Hr1 in Hs.
    pose proof (Load_body_at_root st st1 Hc Hok Ha E) as Hb.
    destruct fuel as [|fuel]; [lia|].
    destruct (rem st) as [|c0 r0] eqn:Er; [congruence|].
    cbn [lines_of].
    destruct (skipped _ _).
    + destruct Hb as [Hroot Ha1].
      rewrite (IH Hc1 Hok1 Ha1 fuel) by lia. now rewrite Hroot, Hr1.
    + destruct Hb as [Hroot Hnext]. cbn [visible].
      destruct (line_has_colon _).
      * rewrite (runs_under_key st1 st' Hrun Hc1 Hok1 Hnext).
        rewrite Hroot, Node_copy_AddChild, Node_copy_line_node.
        reflexivity.
      * rewrite (IH Hc1 Hok1 Hnext fuel) by lia.
        rewrite Hroot, Node_copy_AddChild, Node_copy_line_node, Hr1.
        unfold AddChild, set_children. cbn. now rewrite <- app_assoc.
Qed.

Lemma lines_of_fuel (f1 : nat) : forall f2 r,
  List.length r <= f1 -> List.length r <= f2 -> lines_of f1 r = lines_of f2 r.
Proof.
  induction f1 as [|f1 IH]; intros f2 r H1 H2.
  - destruct r; [now rewrite !lines_of_nil|simpl in H1; lia].
  - destruct r as [|c r]; [now rewrite !lines_of_nil|].
    destruct f2 as [|f2]; [simpl in H2; lia|].
    pose proof (scan_shrinks (c :: r) ltac:(discriminate)) as Hs.
    cbn [lines_of].
    rewrite (IH f2 (snd (scan (c :: r)))) by lia.
    reflexivity.
Qed.

Lemma skipped_nonempty (buf a b : cstring) :
  (a = [] <-> b = []) -> skipped buf a = skipped buf b.
Proof.
  intros H. unfold skipped. destruct a, b; try reflexivity.
  - destruct H as [H _]. specialize (H eq_refl). discriminate.
  - destruct H as [_ H]. specialize (H eq_refl). discriminate.
Qed.

(** The lines of two texts with the same beginning, up to a newline, and
    continuations that give the same lines once their white space is
    skipped. *)
Lemma lines_of_prefix (X1 X2 : cstring) :
  (skip_ws X1 = [] <-> skip_ws X2 = []) ->
  (forall f1 f2,
      List.length (skip_ws X1) <= f1 -> List.length (skip_ws X2) <= f2 ->
      lines_of f1 (skip_ws X1) = lines_of f2 (skip_ws X2)) ->
  forall n p f1 f2,
    List.length p <= n ->
    List.length (p ++ NL :: X1) <= f1 ->
    List.length (p ++ NL :: X2) <= f2 ->
    lines_of f1 (p ++ NL :: X1) = lines_of f2 (p ++ NL :: X2).
Proof.
  intros Hemp Hcont.
  induction n as [|n IH]; intros p f1 f2 Hn H1 H2.
  - destruct p; [|simpl in Hn; lia]. clear Hn.
    destruct f1 as [|f1]; [simpl in H1; lia|].
    destruct f2 as [|f2]; [simpl in H2; lia|].
    pose proof (scan_shrinks (NL :: X1) ltac:(discriminate)) as Hs1.
    pose proof (scan_shrinks (NL :: X2) ltac:(discriminate)) as Hs2.
    cbn [app] in *. cbn [lines_of].
    assert (forall X, scan (NL :: X) = ([], skip_ws X)) as Hscan.
    { intros X. unfold scan. change 4095 with (S 4094). now rewrite read_line_S. }
    rewrite !Hscan in *. cbn [fst snd] in *.
    rewrite (skipped_nonempty [] _ _ Hemp).
    rewrite (Hcont f1 f2) by (simpl in *; lia).
    reflexivity.
  - destruct f1 as [|f1]; [rewrite length_app in H1; simpl in H1; lia|].
    destruct f2 as [|f2]; [rewrite length_app in H2; simpl in H2; lia|].
    assert (forall X, p ++ NL :: X <> []) as Hne by (intros X; now destruct p).
    pose proof (scan_shrinks _ (Hne X1)) as Hs1.
    pose proof (scan_shrinks _ (Hne X2)) as Hs2.
    assert (forall f X, lines_of (S f) (p ++ NL :: X)
                        = if skipped (fst (scan (p ++ NL :: X))) (snd (scan (p ++ NL :: X)))
                          then lines_of f (snd (scan (p ++ NL :: X)))
                          else fst (scan (p ++ NL :: X))
                                   :: lines_of f (snd (scan (p ++ NL :: X)))) as Hstep.
    { intros f X. specialize (Hne X). destruct (p ++ NL :: X); [congruence|reflexivity]. }
    rewrite !Hstep.
    destruct (scan_prefix p) as [buf [[q Hq]|Hq]].
    + rewrite !Hq in *. cbn [fst snd] in *.
      rewrite !length_app in *. cbn [List.length] in *.
      rewrite (skipped_nonempty buf (q ++ NL :: X1) (q ++ NL :: X2))
        by (split; intros H; now destruct q).
      rewrite (IH q f1 f2) by (rewrite ?length_app; cbn [List.length]; lia).
      reflexivity.
    + rewrite !Hq in *. cbn [fst snd] in *.
      rewrite (skipped_nonempty buf _ _ Hemp).
      rewrite (Hcont f1 f2) by lia.
      reflexivity.
Qed.

(** The tree [Load] returns is the root with the leaves of the lines
    handed to [ProcessLine], up to the first line with a colon. *)
Lemma Load_lines (content : cstring) :
  Load content
  = Ok (mkNode Type_Null None None
               (visible (lines_of (strlen content) (c_str content))) None).
Proof.
  destruct (Load_runs content) as [st [Hrun E]]. rewrite E. f_equal.
  rewrite (runs_at_root _ _ Hrun (initial_cursor_ok content)
             (initial_tree_ok content) (conj eq_refl eq_refl) (strlen content)).
  - rewrite initial_rem. reflexivity.
  - rewrite initial_rem. unfold strlen. lia.
Qed.

Lemma TrimTrailingWhitespace_loop_le (len : nat) (str : cstring) :
  TrimTrailingWhitespace_loop len str <= len.
Proof.
  induction len as [|len IH]; simpl; [lia|].
  destruct (isspace (char_at str len)); lia.
Qed.

Lemma value_of_length (v : cstring) : List.length (value_of v) <= 1023.
Proof.
  unfold value_of, TrimTrailingWhitespace.
  rewrite length_firstn, length_firstn. lia.
Qed.

Lemma line_key_length (l : cstring) : List.length (line_key l) <= 1023.
Proof.
  unfold line_key. rewrite length_firstn.
  destruct (1024 <=? List.length l - List.length (scan_key l)) eqn:E.
  - lia.
  - apply Nat.leb_gt in E. lia.
Qed.

Lemma line_leaf_shape (l : cstring) :
  children (line_leaf l) = [] /\ map_key_ (line_leaf l) = None
  /\ tag_ (line_leaf l) = None
  /\ type_ (line_leaf l)
     = (if line_has_colon l then Type_Map else Type_Scalar)
  /\ exists s, scalar_value_ (line_leaf l) = Some s /\ List.length s <= 1023.
Proof.
  unfold line_leaf. destruct (line_has_colon l);
    cbn [children map_key_ tag_ type_ scalar_value_];
    (repeat split; eexists; split; [reflexivity|]).
  - pose proof (c_str_length (line_key l)). pose proof (line_key_length l). lia.
  - pose proof (c_str_length (value_of (scan_key l))).
    pose proof (value_of_length (scan_key l)). lia.
Qed.

Lemma visible_shape (ls : list cstring) :
  forall i c,
    nth_error (visible ls) i = Some c ->
    (exists l, c = line_leaf l
               /\ (S i < List.length (visible ls) -> line_has_colon l = false)).
Proof.
  induction ls as [|l ls IH]; intros i c H; [now destruct i|].
  cbn [visible] in *. destruct i as [|i]; cbn [nth_error] in H.
  - injection H as <-. exists l. split; [reflexivity|].
    destruct (line_has_colon l); [simpl; lia|reflexivity].
  - destruct (line_has_colon l); [now destruct i|].
    destruct (IH i c H) as [l' [-> Hl']]. exists l'. split; [reflexivity|].
    intros Hlt. apply Hl'. simpl in Hlt. lia.
Qed.

(** X2: whatever the input, the tree [Load] returns is flat: a root of
    kind Null without tag, text or key, whose children are leaves without
    key or tag, each with a text of at most 1023 bytes, all of kind Scalar
    except the last, which can be of kind Map. *)
Theorem Load_returns_flat_tree :
  forall content : cstring,
  exists d : Node,
    Load content = Ok d
    /\ type_ d = Type_Null /\ tag_ d = None /\ scalar_value_ d = None
    /\ map_key_ d = None
    /\ (forall c, In c (children d) ->
                  children c = [] /\ map_key_ c = None /\ tag_ c = None
                  /\ (type_ c = Type_Scalar \/ type_ c = Type_Map)
                  /\ exists s, scalar_value_ c = Some s
                               /\ List.length s <= 1023)
    /\ (forall i c, nth_error (children d) i = Some c ->
                    S i < List.length (children d) ->
                    type_ c = Type_Scalar).
Proof.
  intros content. eexists. split; [apply Load_lines|].
  cbn [type_ tag_ scalar_value_ map_key_ children].
  repeat (split; [reflexivity|]). split.
  - intros c Hc. apply In_nth_error in Hc as [i Hi].
    destruct (visible_shape _ i c Hi) as [l [-> _]].
    destruct (line_leaf_shape l) as [H1 [H2 [H3 [H4 H5]]]].
    repeat (split; [assumption|]). split; [|exact H5].
    rewrite H4. destruct (line_has_colon l); auto.
  - intros i c Hi Hlt.
    destruct (visible_shape _ i c Hi) as [l [-> Hl]].
    destruct (line_leaf_shape l) as [_ [_ [_ [H4 _]]]].
    now rewrite H4, (Hl Hlt).
Qed.

(** X1: the tree [Load] returns for an input: the root with one leaf for
    each line the loop hands to [ProcessLine], up to the first of them that
    has a colon before any white space; what comes after that line does not
    show.  A line with such a colon gives a leaf of kind Map whose text is
    the key; another line gives a leaf of kind Scalar whose text is the rest
    of the line from its first white space, cut to 1023 bytes and trimmed at
    the end. *)
Theorem Load_tree_of_lines :
  forall content : cstring,
    Load content
    = Ok (mkNode Type_Null None None
                 (visible (lines_of (strlen content) (c_str content))) None).
Proof.
  intros content.
  destruct (Load_runs content) as [st [Hrun E]]. rewrite E. f_equal.
  rewrite (runs_at_root _ _ Hrun (initial_cursor_ok content)
             (initial_tree_ok content) (conj eq_refl eq_refl) (strlen content)).
  - rewrite initial_rem. reflexivity.
  - rewrite initial_rem. unfold strlen. lia.
Qed.

(** ** Lines, indentation and the last line *)

Lemma skip_ws_all (r : cstring) :
  Forall (fun x => isspace x = true) r -> skip_ws r = [].
Proof. induction 1 as [|c r Hc _ IH]; simpl; [reflexivity|]. now rewrite Hc. Qed.


Lemma read_line_rest_suffix (room : nat) : forall r,
  exists b, r = b ++ snd (read_line room r).
Proof.
  induction room as [|room IH]; intros r.
  - exists []. now destruct r.
  - destruct r as [|c r]; [now exists []|].
    rewrite read_line_S. destruct (Ascii.eqb c NL); [now exists []|].
    destruct (IH r) as [b Hb]. exists (c :: b). cbn [snd app]. now f_equal.
Qed.

Lemma read_line_through (l : cstring) : forall room ws,
  Forall (fun x => x <> NL) l -> List.length l <= room ->
  snd (read_line room (l ++ ws)) = snd (read_line (room - List.length l) ws).
Proof.
  induction l as [|c l IH]; intros room ws Hl Hroom.
  - now rewrite Nat.sub_0_r.
  - destruct room as [|room]; [simpl in Hroom; lia|].
    inversion Hl as [|? ? Hc Hl']; subst. apply Ascii.eqb_neq in Hc.
    cbn [app]. rewrite read_line_S, Hc. cbn [snd].
    rewrite IH by (simpl in Hroom; auto; lia). reflexivity.
Qed.

(** A last line followed by white space only leaves nothing to read. *)
Lemma scan_final (l ws : cstring) :
  Forall (fun x => x <> NL) l -> List.length l <= 4095 ->
  Forall (fun x => isspace x = true) ws ->
  snd (scan (l ++ ws)) = [].
Proof.
  intros Hl Hlen Hws. rewrite scan_snd, read_line_through by assumption.
  destruct (read_line_rest_suffix (4095 - List.length l) ws) as [b Hb].
  set (rest := snd (read_line (4095 - List.length l) ws)) in *.
  assert (Forall (fun x => isspace x = true) rest) as Hrest.
  { rewrite Hb in Hws. apply Forall_app in Hws. tauto. }
  apply skip_ws_all. destruct rest as [|c rest']; [constructor|].
  cbn [drop_nl]. destruct (Ascii.eqb c NL); [|exact Hrest].
  now inversion Hrest.
Qed.

Lemma lines_of_final (fuel : nat) (l ws : cstring) :
  Forall (fun x => x <> NL) l -> List.length l <= 4095 ->
  Forall (fun x => isspace x = true) ws ->
  lines_of fuel (l ++ ws) = [].
Proof.
  intros Hl Hlen Hws. destruct fuel as [|fuel]; [reflexivity|].
  pose proof (scan_final l ws Hl Hlen Hws) as Hs.
  destruct (l ++ ws) as [|c r]; [reflexivity|].
  cbn [lines_of]. rewrite Hs. unfold skipped. cbn [orb].
  apply lines_of_nil.
Qed.

Lemma Forall_not_nl (l : cstring) :
  Forall (fun x => x <> NL /\ x <> NUL) l -> Forall (fun x => x <> NL) l.
Proof. intros H. eapply Forall_impl; [|exact H]. now intros a [? _]. Qed.

Lemma Forall_not_nul (l : cstring) :
  Forall (fun x => x <> NL /\ x <> NUL) l -> nul_free l.
Proof. intros H. eapply Forall_impl; [|exact H]. now intros a [_ ?]. Qed.

Lemma space_nul_free (ws : cstring) :
  Forall (fun x => isspace x = true) ws -> nul_free ws.
Proof. intros H. eapply Forall_impl; [|exact H]. intros a. apply isspace_not_nul. Qed.

Lemma Load_same_lines (a b : cstring) :
  lines_of (strlen a) (c_str a) = lines_of (strlen b) (c_str b) ->
  Load a = Load b.
Proof. intros H. now rewrite !Load_lines, H. Qed.

(** X3: white space at the beginning of a line after the first, and blank
    lines after the first line, change nothing: [Load] returns the same
    tree with them and without them.  Indentation does not reach
    [ProcessLine]. *)
Theorem Load_ignores_indentation :
  forall before ws after : cstring,
    nul_free before ->
    Forall (fun x => isspace x = true) ws ->
    Load (before ++ NL :: ws ++ after) = Load (before ++ NL :: after).
Proof.
  intros before ws after Hb Hws.
  apply Load_same_lines. unfold strlen.
  assert (forall X, c_str (before ++ NL :: X) = before ++ NL :: c_str X) as Hc.
  { intros X. rewrite c_str_app by exact Hb. reflexivity. }
  rewrite !Hc, (c_str_app ws after (space_nul_free ws Hws)).
  apply (lines_of_prefix (ws ++ c_str after) (c_str after)) with (n := List.length before).
  - now rewrite skip_ws_space_app.
  - intros f1 f2 H1 H2. rewrite skip_ws_space_app in * by exact Hws.
    now apply lines_of_fuel.
  - lia.
  - lia.
  - lia.
Qed.

Lemma Load_ignores_indentation_witness :
  Load (cs "a" ++ NL :: [SP; SP; TAB; NL; SP] ++ cs "b" ++ [NL] ++ cs "c")
  = Load (cs "a" ++ NL :: cs "b" ++ [NL] ++ cs "c").
Proof.
  apply (Load_ignores_indentation (cs "a") [SP; SP; TAB; NL; SP]
           (cs "b" ++ [NL] ++ cs "c")).
  - repeat constructor; discriminate.
  - repeat constructor.
Defined.







(** X6: an input of one line gives the empty tree.  When the input has no
    newline before its last byte that is not white space, and this line
    has at most 4095 bytes, [Load] returns the root of kind Null without
    children; so for the empty input and for white space. *)
Theorem Load_single_line :
  forall l ws : cstring,
    Forall (fun x => x <> NL /\ x <> NUL) l -> List.length l <= 4095 ->
    Forall (fun x => isspace x = true) ws ->
    Load (l ++ ws) = Ok (mkNode Type_Null None None [] None).
Proof.
  intros l ws Hl Hlen Hws. rewrite Load_lines.
  rewrite c_str_id.
  - rewrite lines_of_final; auto using Forall_not_nl.
  - apply Forall_app. split; [now apply Forall_not_nul|now apply space_nul_free].
Qed.

Lemma Load_single_line_witness :
  Load (cs "key: value" ++ [SP; NL; NL]) = Ok (mkNode Type_Null None None [] None).
Proof.
  apply (Load_single_line (cs "key: value") [SP; NL; NL]).
  - repeat constructor; discriminate.
  - simpl. lia.
  - repeat constructor.
Defined.

Lemma runs_cursor_ok (st st' : ParseState) :
  runs st st' -> cursor_ok st -> tree_ok st ->
  cursor_ok st' /\ tree_ok st'
  /\ length st' = length st /\ length st' <= position st'.
Proof.
  induction 1 as [st Hge|st st1 st' Hlt E _ IH]; intros Hc Hok; [auto|].
  destruct (Load_body_spec st Hc Hok) as [st1' [E1 [Hc1 [Hok1 [_ [Hlen _]]]]]].
  rewrite E in E1. injection E1 as <-.
  destruct (IH Hc1 Hok1) as [H1 [H2 [H3 H4]]].
  split; [exact H1|]. split; [exact H2|]. split; [congruence|exact H4].
Qed.

(** X7: when the loop of [Load] stops, whatever the input, the whole
    input has been consumed and the indentation stack, of 64 slots, holds
    the bottom entry and at most one level: no nesting of the input can
    overflow it. *)
Theorem Load_loop_final_state :
  forall content : cstring,
  exists st : ParseState,
    Load_loop (length (initial_state content)) (initial_state content) = Ok st
    /\ position st = length st
    /\ length st = strlen content
    /\ (indent_top st = 0%Z \/ indent_top st = 1%Z)
    /\ List.length (indent_stack st) = 64.
Proof.
  intros content.
  destruct (Load_loop_runs (length (initial_state content)) (initial_state content)
              (initial_cursor_ok content) (initial_tree_ok content))
    as [st [E [Hrun _]]].
  - rewrite rem_length by apply initial_cursor_ok.
    cbn [length position initial_state]. lia.
  - exists st. split; [exact E|].
    destruct (runs_cursor_ok _ _ Hrun (initial_cursor_ok content)
                (initial_tree_ok content))
      as [[Hpos _] [[Hlen64 [_ [Htop _]]] [Hlen Hge]]].
    split; [lia|]. split; [exact Hlen|]. split; [|exact Hlen64].
    destruct Htop as [H|[H _]]; auto.
Qed.

(** ** Builders and lookups of [Node] *)

Lemma option_strdup_idem (o : option cstring) :
  option_map strdup (option_map strdup o) = option_map strdup o.
Proof. destruct o; simpl; [|reflexivity]. unfold strdup. now rewrite c_str_idem. Qed.

Lemma Node_copy_idem (n : Node) : Node_copy (Node_copy n) = Node_copy n.
Proof.
  induction n as [ty tg sv ch mk IHch _] using Node_ind.
  rewrite (Node_copy_eq (Node_copy _)). rewrite !Node_copy_eq.
  cbn [type_ tag_ scalar_value_ children].
  rewrite !option_strdup_idem. f_equal.
  rewrite map_map. apply map_ext_in. intros c Hc.
  rewrite Forall_forall in IHch. now apply IHch.
Qed.

Lemma copy_children_keyless (n c : Node) :
  In c (children (Node_copy n)) -> map_key_ c = None.
Proof.
  intros Hc. apply (Node_copy_keyless n).
  eapply in_tree_child; [exact Hc|constructor].
Qed.


Lemma unkeyed_snoc (l : list Node) (c : Node) :
  map_key_ c = None -> unkeyed (l ++ [c]) = unkeyed l ++ [c].
Proof.
  intros H. unfold unkeyed. rewrite filter_app. cbn [filter].
  unfold has_no_key. now rewrite H.
Qed.

Lemma key_loop_snoc (l : list Node) (c : Node) (key : cstring) :
  map_key_ c = None ->
  key_loop (l ++ [c]) key = key_loop l key
  /\ HasKey_loop (l ++ [c]) key = HasKey_loop l key.
Proof.
  intros H. induction l as [|h t IH]; cbn [app key_loop HasKey_loop].
  - unfold key_matches. now rewrite H.
  - destruct (key_matches h key); [now split|exact IH].
Qed.

Lemma AddChild_lookup (n c : Node) :
  map_key_ c = None ->
  size (AddChild n c) = S (size n)
  /\ operator_index (AddChild n c) (size n) = Node_copy c
  /\ (forall i, i < size n ->
                operator_index (AddChild n c) i = operator_index n i)
  /\ (forall key, operator_key (AddChild n c) key = operator_key n key)
  /\ (forall key, HasKey (AddChild n c) key = HasKey n key).
Proof.
  intros Hc. unfold operator_index, operator_key, HasKey.
  rewrite !size_unkeyed. cbn [children AddChild].
  rewrite unkeyed_snoc by exact Hc. rewrite length_app. cbn [List.length].
  split; [lia|]. split; [|split; [|split]].
  - rewrite index_loop_unkeyed by lia. rewrite unkeyed_snoc by exact Hc.
    rewrite Nat.sub_0_r, nth_error_app2, Nat.sub_diag by lia. reflexivity.
  - intros i Hi. rewrite !index_loop_unkeyed by lia.
    rewrite unkeyed_snoc by exact Hc. rewrite Nat.sub_0_r.
    now rewrite nth_error_app1 by exact Hi.
  - intros key. apply key_loop_snoc, Hc.
  - intros key. apply key_loop_snoc, Hc.
Qed.

(** X9: [push_back] of a node appends a copy of it: the size grows by
    one, the new element is found at the old size and is the copy of the
    node pushed, the elements before keep their index, and lookups by key
    and [HasKey] answer as before.  The kind of the node is left as it
    was: pushing onto a Null node does not make it a Sequence. *)
Theorem push_back_lookup :
  forall n x : Node,
    size (push_back n x) = S (size n)
    /\ operator_index (push_back n x) (size n) = Node_copy x
    /\ (forall i, i < size n ->
                  operator_index (push_back n x) i = operator_index n i)
    /\ (forall key, operator_key (push_back n x) key = operator_key n key)
    /\ (forall key, HasKey (push_back n x) key = HasKey n key)
    /\ GetType (push_back n x) = GetType n.
Proof.
  intros n x. unfold push_back.
  destruct (AddChild_lookup n (Node_copy x) (Node_copy_key x))
    as [H1 [H2 [H3 [H4 H5]]]].
  split; [exact H1|]. split; [now rewrite H2, Node_copy_idem|].
  split; [exact H3|]. split; [exact H4|]. split; [exact H5|reflexivity].
Qed.

(** X10: [push_back] of a string appends a Scalar leaf: the size grows by
    one, the new element is found at the old size, is of kind Scalar and
    has the string, as C sees it, as its text; the elements before keep
    their index. *)
Theorem push_back_str_lookup :
  forall (n : Node) (value : cstring),
    size (push_back_str n value) = S (size n)
    /\ operator_index (push_back_str n value) (size n)
       = mkNode Type_Scalar None (Some (c_str value)) [] None
    /\ as_string (operator_index (push_back_str n value) (size n))
       = c_str value
    /\ (forall i, i < size n ->
                  operator_index (push_back_str n value) i = operator_index n i).
Proof.
  intros n value. unfold push_back_str.
  set (child := set_scalar_value (set_type (Node_new None) Type_Scalar)
                                 (Some (strdup value))).
  destruct (AddChild_lookup n child eq_refl) as [H1 [H2 [H3 _]]].
  assert (Node_copy child = mkNode Type_Scalar None (Some (c_str value)) [] None)
    as Hcopy.
  { rewrite Node_copy_eq. cbn. unfold strdup. now rewrite c_str_idem. }
  split; [exact H1|]. rewrite H2, Hcopy. repeat split. exact H3.
Qed.

Lemma lookup_results (n : Node) :
  (forall i, operator_index n i = Node_new None
             \/ exists c, operator_index n i = Node_copy c)
  /\ (forall key, operator_key n key = Node_new None
                  \/ exists c, operator_key n key = Node_copy c).
Proof.
  split.
  - intros i. unfold operator_index. rewrite index_loop_unkeyed by lia.
    destruct (nth_error _ _); eauto.
  - intros key. unfold operator_key.
    destruct (HasKey_loop_key_loop (children n) key)
      as [[_ [c [_ [_ ->]]]]|[_ ->]]; eauto.
Qed.

(** X11: lookups by key do not chain.  What positional or keyed
    [operator[]] returns is a copy, in which no child has a key; so a
    lookup by key in the result of a lookup always answers the Null node,
    and [HasKey] there is false: [n[k][k']] is Null for every node and all
    keys. *)
Theorem keyed_lookup_does_not_chain :
  forall (n : Node) (i : nat) (k k' : cstring),
    HasKey (operator_key n k) k' = false
    /\ operator_key (operator_key n k) k' = Node_new None
    /\ HasKey (operator_index n i) k' = false
    /\ operator_key (operator_index n i) k' = Node_new None.
Proof.
  intros n i k k'.
  assert (forall m, (m = Node_new None \/ exists c, m = Node_copy c) ->
                    HasKey m k' = false /\ operator_key m k' = Node_new None)
    as H.
  { intros m [->|[c ->]]; [now split|].
    apply HasKey_keyless. apply copy_children_keyless. }
  destruct (lookup_results n) as [Hi Hk].
  destruct (H _ (Hk k)) as [H1 H2]. destruct (H _ (Hi i)) as [H3 H4].
  auto.
Qed.

Lemma key_loop_first (l1 : list Node) (c : Node) (l2 : list Node) (key : cstring) :
  (forall x, In x l1 -> key_matches x key = false) ->
  key_matches c key = true ->
  key_loop (l1 ++ c :: l2) key = Node_copy c
  /\ HasKey_loop (l1 ++ c :: l2) key = true.
Proof.
  intros H1 Hc. induction l1 as [|h t IH]; cbn [app key_loop HasKey_loop].
  - now rewrite Hc.
  - rewrite (H1 h (or_introl eq_refl)). apply IH. intros x Hx. apply H1. now right.
Qed.

(** X12: lookup by key takes the first match.  When a child has a key
    whose text is the key asked for and no child before it has, keyed
    [operator[]] returns the copy of that child, whatever comes after it,
    and [HasKey] is true; when no child has such a key, it returns the Null
    node and [HasKey] is false. *)
Theorem operator_key_first_match :
  forall (n : Node) (key : cstring),
    (forall l1 c l2,
        children n = l1 ++ c :: l2 ->
        (forall x, In x l1 -> key_matches x key = false) ->
        key_matches c key = true ->
        operator_key n key = Node_copy c /\ HasKey n key = true)
    /\ ((forall x, In x (children n) -> key_matches x key = false) ->
        operator_key n key = Node_new None /\ HasKey n key = false).
Proof.
  intros n key. unfold operator_key, HasKey. split.
  - intros l1 c l2 -> H1 Hc. now apply key_loop_first.
  - intros H. induction (children n) as [|h t IH]; cbn [key_loop HasKey_loop];
      [now split|].
    rewrite (H h (or_introl eq_refl)). apply IH. intros x Hx. apply H. now right.
Qed.

Lemma operator_key_first_match_witness :
  (operator_key mixed_node (cs "k")
   = Node_copy (mkNode Type_Scalar None (Some (cs "v")) []
                       (Some (mkNode Type_Scalar None (Some (cs "k")) [] None)))
   /\ HasKey mixed_node (cs "k") = true)
  /\ (operator_key mixed_node (cs "x") = Node_new None
      /\ HasKey mixed_node (cs "x") = false).
Proof.
  split.
  - apply (proj1 (operator_key_first_match mixed_node (cs "k"))
             [mkNode Type_Scalar None (Some (cs "x")) [] None] _
             [mkNode Type_Scalar None (Some (cs "y")) [] None]).
    + reflexivity.
    + intros x [<-|[]]. reflexivity.
    + reflexivity.
  - apply (proj2 (operator_key_first_match mixed_node (cs "x"))).
    intros x [<-|[<-|[<-|[]]]]; reflexivity.
Defined.

(** ** Scalars: trimming and the two extractors *)

Lemma firstn_snoc_nth {A : Type} (d : A) (l : list A) (n : nat) :
  n < List.length l -> firstn (S n) l = firstn n l ++ [nth n l d].
Proof.
  revert n. induction l as [|h t IH]; intros [|n] H; simpl in *; try lia.
  - reflexivity.
  - f_equal. apply IH. lia.
Qed.

Lemma trim_loop_split (len : nat) (str : cstring) :
  len <= List.length str ->
  Forall (fun c => isspace c = true)
         (skipn (TrimTrailingWhitespace_loop len str) (firstn len str))
  /\ (TrimTrailingWhitespace_loop len str = 0
      \/ exists t c, firstn (TrimTrailingWhitespace_loop len str) str = t ++ [c]
                     /\ isspace c = false).
Proof.
  induction len as [|len IH]; intros Hlen.
  - simpl. split; [constructor|now left].
  - cbn [TrimTrailingWhitespace_loop]. unfold char_at.
    rewrite (firstn_snoc_nth NUL) by lia.
    destruct (isspace (nth len str NUL)) eqn:Esp.
    + destruct IH as [IH1 IH2]; [lia|]. split; [|exact IH2].
      pose proof (TrimTrailingWhitespace_loop_le len str) as Hle.
      rewrite skipn_app, length_firstn.
      replace (TrimTrailingWhitespace_loop len str - Nat.min len (List.length str))
        with 0 by lia.
      apply Forall_app. split; [exact IH1|]. cbn [skipn]. now constructor.
    + split.
      * rewrite <- (firstn_snoc_nth NUL) by lia.
        rewrite skipn_all2 by (rewrite length_firstn; lia). constructor.
      * right. rewrite (firstn_snoc_nth NUL) by lia. eauto.
Qed.

Lemma trim_loop_fixed (t : cstring) :
  (t = [] \/ exists t' c, t = t' ++ [c] /\ isspace c = false) ->
  TrimTrailingWhitespace_loop (List.length t) t = List.length t.
Proof.
  intros [->|[t' [c [-> Hc]]]]; [reflexivity|].
  rewrite length_app, Nat.add_comm. cbn [List.length Nat.add].
  cbn [TrimTrailingWhitespace_loop]. unfold char_at.
  rewrite app_nth2, Nat.sub_diag by lia. cbn [nth]. now rewrite Hc.
Qed.

Lemma nul_free_prefix (a b : cstring) : nul_free (a ++ b) -> nul_free a.
Proof. intros H. apply Forall_app in H. tauto. Qed.

(** X13: [TrimTrailingWhitespace] cuts the string, as C sees it, before
    its trailing white space and nowhere else: what it cuts off is white
    space only, what it leaves is empty or ends in a byte that is not white
    space, and trimming again changes nothing. *)
Theorem TrimTrailingWhitespace_spec :
  forall str : cstring,
    (exists ws, c_str str = TrimTrailingWhitespace str ++ ws
                /\ Forall (fun c => isspace c = true) ws)
    /\ (TrimTrailingWhitespace str = []
        \/ exists t c, TrimTrailingWhitespace str = t ++ [c]
                       /\ isspace c = false)
    /\ TrimTrailingWhitespace (TrimTrailingWhitespace str)
       = TrimTrailingWhitespace str.
Proof.
  intros str.
  pose proof (c_str_length str) as Hlen. fold (strlen str) in Hlen.
  pose proof (TrimTrailingWhitespace_loop_le (strlen str) str) as Hle.
  destruct (trim_loop_split (strlen str) str Hlen) as [Hws Hend].
  rewrite c_str_firstn in Hws.
  set (n := TrimTrailingWhitespace_loop (strlen str) str) in *.
  assert (firstn n str = firstn n (c_str str)) as Efirst.
  { rewrite <- c_str_firstn, firstn_firstn. f_equal. lia. }
  assert (Hshape : firstn n str = []
                   \/ exists t c, firstn n str = t ++ [c] /\ isspace c = false).
  { destruct Hend as [->|H]; [now left|now right]. }
  change (TrimTrailingWhitespace str) with (firstn n str).
  split; [|split].
  - exists (skipn n (c_str str)). split; [|exact Hws].
    rewrite Efirst. symmetry. apply firstn_skipn.
  - exact Hshape.
  - assert (nul_free (firstn n str)) as Hnf.
    { rewrite Efirst. apply (nul_free_prefix _ (skipn n (c_str str))).
      rewrite firstn_skipn. apply c_str_nul_free. }
    unfold TrimTrailingWhitespace, strlen. rewrite (c_str_id _ Hnf).
    rewrite (trim_loop_fixed _ Hshape). apply firstn_all.
Qed.

Lemma escape_nul_free (quote : ascii) (t : cstring) :
  nul_free t -> nul_free (escape quote t).
Proof.
  induction 1 as [|c t Hc _ IH]; cbn [escape]; [constructor|].
  destruct (Ascii.eqb c quote || Ascii.eqb c "\").
  - constructor; [discriminate|]. now constructor.
  - now constructor.
Qed.

Lemma quoted_end_escape (quote : ascii) (t rest : cstring) :
  quote <> "\"%char ->
  quoted_end quote (escape quote t ++ quote :: rest) = quote :: rest
  /\ quoted_end quote (escape quote t) = [].
Proof.
  intros Hq. induction t as [|c t IH]; cbn [escape app].
  - cbn [quoted_end]. now rewrite Ascii.eqb_refl.
  - destruct (Ascii.eqb c quote) eqn:E1; cbn [orb].
    + cbn [app quoted_end].
      destruct (Ascii.eqb_spec "\"%char quote) as [Hb|_]; [congruence|].
      rewrite Ascii.eqb_refl. exact IH.
    + destruct (Ascii.eqb c "\") eqn:E2.
      * cbn [app quoted_end].
        destruct (Ascii.eqb_spec "\"%char quote) as [Hb|_]; [congruence|].
        rewrite Ascii.eqb_refl. exact IH.
      * cbn [app quoted_end]. rewrite E1, E2. exact IH.
Qed.

Lemma unescape_escape (quote : ascii) (t tail : cstring) :
  nul_free t ->
  unescape (List.length (escape quote t)) (escape quote t ++ tail) = t.
Proof.
  induction 1 as [|c t Hc _ IH]; cbn [escape app]; [reflexivity|].
  destruct (Ascii.eqb c quote || Ascii.eqb c "\") eqn:E.
  - cbn [List.length app unescape star hd tl].
    rewrite Ascii.eqb_refl.
    destruct (Ascii.eqb_spec c NUL) as [->|_]; [congruence|].
    cbn [negb andb]. now rewrite IH.
  - cbn [List.length app unescape].
    apply orb_false_iff in E as [_ E2]. rewrite E2. cbn [andb]. now rewrite IH.
Qed.

(** X14: [ExtractQuotedString] undoes [escape].  For a text without NUL
    put between two double quotes, or two single quotes, with a backslash
    before each of its quotes and backslashes, the function returns the
    text, whatever follows the closing quote, and also when the closing
    quote is missing; the buffer requested has room for the escaped text. *)
Theorem ExtractQuotedString_round_trip :
  forall (malloc_ok : nat -> bool) (quote : ascii) (t rest : cstring),
    quote = DQUOTE \/ quote = "'"%char ->
    nul_free t ->
    malloc_ok (List.length (escape quote t) + 1) = true ->
    ExtractQuotedString malloc_ok (Some (quote :: escape quote t ++ quote :: rest))
    = Some t
    /\ ExtractQuotedString malloc_ok (Some (quote :: escape quote t)) = Some t.
Proof.
  intros malloc_ok quote t rest Hq Ht Hm.
  assert (quote <> "\"%char) as Hq1 by (destruct Hq as [->| ->]; discriminate).
  assert (quote <> NUL) as Hq2 by (destruct Hq as [->| ->]; discriminate).
  assert (negb (Ascii.eqb quote DQUOTE) && negb (Ascii.eqb quote "'") = false)
    as Hq3 by (destruct Hq as [->| ->]; reflexivity).
  pose proof (escape_nul_free quote t Ht) as He.
  destruct (quoted_end_escape quote t (c_str rest) Hq1) as [E1 E2].
  unfold ExtractQuotedString. split.
  - replace (quote :: escape quote t ++ quote :: rest)
      with ((quote :: escape quote t ++ [quote]) ++ rest)
      by (cbn [app]; now rewrite <- app_assoc).
    rewrite c_str_app.
    2:{ constructor; [exact Hq2|]. apply Forall_app. split; [exact He|].
        now constructor. }
    cbn [app star hd tl]. rewrite Hq3. rewrite <- app_assoc. cbn [app].
    rewrite E1, length_app. cbn [List.length].
    replace (List.length (escape quote t) + S (List.length (c_str rest))
             - S (List.length (c_str rest)))
      with (List.length (escape quote t)) by lia.
    rewrite Hm. cbn [negb]. now rewrite unescape_escape.
  - rewrite c_str_id by (constructor; assumption).
    cbn [star hd tl]. rewrite Hq3, E2. cbn [List.length].
    rewrite Nat.sub_0_r, Hm. cbn [negb].
    rewrite <- (app_nil_r (escape quote t)) at 2. now rewrite unescape_escape.
Qed.

Lemma ExtractQuotedString_round_trip_witness :
  ExtractQuotedString (fun _ => true)
    (Some (DQUOTE :: escape DQUOTE (cs "a\b" ++ [DQUOTE] ++ cs "c")
             ++ DQUOTE :: cs " # rest"))
  = Some (cs "a\b" ++ [DQUOTE] ++ cs "c")
  /\ ExtractQuotedString (fun _ => true)
       (Some (DQUOTE :: escape DQUOTE (cs "a\b" ++ [DQUOTE] ++ cs "c")))
     = Some (cs "a\b" ++ [DQUOTE] ++ cs "c").
Proof.
  apply (ExtractQuotedString_round_trip (fun _ => true) DQUOTE
           (cs "a\b" ++ [DQUOTE] ++ cs "c") (cs " # rest")).
  - now left.
  - repeat constructor; discriminate.
  - reflexivity.
Defined.

Lemma unescape_length (left : nat) : forall s,
  List.length (unescape left s) <= left.
Proof.
  induction left as [left IH] using lt_wf_ind. intros s.
  destruct left as [|left]; [simpl; lia|].
  destruct s as [|c s]; [simpl; lia|]. cbn [unescape].
  destruct (Ascii.eqb c "\" && negb (Ascii.eqb (star s) NUL)).
  - destruct left as [|left]; [simpl; lia|].
    cbn [List.length]. pose proof (IH left (ltac:(lia)) (tl s)). lia.
  - cbn [List.length]. pose proof (IH left (ltac:(lia)) s). lia.
Qed.

(** X15: when [ExtractQuotedString] returns a string, the argument was a
    string that starts with a double or a single quote, a buffer was
    obtained from [malloc], and the text written into it fits: it is no
    longer than the text between the quotes, for which the buffer was
    sized. *)
Theorem ExtractQuotedString_fits :
  forall (malloc_ok : nat -> bool) (str : option cstring) (result : cstring),
    ExtractQuotedString malloc_ok str = Some result ->
    exists (quote : ascii) (body : cstring) (len : nat),
      option_map c_str str = Some (quote :: body)
      /\ (quote = DQUOTE \/ quote = "'"%char)
      /\ len <= List.length body
      /\ malloc_ok (len + 1) = true
      /\ List.length result <= len.
Proof.
  intros malloc_ok [str|] result; [|discriminate].
  unfold ExtractQuotedString.
  destruct (c_str str) as [|quote body] eqn:Estr; [discriminate|].
  cbn [star hd tl option_map].
  destruct (Ascii.eqb_spec quote DQUOTE) as [Hd|_]; cbn [negb andb].
  - destruct (malloc_ok _) eqn:Em; [|discriminate]. cbn [negb].
    intros H. injection H as <-. exists quote, body. eexists.
    rewrite Estr. split; [reflexivity|]. split; [now left|].
    split; [|split; [exact Em|apply unescape_length]]. lia.
  - destruct (Ascii.eqb_spec quote "'") as [Hs|_]; cbn [negb]; [|discriminate].
    destruct (malloc_ok _) eqn:Em; [|discriminate]. cbn [negb].
    intros H. injection H as <-. exists quote, body. eexists.
    rewrite Estr. split; [reflexivity|]. split; [now right|].
    split; [|split; [exact Em|apply unescape_length]]. lia.
Qed.

Lemma ExtractQuotedString_fits_witness :
  exists (quote : ascii) (body : cstring) (len : nat),
    option_map c_str (Some ("'"%char :: cs "it\'s' x")) = Some (quote :: body)
    /\ (quote = DQUOTE \/ quote = "'"%char)
    /\ len <= List.length body
    /\ (fun _ : nat => true) (len + 1) = true
    /\ List.length (cs "it's") <= len.
Proof.
  apply (ExtractQuotedString_fits (fun _ : nat => true)
           (Some ("'"%char :: cs "it\'s' x")) (cs "it's")).
  reflexivity.
Defined.

Lemma skip_value_space_app (ws r : cstring) :
  Forall (fun c => isspace c = true) ws ->
  skip_value_space (ws ++ r) = skip_value_space r.
Proof.
  induction 1 as [|c ws Hc _ IH]; cbn [app skip_value_space]; [reflexivity|].
  rewrite Hc. destruct (Ascii.eqb_spec c NUL) as [->|_]; [discriminate Hc|exact IH].
Qed.

Lemma unquoted_end_token (tok rest : cstring) :
  Forall (fun c => isspace c = false /\ c <> "#"%char) tok ->
  unquoted_end (tok ++ rest) = unquoted_end rest.
Proof.
  induction 1 as [|c tok [H1 H2] _ IH]; cbn [app unquoted_end]; [reflexivity|].
  rewrite H1. destruct (Ascii.eqb_spec c "#") as [|_]; [contradiction|exact IH].
Qed.

(** X16: [ExtractUnquotedString] returns the first token.  After leading
    white space, a token of bytes that are not white space, NUL or the
    comment mark, ended by the end of the string or by white space or by a
    comment mark, is returned as it is; a comment mark right after the
    leading white space gives the empty string; and a string of white space
    only gives the null pointer. *)
Theorem ExtractUnquotedString_token :
  forall (malloc_ok : nat -> bool) (ws tok rest : cstring),
    Forall (fun c => isspace c = true) ws ->
    Forall (fun c => isspace c = false /\ c <> "#"%char /\ c <> NUL) tok ->
    isspace (star rest) = true \/ star rest = "#"%char \/ star rest = NUL ->
    tok <> [] \/ star rest = "#"%char ->
    malloc_ok (List.length tok + 1) = true ->
    ExtractUnquotedString malloc_ok (Some (ws ++ tok ++ rest)) = Some tok
    /\ ExtractUnquotedString malloc_ok (Some (ws ++ NUL :: rest)) = None
    /\ ExtractUnquotedString malloc_ok (Some ws) = None.
Proof.
  intros malloc_ok ws tok rest Hws Htok Hrest Hne Hm.
  pose proof (space_nul_free ws Hws) as Hnf.
  assert (nul_free tok) as Htnf
      by (eapply Forall_impl; [|exact Htok]; intros a [_ [_ H]]; exact H).
  assert (Forall (fun c => isspace c = false /\ c <> "#"%char) tok) as Htok'
      by (eapply Forall_impl; [|exact Htok]; intros a [H1 [H2 _]]; now split).
  unfold ExtractUnquotedString. split; [|split].
  - rewrite !c_str_app by assumption.
    rewrite skip_value_space_app by exact Hws.
    assert (skip_value_space (tok ++ c_str rest) = tok ++ c_str rest) as Eskip.
    { destruct tok as [|c tok'].
      - destruct Hne as [Hne|Hne]; [congruence|].
        destruct rest as [|r0 rest']; [discriminate Hne|].
        cbn [star hd] in Hne. subst r0. reflexivity.
      - inversion Htok as [|? ? [H1 [_ H3]] _]; subst.
        cbn [app skip_value_space]. now rewrite H1, andb_false_r. }
    rewrite Eskip.
    assert (star (tok ++ c_str rest) <> NUL) as Hstar.
    { destruct tok as [|c tok'].
      - destruct Hne as [Hne|Hne]; [congruence|].
        destruct rest as [|r0 rest']; [discriminate Hne|].
        cbn [star hd] in Hne. subst r0. discriminate.
      - inversion Htok as [|? ? [_ [_ H3]] _]; subst. exact H3. }
    apply Ascii.eqb_neq in Hstar. rewrite Hstar.
    rewrite unquoted_end_token by exact Htok'.
    assert (unquoted_end (c_str rest) = c_str rest) as Eend.
    { destruct rest as [|r0 rest']; [reflexivity|]. cbn [star hd] in Hrest.
      cbn [c_str]. destruct (Ascii.eqb_spec r0 NUL) as [|Hr0]; [reflexivity|].
      cbn [unquoted_end].
      destruct Hrest as [H|[H|H]]; [now rewrite H|subst r0; reflexivity|contradiction]. }
    rewrite Eend, length_app.
    replace (List.length tok + List.length (c_str rest) - List.length (c_str rest))
      with (List.length tok) by lia.
    rewrite Hm. cbn [negb]. f_equal.
    rewrite firstn_app, Nat.sub_diag, firstn_all. cbn [firstn]. apply app_nil_r.
  - rewrite c_str_app by assumption. cbn [c_str]. rewrite Ascii.eqb_refl.
    now rewrite (skip_value_space_app ws [] Hws).
  - rewrite c_str_id by assumption.
    pose proof (skip_value_space_app ws [] Hws) as E.
    rewrite app_nil_r in E. now rewrite E.
Qed.

Lemma ExtractUnquotedString_token_witness :
  ExtractUnquotedString (fun _ => true) (Some (cs "  " ++ cs "yes" ++ cs " # on"))
  = Some (cs "yes")
  /\ ExtractUnquotedString (fun _ => true) (Some (cs "  " ++ NUL :: cs " # on"))
     = None
  /\ ExtractUnquotedString (fun _ => true) (Some (cs "  ")) = None.
Proof.
  apply (ExtractUnquotedString_token (fun _ => true)
           (cs "  ") (cs "yes") (cs " # on")).
  - repeat constructor.
  - repeat constructor; discriminate.
  - now left.
  - left. discriminate.
  - reflexivity.
Defined.

(** ** The cursor: lines, white space, comments and indentation *)

Lemma set_position_cursor_ok (st : ParseState) :
  cursor_ok st -> position st < length st ->
  cursor_ok (set_position st (S (position st))).
Proof. intros [H1 H2] H. split; simpl; lia. Qed.

Lemma ReadToEndOfLine_loop_reads (room : nat) : forall st buffer,
  cursor_ok st ->
  exists st' b,
    ReadToEndOfLine_loop room st buffer = (st', buffer ++ b)
    /\ rem st = b ++ rem st'
    /\ Forall (fun c => c <> NL) b
    /\ List.length b <= room
    /\ cursor_ok st' /\ keeps st st'
    /\ line st' = line st /\ column st' = column st
    /\ (rem st' = [] \/ star (rem st') = NL
        \/ (List.length b = room /\ star (rem st') <> NL)).
Proof.
  induction room as [|room IH]; intros st buffer Hc.
  - exists st, []. cbn [ReadToEndOfLine_loop]. rewrite app_nil_r.
    split; [reflexivity|]. split; [reflexivity|]. split; [constructor|].
    split; [apply le_n|]. split; [exact Hc|]. split; [apply keeps_refl|].
    split; [reflexivity|]. split; [reflexivity|].
    destruct (Ascii.eqb_spec (star (rem st)) NL); auto.
  - cbn [ReadToEndOfLine_loop].
    destruct (Nat.ltb_spec (position st) (length st)) as [Hlt|Hge]; cbn [andb].
    + destruct (Ascii.eqb_spec (cur_char st) NL) as [Enl|Enl]; cbn [negb].
      * exists st, []. rewrite app_nil_r.
        split; [reflexivity|]. split; [reflexivity|]. split; [constructor|].
        split; [cbn; lia|]. split; [exact Hc|]. split; [apply keeps_refl|].
        split; [reflexivity|]. split; [reflexivity|].
        right. left. now rewrite (rem_cons st Hc Hlt).
      * destruct (IH (set_position st (S (position st))) (buffer ++ [cur_char st])
                     (set_position_cursor_ok st Hc Hlt))
          as [st' [b [E [Hr [Hb [Hlen [Hc' [Hk [Hl [Hcol Hstop]]]]]]]]]].
        exists st', (cur_char st :: b). rewrite E, <- app_assoc.
        split; [reflexivity|]. split; [rewrite (rem_cons st Hc Hlt), Hr; reflexivity|].
        split; [now constructor|]. split; [cbn [List.length]; lia|].
        split; [exact Hc'|]. split; [exact Hk|].
        split; [exact Hl|]. split; [exact Hcol|].
        destruct Hstop as [H|[H|[H1 H2]]]; auto.
        right. right. split; [cbn [List.length]; lia|exact H2].
    + exists st, []. rewrite app_nil_r.
      split; [reflexivity|]. split; [reflexivity|]. split; [constructor|].
      split; [cbn; lia|]. split; [exact Hc|]. split; [apply keeps_refl|].
      split; [reflexivity|]. split; [reflexivity|].
      left. now apply rem_nil.
Qed.

(** X17: [ReadToEndOfLine] copies one line.  With the cursor inside the
    text and a buffer of [size] bytes, [size] positive, the buffer gets at
    most [size - 1] bytes with no newline among them, which are the bytes
    the cursor passes; the text, the tree and the indentation stack are
    left as they are.  Either the line ends there and its newline is
    consumed too, the column going to zero and the line counter, an [int]
    below [INT_MAX], up by one; or the counters are as before and the
    cursor is at the end of the text or at a byte that is no newline, the
    buffer being full. *)
Theorem ReadToEndOfLine_reads_line :
  forall (st : ParseState) (size : nat),
    cursor_ok st -> 0 < size ->
    exists (st' : ParseState) (buffer : cstring),
      ReadToEndOfLine st size = (st', buffer)
      /\ List.length buffer <= size - 1
      /\ Forall (fun c => c <> NL) buffer
      /\ cursor_ok st' /\ keeps st st'
      /\ ((rem st = buffer ++ NL :: rem st'
           /\ column st' = 0%Z
           /\ ((INT_MIN <= line st < INT_MAX)%Z -> line st' = (line st + 1)%Z))
          \/ (rem st = buffer ++ rem st'
              /\ line st' = line st /\ column st' = column st
              /\ (rem st' = []
                  \/ (List.length buffer = size - 1 /\ star (rem st') <> NL)))).
Proof.
  intros st size Hc _. unfold ReadToEndOfLine.
  destruct (ReadToEndOfLine_loop_reads (size - 1) st [] Hc)
    as [st1 [b [E [Hr [Hb [Hlen [Hc1 [Hk [Hl [Hcol Hstop]]]]]]]]]].
  rewrite E. cbn [app].
  destruct (Nat.ltb_spec (position st1) (length st1)) as [Hlt|Hge]; cbn [andb].
  - pose proof (rem_cons st1 Hc1 Hlt) as Hcons.
    destruct (Ascii.eqb_spec (cur_char st1) NL) as [Enl|Enl].
    + eexists. exists b. split; [reflexivity|]. split; [exact Hlen|].
      split; [exact Hb|]. split; [|split; [|left]].
      * destruct Hc1. split; simpl; lia.
      * destruct Hk as [H1 [H2 H3]]. split; [exact H1|]. split; [exact H2|exact H3].
      * split; [rewrite Hr, Hcons, Enl; reflexivity|].
        split; [reflexivity|]. intros Hrange.
        cbn [line set_column set_line set_position]. rewrite Hl. unfold incr.
        apply wrap_int_id. unfold INT_MIN, INT_MAX in *. lia.
    + exists st1, b. split; [reflexivity|]. split; [exact Hlen|].
      split; [exact Hb|]. split; [exact Hc1|]. split; [exact Hk|]. right.
      split; [exact Hr|]. split; [exact Hl|]. split; [exact Hcol|].
      destruct Hstop as [H|[H|H]]; [now left| |now right].
      rewrite Hcons in H. cbn [star hd] in H. contradiction.
  - exists st1, b. split; [reflexivity|]. split; [exact Hlen|].
    split; [exact Hb|]. split; [exact Hc1|]. split; [exact Hk|]. right.
    split; [exact Hr|]. split; [exact Hl|]. split; [exact Hcol|].
    left. now apply rem_nil.
Qed.

Lemma ReadToEndOfLine_reads_line_witness :
  exists (st' : ParseState) (buffer : cstring),
    ReadToEndOfLine (initial_state keyed_input) 3 = (st', buffer)
    /\ List.length buffer <= 3 - 1
    /\ Forall (fun c => c <> NL) buffer
    /\ cursor_ok st' /\ keeps (initial_state keyed_input) st'
    /\ ((rem (initial_state keyed_input) = buffer ++ NL :: rem st'
         /\ column st' = 0%Z
         /\ ((INT_MIN <= line (initial_state keyed_input) < INT_MAX)%Z ->
             line st' = (line (initial_state keyed_input) + 1)%Z))
        \/ (rem (initial_state keyed_input) = buffer ++ rem st'
            /\ line st' = line (initial_state keyed_input)
            /\ column st' = column (initial_state keyed_input)
            /\ (rem st' = []
                \/ (List.length buffer = 3 - 1 /\ star (rem st') <> NL)))).
Proof.
  apply (ReadToEndOfLine_reads_line (initial_state keyed_input) 3).
  - split; vm_compute; lia.
  - lia.
Defined.

Lemma SkipWhitespace_loop_skips (fuel : nat) : forall st,
  cursor_ok st -> length st - position st <= fuel ->
  exists st' ws,
    SkipWhitespace_loop fuel st = Ok st'
    /\ rem st = ws ++ rem st'
    /\ Forall (fun c => isspace c = true) ws
    /\ (rem st' = [] \/ isspace (star (rem st')) = false)
    /\ cursor_ok st' /\ keeps st st'
    /\ ((INT_MIN <= line st)%Z ->
        (line st + Z.of_nat (count_occ ascii_dec ws NL) <= INT_MAX)%Z ->
        line st' = (line st + Z.of_nat (count_occ ascii_dec ws NL))%Z).
Proof.
  induction fuel as [|fuel IH]; intros st Hc Hf.
  - cbn [SkipWhitespace_loop].
    destruct (Nat.ltb_spec (position st) (length st)) as [Hlt|Hge]; [lia|].
    exists st, []. cbn [andb app count_occ]. rewrite (rem_nil st Hc Hge).
    split; [reflexivity|]. split; [reflexivity|]. split; [constructor|].
    split; [now left|]. split; [exact Hc|]. split; [apply keeps_refl|]. lia.
  - cbn [SkipWhitespace_loop].
    destruct (Nat.ltb_spec (position st) (length st)) as [Hlt|Hge]; cbn [andb].
    + pose proof (rem_cons st Hc Hlt) as Hcons.
      destruct (isspace (cur_char st)) eqn:Esp.
      * match goal with
        | |- exists st' ws, SkipWhitespace_loop fuel ?s = _ /\ _ =>
            destruct (IH s) as [st' [ws [E [Hr [Hws [Hstop [Hc' [Hk Hl]]]]]]]]
        end.
        { destruct Hc. destruct (Ascii.eqb (cur_char st) NL); split; simpl; lia. }
        { destruct (Ascii.eqb (cur_char st) NL); simpl; lia. }
        exists st', (cur_char st :: ws). split; [exact E|]. split.
        { rewrite Hcons. cbn [app]. f_equal. rewrite <- Hr.
          destruct (Ascii.eqb (cur_char st) NL); reflexivity. }
        split; [now constructor|]. split; [exact Hstop|]. split; [exact Hc'|].
        split.
        { eapply keeps_trans; [|exact Hk].
          destruct (Ascii.eqb (cur_char st) NL); now repeat split. }
        cbn [count_occ]. intros Hmin Hmax.
        destruct (Ascii.eqb_spec (cur_char st) NL) as [Enl|Enl].
        -- destruct (ascii_dec (cur_char st) NL) as [_|Hn]; [|contradiction].
           cbn [line set_column set_position set_line] in Hl.
           assert (incr (line st) = (line st + 1)%Z) as Hincr.
           { unfold incr. apply wrap_int_id.
             unfold INT_MIN, INT_MAX in *. lia. }
           rewrite Hincr in Hl. rewrite Hl; lia.
        -- destruct (ascii_dec (cur_char st) NL) as [Hn|_]; [contradiction|].
           cbn [line set_column set_position] in Hl. rewrite Hl; lia.
      * exists st, []. cbn [app count_occ].
        split; [reflexivity|]. split; [reflexivity|]. split; [constructor|].
        split; [right; rewrite Hcons; exact Esp|].
        split; [exact Hc|]. split; [apply keeps_refl|]. lia.
    + exists st, []. cbn [app count_occ]. rewrite (rem_nil st Hc Hge).
      split; [reflexivity|]. split; [reflexivity|]. split; [constructor|].
      split; [now left|]. split; [exact Hc|]. split; [apply keeps_refl|]. lia.
Qed.

(** X18: [SkipWhitespace] returns, with the cursor inside the text, past
    the longest run of white space at the cursor and no further: the bytes
    passed are all white space, and the cursor stops at the end of the text
    or at a byte that is not white space.  The text, the tree and the
    indentation stack are left as they are, and the line counter, an [int],
    goes up by the number of newlines passed, as long as that does not take
    it past [INT_MAX]. *)
Theorem SkipWhitespace_skips :
  forall st : ParseState,
    cursor_ok st ->
    exists (st' : ParseState) (ws : cstring),
      SkipWhitespace st = Ok st'
      /\ rem st = ws ++ rem st'
      /\ Forall (fun c => isspace c = true) ws
      /\ (rem st' = [] \/ isspace (star (rem st')) = false)
      /\ cursor_ok st' /\ keeps st st'
      /\ ((INT_MIN <= line st)%Z ->
          (line st + Z.of_nat (count_occ ascii_dec ws NL) <= INT_MAX)%Z ->
          line st' = (line st + Z.of_nat (count_occ ascii_dec ws NL))%Z).
Proof.
  intros st Hc. apply SkipWhitespace_loop_skips; [exact Hc|apply le_n].
Qed.

Lemma SkipWhitespace_skips_witness :
  exists (st' : ParseState) (ws : cstring),
    SkipWhitespace (set_position (initial_state keyed_input) 2) = Ok st'
    /\ rem (set_position (initial_state keyed_input) 2) = ws ++ rem st'
    /\ Forall (fun c => isspace c = true) ws
    /\ (rem st' = [] \/ isspace (star (rem st')) = false)
    /\ cursor_ok st' /\ keeps (set_position (initial_state keyed_input) 2) st'
    /\ ((INT_MIN <= line (set_position (initial_state keyed_input) 2))%Z ->
        (line (set_position (initial_state keyed_input) 2)
         + Z.of_nat (count_occ ascii_dec ws NL) <= INT_MAX)%Z ->
        line st'
        = (line (set_position (initial_state keyed_input) 2)
           + Z.of_nat (count_occ ascii_dec ws NL))%Z).
Proof.
  apply (SkipWhitespace_skips (set_position (initial_state keyed_input) 2)).
  split; vm_compute; lia.
Defined.

Lemma SkipComments_loop_skips (fuel : nat) : forall st,
  cursor_ok st -> length st - position st <= fuel ->
  exists st' txt,
    SkipComments_loop fuel st = Ok st'
    /\ rem st = txt ++ rem st'
    /\ Forall (fun c => c <> NL) txt
    /\ AtEndOfLine st' = true
    /\ cursor_ok st' /\ keeps st st'
    /\ line st' = line st /\ column st' = column st.
Proof.
  induction fuel as [|fuel IH]; intros st Hc Hf.
  - cbn [SkipComments_loop].
    destruct (Nat.ltb_spec (position st) (length st)) as [Hlt|Hge]; [lia|].
    exists st, []. cbn [andb app].
    split; [reflexivity|]. split; [reflexivity|]. split; [constructor|].
    split.
    { unfold AtEndOfLine. apply orb_true_iff. left. now apply Nat.leb_le. }
    split; [exact Hc|]. split; [apply keeps_refl|]. now split.
  - cbn [SkipComments_loop].
    destruct (Nat.ltb_spec (position st) (length st)) as [Hlt|Hge]; cbn [andb].
    + destruct (Ascii.eqb (cur_char st) NL) eqn:Enl; cbn [negb].
      * exists st, []. cbn [app].
        split; [reflexivity|]. split; [reflexivity|]. split; [constructor|].
        split; [unfold AtEndOfLine; rewrite Enl; apply orb_true_r|].
        split; [exact Hc|]. split; [apply keeps_refl|]. now split.
      * destruct (IH (set_position st (S (position st)))
                     (set_position_cursor_ok st Hc Hlt))
          as [st' [txt [E [Hr [Htxt [Hend [Hc' [Hk [Hl Hcol]]]]]]]]];
          [simpl; lia|].
        exists st', (cur_char st :: txt). split; [exact E|].
        split; [rewrite (rem_cons st Hc Hlt), Hr; reflexivity|].
        split; [constructor; [now apply Ascii.eqb_neq|exact Htxt]|].
        split; [exact Hend|]. split; [exact Hc'|]. split; [exact Hk|].
        split; [exact Hl|exact Hcol].
    + exists st, []. cbn [app].
      split; [reflexivity|]. split; [reflexivity|]. split; [constructor|].
      split.
      { unfold AtEndOfLine. apply orb_true_iff. left. now apply Nat.leb_le. }
      split; [exact Hc|]. split; [apply keeps_refl|]. now split.
Qed.

(** X19: [SkipComments] moves the cursor only when it is at a comment
    mark, and then to the end of that line: [AtEndOfLine] is true
    afterwards, the bytes passed contain no newline, so that the newline
    itself is still to be read, and the line and column counters, the text
    and the tree are as before.  Anywhere else it leaves the state as it
    is. *)
Theorem SkipComments_to_end_of_line :
  forall st : ParseState,
    cursor_ok st ->
    (star (rem st) = "#"%char ->
     exists (st' : ParseState) (txt : cstring),
       SkipComments st = Ok st'
       /\ rem st = "#"%char :: txt ++ rem st'
       /\ Forall (fun c => c <> NL) txt
       /\ AtEndOfLine st' = true
       /\ cursor_ok st' /\ keeps st st'
       /\ line st' = line st /\ column st' = column st)
    /\ (star (rem st) <> "#"%char -> SkipComments st = Ok st).
Proof.
  intros st Hc. unfold SkipComments.
  destruct (Nat.ltb_spec (position st) (length st)) as [Hlt|Hge]; cbn [andb].
  - pose proof (rem_cons st Hc Hlt) as Hcons. rewrite Hcons. cbn [star hd].
    split.
    + intros Hhash. rewrite Hhash. cbn [Ascii.eqb].
      destruct (SkipComments_loop_skips (length st - position st) st Hc (le_n _))
        as [st' [txt [E [Hr [Htxt H]]]]].
      rewrite Hcons in Hr.
      destruct txt as [|c txt].
      * exfalso. cbn [app] in Hr.
        destruct H as [Hend [Hc' [Hk _]]].
        unfold AtEndOfLine in Hend. apply orb_true_iff in Hend as [Hend|Hend].
        -- apply Nat.leb_le in Hend. rewrite (rem_nil st' Hc' Hend) in Hr.
           discriminate Hr.
        -- destruct (Nat.ltb_spec (position st') (length st')) as [Hlt'|Hge'].
           ++ rewrite (rem_cons st' Hc' Hlt') in Hr. injection Hr as Hr _.
              apply Ascii.eqb_eq in Hend. rewrite <- Hr, Hhash in Hend.
              discriminate Hend.
           ++ rewrite (rem_nil st' Hc' Hge') in Hr. discriminate Hr.
      * cbn [app] in Hr. injection Hr as Hr1 Hr2.
        exists st', txt. split; [exact E|].
        split; [now rewrite Hr2|].
        split; [now inversion Htxt|exact H].
    + intros Hno. apply Ascii.eqb_neq in Hno. now rewrite Hno.
  - rewrite (rem_nil st Hc Hge). cbn [star hd]. split; [discriminate|reflexivity].
Qed.

Lemma SkipComments_to_end_of_line_witness :
  exists (st' : ParseState) (txt : cstring),
    SkipComments (initial_state (cs "# a" ++ NL :: cs "b")) = Ok st'
    /\ rem (initial_state (cs "# a" ++ NL :: cs "b"))
       = "#"%char :: txt ++ rem st'
    /\ Forall (fun c => c <> NL) txt
    /\ AtEndOfLine st' = true
    /\ cursor_ok st'
    /\ keeps (initial_state (cs "# a" ++ NL :: cs "b")) st'
    /\ line st' = line (initial_state (cs "# a" ++ NL :: cs "b"))
    /\ column st' = column (initial_state (cs "# a" ++ NL :: cs "b")).
Proof.
  apply (proj1 (SkipComments_to_end_of_line
                  (initial_state (cs "# a" ++ NL :: cs "b"))
                  (initial_cursor_ok _))).
  reflexivity.
Defined.







(** ** What the public interface can and cannot build *)

Lemma plain_leaf (n : Node) :
  children n = [] -> map_key_ n = None -> IsSequence n = false -> plain n.
Proof.
  intros Hch Hk Hty m Hm.
  destruct (in_tree_inv m n Hm) as [->|[[c [Hc _]]|[k [Hk' _]]]].
  - now split.
  - rewrite Hch in Hc. contradiction.
  - congruence.
Qed.

Lemma plain_child (n c : Node) : plain n -> In c (children n) -> plain c.
Proof. intros H Hc m Hm. apply H. eapply in_tree_child; eauto. Qed.

Lemma plain_copy (n : Node) : plain n -> plain (Node_copy n).
Proof.
  induction n as [ty tg sv ch mk IHch _] using Node_ind. intros Hn m Hm.
  destruct (in_tree_inv _ _ Hm) as [->|[[c [Hc Hmc]]|[k [Hk _]]]].
  - split; [|apply Node_copy_key].
    unfold IsSequence. rewrite Node_copy_type. apply (Hn _ (in_tree_here _)).
  - rewrite Node_copy_children in Hc. cbn [children] in Hc.
    apply in_map_iff in Hc as [c0 [<- Hc0]].
    rewrite Forall_forall in IHch.
    exact (IHch c0 Hc0 (plain_child _ c0 Hn Hc0) m Hmc).
  - rewrite Node_copy_key in Hk. discriminate.
Qed.

Lemma plain_AddChild (n c : Node) : plain n -> plain c -> plain (AddChild n c).
Proof.
  intros Hn Hc m Hm.
  destruct (Hn n (in_tree_here n)) as [Hty Hkey].
  destruct (in_tree_inv _ _ Hm) as [->|[[c' [Hc' Hmc]]|[k [Hk _]]]].
  - now split.
  - cbn [children AddChild] in Hc'. apply in_app_or in Hc' as [Hin|[<-|[]]].
    + exact (plain_child n c' Hn Hin m Hmc).
    + exact (Hc m Hmc).
  - cbn [map_key_ AddChild] in Hk. congruence.
Qed.

Lemma plain_Load (content : cstring) (d : Node) : Load content = Ok d -> plain d.
Proof.
  rewrite Load_lines. intros H. injection H as <-. intros m Hm.
  destruct (in_tree_inv _ _ Hm) as [->|[[c [Hc Hmc]]|[k [Hk _]]]].
  - now split.
  - cbn [children] in Hc. apply In_nth_error in Hc as [i Hi].
    destruct (visible_shape _ i c Hi) as [l [-> _]].
    destruct (line_leaf_shape l) as [H1 [H2 [_ [H4 _]]]].
    apply (plain_leaf (line_leaf l) H1 H2); [|exact Hmc].
    unfold IsSequence. rewrite H4. now destruct (line_has_colon l).
  - discriminate Hk.
Qed.

Lemma lookup_results_in (n : Node) :
  (forall i, operator_index n i = Node_new None
             \/ exists c, In c (children n) /\ operator_index n i = Node_copy c)
  /\ (forall key, operator_key n key = Node_new None
                  \/ exists c, In c (children n)
                               /\ operator_key n key = Node_copy c).
Proof.
  split.
  - intros i. unfold operator_index. rewrite index_loop_unkeyed by lia.
    destruct (nth_error _ _) as [c|] eqn:E; [|now left].
    right. exists c. split; [|reflexivity].
    apply nth_error_In in E. unfold unkeyed in E. now apply filter_In in E.
  - intros key. unfold operator_key.
    destruct (HasKey_loop_key_loop (children n) key)
      as [[_ [c [Hin [_ ->]]]]|[_ ->]]; eauto.
Qed.

Lemma assign_str_Ok (n : Node) (value : char_pointer) (m : Node) :
  assign_str n value = Ok m ->
  exists s, value = outside s
            /\ m = mkNode Type_Scalar None (Some (c_str s)) [] None.
Proof.
  unfold assign_str. destruct value as [s|offset|offset].
  - intros H. injection H as <-. exists s. now split.
  - destruct (scalar_value_ n); discriminate.
  - destruct (tag_ n); discriminate.
Qed.

Lemma built_plain (n : Node) : built n -> plain n.
Proof.
  induction 1 as [tag|content d E|w filename d E|n _ IH|n i _ IH|n key _ IH
                  |n x _ IHn _ IHx|n value _ IH|n value m _ IH Em|n value _ IH
                  |n value _ IH].
  - now apply plain_leaf.
  - exact (plain_Load content d E).
  - unfold LoadFile in E. destruct (fopen_rb w filename) as [fp|]; [|discriminate].
    destruct (negb _); [discriminate|].
    destruct (fread fp _) as [read content].
    destruct (Load _) as [r|f] eqn:EL; [|discriminate].
    injection E as <-. exact (plain_Load _ _ EL).
  - now apply plain_copy.
  - destruct (proj1 (lookup_results_in n) i) as [->|[c [Hc ->]]].
    + now apply plain_leaf.
    + apply plain_copy. exact (plain_child n c IH Hc).
  - destruct (proj2 (lookup_results_in n) key) as [->|[c [Hc ->]]].
    + now apply plain_leaf.
    + apply plain_copy. exact (plain_child n c IH Hc).
  - apply plain_AddChild; [exact IHn|now apply plain_copy].
  - apply plain_AddChild; [exact IH|]. now apply plain_leaf.
  - destruct (assign_str_Ok n value m Em) as [s [_ ->]]. now apply plain_leaf.
  - now apply plain_leaf.
  - now apply plain_leaf.
Qed.

(** X21: what no program can build.  In a node obtained through the
    public interface (the constructor, [Load], [LoadFile], copies,
    [push_back], the three assignments and both [operator[]], in any
    combination) no node is of kind Sequence and no node has a key: nothing
    sets the kind Sequence, and keys are given by the parser only and lost
    in the copy it returns.  Hence on such a node [HasKey] is false and
    lookup by key answers the Null node, for every key. *)
Theorem public_nodes_plain :
  forall n : Node,
    built n ->
    (forall m, in_tree m n -> IsSequence m = false /\ map_key_ m = None)
    /\ (forall key, HasKey n key = false /\ operator_key n key = Node_new None).
Proof.
  intros n Hn. pose proof (built_plain n Hn) as Hp. split; [exact Hp|].
  intros key. apply HasKey_keyless. intros c Hc.
  apply (Hp c). eapply in_tree_child; [exact Hc|constructor].
Qed.

Lemma public_nodes_plain_witness :
  (forall m,
      in_tree m (push_back (mkNode Type_Scalar None (Some (cs "k")) [] None)
                           (push_back_str (Node_new None) (cs "v"))) ->
      IsSequence m = false /\ map_key_ m = None)
  /\ (forall key,
         HasKey (push_back (mkNode Type_Scalar None (Some (cs "k")) [] None)
                           (push_back_str (Node_new None) (cs "v"))) key = false
         /\ operator_key (push_back (mkNode Type_Scalar None (Some (cs "k")) [] None)
                                    (push_back_str (Node_new None) (cs "v"))) key
            = Node_new None).
Proof.
  apply (public_nodes_plain
           (push_back (mkNode Type_Scalar None (Some (cs "k")) [] None)
                      (push_back_str (Node_new None) (cs "v")))).
  apply built_push_back.
  - apply (built_assign_str (Node_new None) (outside (cs "k")));
      [apply built_new|reflexivity].
  - apply built_push_back_str, built_new.
Defined.

(** ** The terminator, and [LoadFile] on what was read *)

Lemma c_str_stop (a rest : cstring) : c_str (a ++ NUL :: rest) = c_str a.
Proof.
  induction a as [|c a IH]; cbn [app c_str]; [reflexivity|].
  destruct (Ascii.eqb c NUL); [reflexivity|now rewrite IH].
Qed.

Lemma Load_NUL (content rest : cstring) :
  Load (content ++ NUL :: rest) = Load content.
Proof. rewrite !Load_lines. unfold strlen. now rewrite c_str_stop. Qed.

(** X22: [Load] reads the text up to its first NUL byte and nothing
    after it: what follows a NUL in the buffer does not change the tree. *)
Theorem Load_stops_at_NUL :
  forall content rest : cstring,
    Load (content ++ NUL :: rest) = Load content
    /\ Load (c_str content) = Load content.
Proof.
  intros content rest. split; [apply Load_NUL|].
  rewrite !Load_lines. unfold strlen. now rewrite c_str_idem.
Qed.

(** X23: [LoadFile], when the file opens and the buffer is allocated,
    returns the tree of the bytes [fread] delivered, as [Load] parses them:
    the first [delivered] bytes of the file, which are all of them unless
    the read is short.  No exception is raised then. *)
Theorem LoadFile_parses_delivered :
  forall (w : World) (filename : cstring) (fp : File),
    fopen_rb w filename = Some fp ->
    malloc_ok w (List.length (bytes fp) + 1) = true ->
    exists d : Node,
      LoadFile w filename = Returns d
      /\ Load (firstn (delivered fp) (bytes fp)) = Ok d
      /\ (List.length (bytes fp) <= delivered fp -> Load (bytes fp) = Ok d).
Proof.
  intros w filename fp Hopen Hm. unfold LoadFile. rewrite Hopen, Hm. cbn [negb].
  unfold fread.
  set (n := Nat.min (Nat.min (delivered fp) (List.length (bytes fp)))
                    (List.length (bytes fp))).
  assert (firstn n (firstn n (bytes fp)) = firstn (delivered fp) (bytes fp))
    as Efirst.
  { rewrite firstn_firstn, Nat.min_id. subst n.
    destruct (Nat.le_gt_cases (List.length (bytes fp)) (delivered fp)) as [Hle|Hgt].
    - rewrite !firstn_all2 by lia. reflexivity.
    - f_equal. lia. }
  rewrite Efirst.
  rewrite (Load_NUL (firstn (delivered fp) (bytes fp)) []), Load_lines. eexists. split; [reflexivity|].
  split; [reflexivity|].
  intros Hle. rewrite firstn_all2 by exact Hle. apply Load_lines.
Qed.

Lemma LoadFile_parses_delivered_witness :
  exists d : Node,
    LoadFile full_read_world (cs "modegroup.yaml") = Returns d
    /\ Load (firstn 5 (cs "a" ++ [NL] ++ cs "b" ++ [NL] ++ cs "c")) = Ok d
    /\ (List.length (cs "a" ++ [NL] ++ cs "b" ++ [NL] ++ cs "c") <= 5 ->
        Load (cs "a" ++ [NL] ++ cs "b" ++ [NL] ++ cs "c") = Ok d).
Proof.
  apply (LoadFile_parses_delivered full_read_world (cs "modegroup.yaml")
           (mkFile (cs "a" ++ [NL] ++ cs "b" ++ [NL] ++ cs "c") 5));
    reflexivity.
Defined.

(** ** [ProcessLine] and the depth of the indentation stack *)

Lemma pop_loop_stops (fuel : nat) (st : ParseState) (indent top : Z) :
  stack_read st (indent_top st) = Ok top -> (top < indent)%Z ->
  pop_loop fuel st indent = Ok st.
Proof.
  intros Hread Hlt. apply Z.leb_gt in Hlt.
  destruct fuel; cbn [pop_loop]; destruct (0 <? indent_top st)%Z;
    try reflexivity; rewrite Hread; cbn [bind]; now rewrite Hlt.
Qed.

(** X24: [ProcessLine] does not check the depth of the indentation
    stack.  In a state whose stack is full (63 levels above the bottom) a
    line with a colon that is indented more than the top level makes it
    store the new level in [indent_stack[64]], one slot past the end of the
    array.  [Load] never gets there only because it always passes the
    indentation 0. *)
Theorem ProcessLine_depth_unchecked :
  forall (st : ParseState) (line : cstring) (indent top : Z) (cur : Node),
    indent_top st = 63%Z ->
    List.length (indent_stack st) = 64 ->
    nth_error (indent_stack st) 63 = Some (Some top) ->
    (top < indent)%Z ->
    lookup (root st) (current st) = Some cur ->
    line_has_colon line = true ->
    ProcessLine st line indent = Fault OutOfBounds.
Proof.
  intros st line indent top cur Htop Hlen Hnth Hlt Hcur Hcol.
  assert (stack_read st (indent_top st) = Ok top) as Hread.
  { unfold stack_read. rewrite Htop. cbn [Z.ltb Z.compare].
    change (Z.to_nat 63) with 63. now rewrite Hnth. }
  unfold ProcessLine. rewrite (pop_loop_stops _ st indent top Hread Hlt).
  cbn [bind]. unfold line_has_colon in Hcol. rewrite Hcol.
  match goal with
  | |- bind ?o _ = _ => assert (o = Ok true) as Hopens
  end.
  { destruct (_ || _); [reflexivity|].
    rewrite Hread, Htop. cbn [Z.leb Z.compare bind].
    apply Z.ltb_lt in Hlt. now rewrite Hlt. }
  rewrite Hopens. cbn [bind]. unfold deref. rewrite Hcur. cbn [bind].
  match goal with
  | |- bind (update st (current st) ?f) _ = _ =>
      destruct (update_ok st (current st) f cur Hcur) as [r [E [Hl _]]]
  end.
  rewrite E. cbn [bind]. cbn [current set_root].
  match goal with
  | |- bind (update ?s ?q ?g) _ = _ =>
      assert (exists m, lookup (root s) q = Some m) as [m Hm]
  end.
  { cbn [root set_root]. rewrite lookup_app, Hl. cbn [lookup children AddChild].
    rewrite nth_error_snoc. eauto. }
  match goal with
  | |- bind (update ?s ?q ?g) _ = _ =>
      destruct (update_ok s q g m Hm) as [r' [E' _]]
  end.
  rewrite E'. cbn [bind]. unfold stack_write.
  cbn [indent_top set_indent_top set_root indent_stack].
  rewrite Htop, Hlen. reflexivity.
Qed.

Lemma ProcessLine_depth_unchecked_witness :
  ProcessLine full_stack_state (cs "a:") 63 = Fault OutOfBounds.
Proof.
  apply (ProcessLine_depth_unchecked full_stack_state (cs "a:") 63 62
           (Node_new None)); try reflexivity.
Defined.

(** ** [ProcessLine] from any state *)

Lemma pop_body_fields (st st' : ParseState) :
  pop_body st = Ok st' ->
  indent_stack st' = indent_stack st
  /\ indent_top st' = (indent_top st - 1)%Z
  /\ root st' = root st.
Proof.
  unfold pop_body, deref. cbn [root current set_indent_top set_current].
  destruct (lookup (root st) (current st)) as [cur|]; [|discriminate].
  cbn [bind]. destruct (lookup (root st) _) as [parent|]; [|discriminate].
  cbn [bind]. intros H. injection H as <-.
  destruct (children parent) as [|c l]; [now repeat split|].
  destruct (nth_error _ _) as [last|]; [|now repeat split].
  destruct (map_key_ last); now repeat split.
Qed.

Lemma pop_loop_exit (fuel : nat) : forall st indent st1,
  pop_loop fuel st indent = Ok st1 ->
  indent_stack st1 = indent_stack st
  /\ root st1 = root st
  /\ ((0 <= indent_top st)%Z -> (0 <= indent_top st1)%Z)
  /\ ((indent_top st1 <= 0)%Z
      \/ exists t, stack_read st1 (indent_top st1) = Ok t /\ (t < indent)%Z).
Proof.
  induction fuel as [|fuel IH]; intros st indent st1; cbn [pop_loop];
    destruct (Z.ltb_spec 0 (indent_top st)) as [Hpos|Hle].
  - destruct (stack_read st (indent_top st)) as [top|] eqn:Er; [|discriminate].
    cbn [bind]. destruct (Z.leb_spec indent top) as [Hi|Hi]; [discriminate|].
    intros H. injection H as <-. repeat split; eauto.
  - intros H. injection H as <-. repeat split; auto.
  - destruct (stack_read st (indent_top st)) as [top|] eqn:Er; [|discriminate].
    cbn [bind]. destruct (Z.leb_spec indent top) as [Hi|Hi].
    + destruct (pop_body st) as [st0|] eqn:Eb; [|discriminate]. cbn [bind].
      intros H. destruct (IH _ _ _ H) as [H1 [H2 [H3 H4]]].
      destruct (pop_body_fields st st0 Eb) as [F1 [F2 F3]].
      split; [congruence|]. split; [congruence|]. split; [|exact H4].
      intros _. apply H3. lia.
    + intros H. injection H as <-. repeat split; eauto.
  - intros H. injection H as <-. repeat split; auto.
Qed.

Lemma modify_deeper (p : ptr) : forall (n m : Node) (q : ptr) (f : Node -> Node) n',
  lookup n p = Some m ->
  modify n (p ++ q) f = Some n' ->
  exists m', modify m q f = Some m' /\ lookup n' p = Some m'.
Proof.
  induction p as [|s p IH]; intros n m q f n' Hl Hm; cbn [app lookup modify] in *.
  - injection Hl as <-. eauto.
  - destruct s as [|i].
    + destruct (map_key_ n) as [k|]; [|discriminate].
      destruct (modify k (p ++ q) f) as [k'|] eqn:Ek; [|discriminate].
      cbn [option_map] in Hm. injection Hm as <-.
      destruct (IH k m q f k' Hl Ek) as [m' [H1 H2]].
      exists m'. split; [exact H1|exact H2].
    + destruct (nth_error (children n) i) as [c|] eqn:Ec; [|discriminate].
      destruct (modify c (p ++ q) f) as [c'|] eqn:Em; [|discriminate].
      cbn [option_map] in Hm. injection Hm as <-.
      destruct (IH c m q f c' Hl Em) as [m' [H1 H2]].
      exists m'. split; [exact H1|].
      cbn [children set_children]. now rewrite (nth_error_replace_nth _ _ _ _ Ec).
Qed.

Lemma modify_some_lookup (p : ptr) : forall (n r : Node) (f : Node -> Node),
  modify n p f = Some r -> exists m, lookup n p = Some m.
Proof.
  induction p as [|s p IH]; intros n r f Hm; cbn [lookup modify] in *; [eauto|].
  destruct s as [|i].
  - destruct (map_key_ n) as [k|]; [|discriminate].
    destruct (modify k p f) as [k'|] eqn:Ek; [|discriminate]. eauto.
  - destruct (nth_error (children n) i) as [c|]; [|discriminate].
    destruct (modify c p f) as [c'|] eqn:Ec; [|discriminate]. eauto.
Qed.

(** X25: what [ProcessLine] appends, from any state whose stack has -1
    at the bottom and for any indentation from 0 on.  When it returns, the
    node [current] pointed at after the popping loop has one more child,
    and that child is decided by the colon alone: for a line with a colon
    before any white space, a node of kind Map with the key as text and as
    key, to which [current] moves, the indentation being pushed on the
    stack, whatever follows the colon; for any other line, a node of kind
    Scalar whose text is the rest of the line from its first white space
    and whose key is the first word.  The branch for a sequence item and
    the test for an empty value make no difference. *)
Theorem ProcessLine_appends :
  forall (st st' : ParseState) (line : cstring) (indent : Z),
    (0 <= indent)%Z ->
    (0 <= indent_top st)%Z ->
    nth_error (indent_stack st) 0 = Some (Some (-1)%Z) ->
    ProcessLine st line indent = Ok st' ->
    exists (st1 : ParseState) (parent : Node),
      pop_loop (Z.to_nat (indent_top st)) st indent = Ok st1
      /\ lookup (root st1) (current st1) = Some parent
      /\ if line_has_colon line then
           lookup (root st') (current st1)
           = Some (AddChild parent
                     (SetMapKey (map_node (line_key line))
                                (Some (scalar_node (line_key line)))))
           /\ current st'
              = current st1 ++ [ChildStep (List.length (children parent))]
           /\ indent_top st' = (indent_top st1 + 1)%Z
           /\ stack_read st' (indent_top st') = Ok indent
         else
           lookup (root st') (current st1)
           = Some (AddChild parent
                     (SetMapKey (scalar_node (value_of (scan_key line)))
                                (Some (scalar_node (line_key line)))))
           /\ current st' = current st1
           /\ indent_top st' = indent_top st1
           /\ indent_stack st' = indent_stack st1.
Proof.
  intros st st' line indent Hind Htop H0. unfold ProcessLine.
  destruct (pop_loop (Z.to_nat (indent_top st)) st indent) as [st1|] eqn:Hpop;
    [|discriminate].
  cbn [bind].
  destruct (pop_loop_exit _ _ _ _ Hpop) as [Hstk [Hroot [Hnn Hexit]]].
  specialize (Hnn Htop).
  fold (line_has_colon line). fold (line_key line).
  set (value_start := if line_has_colon line
                      then skip_value_space (tl (scan_key line))
                      else scan_key line).
  assert ((if line_has_colon line
           then if Ascii.eqb (star value_start) NUL || Ascii.eqb (star value_start) "#"
                then Ok true
                else if (0 <=? indent_top st1)%Z
                     then top <- stack_read st1 (indent_top st1) ;;
                          Ok (top <? indent)%Z
                     else Ok false
           else Ok false) = Ok (line_has_colon line)) as Hopens.
  { destruct (line_has_colon line); [|reflexivity].
    destruct (_ || _); [reflexivity|].
    destruct (Z.leb_spec 0 (indent_top st1)) as [_|Hneg]; [|lia].
    destruct Hexit as [Hz|[t [Hr Ht]]].
    - assert (indent_top st1 = 0%Z) as -> by lia.
      unfold stack_read. cbn [Z.ltb Z.compare]. change (Z.to_nat 0) with 0.
      rewrite Hstk, H0. cbn [bind]. f_equal. apply Z.ltb_lt. lia.
    - rewrite Hr. cbn [bind]. f_equal. now apply Z.ltb_lt. }
  rewrite Hopens. cbn [bind].
  destruct (line_has_colon line) eqn:Ecol.
  - unfold deref.
    destruct (lookup (root st1) (current st1)) as [parent|] eqn:Hcur;
      [|discriminate].
    cbn [bind].
    destruct (update st1 (current st1) _) as [st2|] eqn:E2; [|discriminate].
    cbn [bind]. pose proof E2 as E2'. apply update_inv in E2' as [r2 [Hm2 ->]].
    destruct (modify_lookup (current st1)
                (fun this => AddChild this (map_node (line_key line)))
                _ _ Hcur) as [r2' [Hm2' Hl2]].
    rewrite Hm2 in Hm2'. injection Hm2' as <-.
    cbn [current set_root].
    destruct (update (set_root st1 r2) _ _) as [st3|] eqn:E3; [|discriminate].
    cbn [bind]. apply update_inv in E3 as [r3 [Hm3 ->]].
    cbn [root set_root] in Hm3.
    destruct (modify_deeper _ _ _ _ _ _ Hl2 Hm3) as [m' [Hm' Hl3]].
    cbn [modify children AddChild] in Hm'.
    rewrite nth_error_snoc in Hm'. cbn [modify option_map] in Hm'.
    injection Hm' as <-.
    destruct (stack_write _ _ indent) as [st4|] eqn:E4; [|discriminate].
    cbn [bind]. intros H. injection H as <-.
    exists st1, parent. split; [reflexivity|]. split; [exact Hcur|].
    pose proof (stack_write_root _ _ _ _ E4) as [R1 [R2 R3]].
    cbn [root current indent_top set_indent_top set_root set_current] in *.
    split.
    { rewrite R1, Hl3. f_equal. unfold set_children, AddChild.
      cbn [type_ tag_ scalar_value_ children map_key_].
      now rewrite replace_nth_snoc. }
    split; [reflexivity|]. split; [exact R3|].
    rewrite R3. unfold stack_write in E4.
    cbn [indent_top set_indent_top set_root indent_stack] in E4.
    unfold stack_read. cbn [indent_stack set_current].
    destruct (indent_top st1 + 1 <? 0)%Z; [discriminate|].
    destruct (Nat.ltb_spec (Z.to_nat (indent_top st1 + 1))
                           (List.length (indent_stack st1))) as [Hlt|];
      [|discriminate].
    injection E4 as <-. cbn [indent_stack set_indent_stack].
    destruct (nth_error (indent_stack st1) (Z.to_nat (indent_top st1 + 1)))
      as [y|] eqn:Ey.
    + now rewrite (nth_error_replace_nth _ _ _ _ Ey).
    + apply nth_error_None in Ey. lia.
  - assert (Ascii.eqb (star value_start) "-" = false) as Hd.
    { subst value_start. unfold line_has_colon in Ecol.
      destruct (scan_key_head line) as [H|[H|H]].
      - now rewrite H.
      - rewrite H in Ecol. discriminate.
      - destruct (Ascii.eqb_spec (star (scan_key line)) "-") as [E|];
          [|reflexivity].
        rewrite E in H. discriminate. }
    rewrite Hd. cbn [andb].
    intros E. pose proof E as E'. apply update_inv in E' as [r [Hm ->]].
    destruct (lookup (root st1) (current st1)) as [parent|] eqn:Hcur.
    + destruct (modify_lookup (current st1)
                  (fun this => AddChild this
                     (SetMapKey (scalar_node (value_of value_start))
                                (Some (scalar_node (line_key line)))))
                  _ _ Hcur) as [r' [Hm' Hl']].
      rewrite Hm in Hm'. injection Hm' as <-.
      exists st1, parent. split; [reflexivity|]. split; [exact Hcur|].
      cbn [root current indent_top indent_stack set_root].
      split; [exact Hl'|]. now repeat split.
    + destruct (modify_some_lookup _ _ _ _ Hm) as [m Hl]. congruence.
Qed.

Lemma ProcessLine_appends_witness :
  exists st' : ParseState,
    ProcessLine (initial_state (cs "k: - v")) (cs "k: - v") 2 = Ok st'
    /\ exists (st1 : ParseState) (parent : Node),
         pop_loop (Z.to_nat (indent_top (initial_state (cs "k: - v"))))
                  (initial_state (cs "k: - v")) 2 = Ok st1
         /\ lookup (root st1) (current st1) = Some parent
         /\ lookup (root st') (current st1)
            = Some (AddChild parent
                      (SetMapKey (map_node (line_key (cs "k: - v")))
                                 (Some (scalar_node (line_key (cs "k: - v"))))))
         /\ current st'
            = current st1 ++ [ChildStep (List.length (children parent))]
         /\ indent_top st' = (indent_top st1 + 1)%Z
         /\ stack_read st' (indent_top st') = Ok 2%Z.
Proof.
  eexists. split; [vm_compute; reflexivity|].
  exact (ProcessLine_appends (initial_state (cs "k: - v")) _ (cs "k: - v") 2
           (ltac:(lia)) (ltac:(cbn; lia)) eq_refl eq_refl).
Defined.

(** ** [as_bool] on the nodes a program can build *)

Lemma null_textless_leaf (n : Node) :
  children n = [] -> map_key_ n = None ->
  (IsNull n = true -> scalar_value_ n = None) -> null_textless n.
Proof.
  intros Hch Hk Hn m Hm.
  destruct (in_tree_inv m n Hm) as [->|[[c [Hc _]]|[k [Hk' _]]]].
  - exact Hn.
  - rewrite Hch in Hc. contradiction.
  - congruence.
Qed.

Lemma null_textless_child (n c : Node) :
  null_textless n -> In c (children n) -> null_textless c.
Proof. intros H Hc m Hm. apply H. eapply in_tree_child; eauto. Qed.

Lemma null_textless_copy (n : Node) :
  null_textless n -> null_textless (Node_copy n).
Proof.
  induction n as [ty tg sv ch mk IHch _] using Node_ind. intros Hn m Hm.
  destruct (in_tree_inv _ _ Hm) as [->|[[c [Hc Hmc]]|[k [Hk _]]]].
  - unfold IsNull. rewrite Node_copy_type. intros Hnull.
    pose proof (Hn _ (in_tree_here _) Hnull) as E. cbn [scalar_value_] in E.
    rewrite Node_copy_eq. cbn [scalar_value_]. now rewrite E.
  - rewrite Node_copy_children in Hc. cbn [children] in Hc.
    apply in_map_iff in Hc as [c0 [<- Hc0]].
    rewrite Forall_forall in IHch.
    exact (IHch c0 Hc0 (null_textless_child _ c0 Hn Hc0) m Hmc).
  - rewrite Node_copy_key in Hk. discriminate.
Qed.

Lemma null_textless_AddChild (n c : Node) :
  map_key_ n = None ->
  null_textless n -> null_textless c -> null_textless (AddChild n c).
Proof.
  intros Hkey Hn Hc m Hm.
  destruct (in_tree_inv _ _ Hm) as [->|[[c' [Hc' Hmc]]|[k [Hk _]]]].
  - exact (Hn n (in_tree_here n)).
  - cbn [children AddChild] in Hc'. apply in_app_or in Hc' as [Hin|[<-|[]]].
    + exact (null_textless_child n c' Hn Hin m Hmc).
    + exact (Hc m Hmc).
  - cbn [map_key_ AddChild] in Hk. congruence.
Qed.

Lemma null_textless_Load (content : cstring) (d : Node) :
  Load content = Ok d -> null_textless d.
Proof.
  rewrite Load_lines. intros H. injection H as <-. intros m Hm.
  destruct (in_tree_inv _ _ Hm) as [->|[[c [Hc Hmc]]|[k [Hk _]]]].
  - reflexivity.
  - cbn [children] in Hc. apply In_nth_error in Hc as [i Hi].
    destruct (visible_shape _ i c Hi) as [l [-> _]].
    destruct (line_leaf_shape l) as [H1 [H2 [_ [H4 _]]]].
    apply (null_textless_leaf (line_leaf l) H1 H2); [|exact Hmc].
    unfold IsNull. rewrite H4. now destruct (line_has_colon l).
  - discriminate Hk.
Qed.

Lemma built_null_textless (n : Node) : built n -> null_textless n.
Proof.
  induction 1 as [tag|content d E|w filename d E|n _ IH|n i _ IH|n key _ IH
                  |n x Hn IHn _ IHx|n value Hn IH|n value m _ IH Em
                  |n value _ IH|n value _ IH].
  - now apply null_textless_leaf.
  - exact (null_textless_Load content d E).
  - unfold LoadFile in E. destruct (fopen_rb w filename) as [fp|]; [|discriminate].
    destruct (negb _); [discriminate|].
    destruct (fread fp _) as [read content].
    destruct (Load _) as [r|f] eqn:EL; [|discriminate].
    injection E as <-. exact (null_textless_Load _ _ EL).
  - now apply null_textless_copy.
  - destruct (proj1 (lookup_results_in n) i) as [->|[c [Hc ->]]].
    + now apply null_textless_leaf.
    + apply null_textless_copy. exact (null_textless_child n c IH Hc).
  - destruct (proj2 (lookup_results_in n) key) as [->|[c [Hc ->]]].
    + now apply null_textless_leaf.
    + apply null_textless_copy. exact (null_textless_child n c IH Hc).
  - apply null_textless_AddChild.
    + exact (proj2 (built_plain n Hn n (in_tree_here n))).
    + exact IHn.
    + now apply null_textless_copy.
  - apply null_textless_AddChild.
    + exact (proj2 (built_plain n Hn n (in_tree_here n))).
    + exact IH.
    + apply null_textless_leaf; [reflexivity|reflexivity|discriminate].
  - destruct (assign_str_Ok n value m Em) as [s [_ ->]].
    apply null_textless_leaf; [reflexivity|reflexivity|discriminate].
  - apply null_textless_leaf; [reflexivity|reflexivity|discriminate].
  - apply null_textless_leaf; [reflexivity|reflexivity|discriminate].
Qed.

(** C6, amended: on every node a program can obtain through the public
    interface, [as_bool] is true iff the node is of kind Scalar or Map and
    its text is, case-sensitively, ["true"], ["yes"] or ["1"]; it is false
    in all other cases, so for every Null node, which has no text; and no
    such node is of kind Sequence. *)
Theorem as_bool_spec :
  forall n : Node,
    built n ->
    (as_bool n = true <->
     (IsScalar n = true \/ IsMap n = true) /\ text_is_true (as_string n))
    /\ (IsNull n = true -> as_bool n = false)
    /\ IsSequence n = false.
Proof.
  intros n Hb.
  pose proof (built_null_textless n Hb n (in_tree_here n)) as Hnull.
  destruct (built_plain n Hb n (in_tree_here n)) as [Hseq _].
  assert (as_bool n = true <-> text_is_true (as_string n)) as Htext.
  { unfold as_bool, as_string, text_is_true, strcmp_eq.
    destruct (scalar_value_ n) as [s|].
    - rewrite !orb_true_iff, !cstring_eqb_eq. tauto.
    - split; [discriminate|]. cbn [c_str]. intros [H|[H|H]]; discriminate H. }
  assert (as_bool n = true -> IsScalar n = true \/ IsMap n = true) as Hkind.
  { intros Ht. unfold as_bool in Ht.
    unfold IsNull, IsSequence, IsScalar, IsMap in *.
    destruct (type_ n); cbn in *;
      [rewrite (Hnull eq_refl) in Ht; discriminate Ht
      |now left|discriminate Hseq|now right]. }
  split; [|split; [|exact Hseq]].
  - split.
    + intros H. split; [exact (Hkind H)|]. now apply Htext.
    + intros [_ H]. now apply Htext.
  - intros Hn. unfold as_bool. now rewrite (Hnull Hn).
Qed.

Lemma as_bool_spec_witness :
  (as_bool (operator_index true_opener_document 0) = true <->
   (IsScalar (operator_index true_opener_document 0) = true
    \/ IsMap (operator_index true_opener_document 0) = true)
   /\ text_is_true (as_string (operator_index true_opener_document 0)))
  /\ (IsNull (operator_index true_opener_document 0) = true ->
      as_bool (operator_index true_opener_document 0) = false)
  /\ IsSequence (operator_index true_opener_document 0) = false.
Proof.
  apply (as_bool_spec (operator_index true_opener_document 0)).
  apply built_index. apply (built_Load true_opener_input).
  vm_compute. reflexivity.
Defined.
